(** * VASUDHA-GEOTECHCALC: the bearing-capacity engine and its application

    A shallow embedding of [src/types.ts] (the data model and, after the
    separator, the engine: [allowablePressureSPT] and
    [calculateBearingCapacity]) and of what [src/App.tsx] does with the
    engine (its state, the handlers of its inputs, the chart data and the
    badges it derives), with the properties of them that the specification
    states and further ones that the code shows.

    Numbers.  A TypeScript [number] is an IEEE-754 binary64 value, and so is
    Rocq's primitive [float]: [+ - * /], the comparisons and [abs] below are
    the very operations the engine performs, with their rounding, signed
    zeros, infinities and NaN.  The functions of the host's [Math] object
    that ECMAScript leaves implementation-approximated ([Math.exp],
    [Math.tan], [Math.atan], [Math.pow]) are an interface, [HostMath]; the
    theorems hold for every implementation of it.

    Objects.  For what the engine computes, it is a function of the values
    of its arguments, [calculateBearingCapacity].  For what a call does
    besides (whether it changes an object, whether its result depends on
    anything but its arguments), the engine is embedded once more, as a
    computation on a heap of objects that it receives by reference,
    [calculateBearingCapacity_call], and the two are shown to agree.

    Proofs.  Most properties follow the branches of the code and need of
    the arithmetic only how comparisons, zero and NaN behave.  The ranges
    (of the water-table correction, of the empirical table, of the shape
    factors) need the rounding itself: the second half of the facts about
    binary64 shows, from the specification of the primitive operations,
    that a rounded sum, difference, product or quotient never crosses a
    binary64 number that the exact result does not cross. *)

From Stdlib Require Import ZArith Bool Lia Reals Lra List String Floats.
Import ListNotations.

Set Warnings "-inexact-float".

Open Scope float_scope.

(** ** JavaScript operators on numbers *)

(** [a > b] and [a >= b]: IEEE comparisons, false as soon as one side is NaN. *)
Notation "x >? y" := (PrimFloat.ltb y x) (at level 70, no associativity) : float_scope.
Notation "x >=? y" := (PrimFloat.leb y x) (at level 70, no associativity) : float_scope.

(** [a !== b] on two numbers. *)
Definition strict_neq (a b : float) : bool := negb (a =? b).

(** The truth value of a number in a condition ([ToBoolean]): false for
    [+0], [-0] and [NaN]. *)
Definition truthy (x : float) : bool := negb ((x =? 0) || is_nan x).

(** The global [isNaN] on a number. *)
Definition isNaN (x : float) : bool := is_nan x.

(** [Math.PI], [Math.abs], [Math.max] and [Math.min] are fixed by ECMAScript:
    the binary64 nearest to pi; the magnitude; NaN if either argument is
    NaN, and [+0] larger than [-0]. *)
Definition Math_PI : float := 0x1.921fb54442d18p+1.

Definition Math_abs (x : float) : float := abs x.

Definition Math_max (a b : float) : float :=
  if is_nan a || is_nan b then nan
  else if a <? b then b
  else if b <? a then a
  else if get_sign a then b else a.

Definition Math_min (a b : float) : float :=
  if is_nan a || is_nan b then nan
  else if a <? b then a
  else if b <? a then b
  else if get_sign a then a else b.

(** The implementation-approximated part of [Math]. *)
Class HostMath : Type := {
  Math_exp : float -> float;
  Math_tan : float -> float;
  Math_atan : float -> float;
  Math_pow : float -> float -> float
}.

(** ** The data model ([types.ts]) *)

Inductive SoilType : Type :=
| Cohesionless_Sand   (* 'Cohesionless (Sand)' *)
| Cohesive_Clay       (* 'Cohesive (Clay)' *)
| c_phi_Soil          (* 'c-φ Soil' *)
| Rock                (* 'Rock' *)
| Other.              (* 'Other' *)

Inductive FoundationShape : Type :=
| Strip_Continuous    (* 'Strip/Continuous' *)
| Square
| Rectangular
| Circular.

Record SoilProperties : Type := {
  type : SoilType;
  c : float;               (* Cohesion (kPa) *)
  phi : float;             (* Friction angle (degrees) *)
  gamma : float;           (* Unit weight (kN/m3) *)
  gamma_sub : float;       (* Submerged unit weight (kN/m3) *)
  spt_n : option float;    (* spt_n?: SPT N-value *)
  Es : option float        (* Es?: Elastic modulus (kPa) *)
}.

Record FoundationProperties : Type := {
  shape : FoundationShape;
  B : float;               (* Width (m) *)
  L : float;               (* Length (m) *)
  Df : float               (* Depth (m) *)
}.

Record LoadingConditions : Type := {
  V : float;               (* Vertical load (kN) *)
  H : float;               (* Horizontal load (kN) *)
  Mx : float;              (* Moment about x (kN-m) *)
  My : float               (* Moment about y (kN-m) *)
}.

Inductive Status : Type :=
| SAFE
| SETTLEMENT_GOVERNING   (* 'SETTLEMENT GOVERNING' *)
| HIGH_ECCENTRICITY.     (* 'HIGH ECCENTRICITY' *)

(** [CalculationResults].  Its fields [SoilType] and [FoundationShape] carry
    a prime here, the unprimed names being the two types. *)
Record CalculationResults : Type := {
  SoilType' : SoilType;
  Cohesion : float;
  FrictionAngle : float;
  UnitWeight : float;
  FoundationShape' : FoundationShape;
  FoundationWidth : float;
  FoundationLength : float;
  FoundationDepth : float;
  FOS : float;
  ex : float;
  ey : float;
  B_prime : float;
  L_prime : float;
  eccentricity_check : bool;
  Nc : float;
  Nq : float;
  Ngamma : float;
  sc : float;
  sq : float;
  sgamma : float;
  dc : float;
  dq : float;
  dgamma : float;
  ic : float;
  iq : float;
  igamma : float;
  W_prime : float;         (* Water table correction factor for term 3 *)
  term1 : float;
  term2 : float;
  term3 : float;
  qu : float;
  qnu : float;
  qns : float;
  qs : float;
  qa_spt : float;
  recommended_sbc : float;
  settlement : float;
  status : Status
}.

(** ** The engine *)

Definition SoilType_eqb (a b : SoilType) : bool :=
  match a, b with
  | Cohesionless_Sand, Cohesionless_Sand
  | Cohesive_Clay, Cohesive_Clay
  | c_phi_Soil, c_phi_Soil
  | Rock, Rock
  | Other, Other => true
  | _, _ => false
  end.

Definition deg2rad (deg : float) : float := (deg * Math_PI) / 180.

Definition rad2deg (rad : float) : float := (rad * 180) / Math_PI.

Definition allowablePressureSPT (soilType : SoilType) (N : float) : float :=
  match soilType with
  | Cohesionless_Sand =>
      if N <? 10 then 50 + 5 * (N - 5)
      else if N <? 30 then 100 + 10 * (N - 10)
      else 300
  | Cohesive_Clay =>
      if N <? 4 then 50
      else if N <? 8 then 80
      else if N <? 15 then 100
      else 200
  | c_phi_Soil => 100 + 10 * N
  | Rock => 500
  | Other => 150
  end.

(** Step 2 of [calculateBearingCapacity], the IS 6403 water table
    corrections: the locals [q_surcharge] and [W_prime] after the
    [if (water_table_depth !== null)] block, in that order. *)
Definition water_table_correction (soil : SoilProperties) (Df B : float)
    (water_table_depth : option float) : float * float :=
  let q_surcharge := gamma soil * Df in
  let W_prime := 1.0 in
  match water_table_depth with
  | None => (q_surcharge, W_prime)
  | Some Dw =>
      let q_surcharge :=
        if Dw <=? Df then gamma soil * Dw + gamma_sub soil * (Df - Dw)
        else q_surcharge in
      let W_prime :=
        if Dw <=? Df then 0.5
        else if Dw >=? (Df + B) then 1.0
        else 0.5 * (1 + (Dw - Df) / B) in
      (q_surcharge, W_prime)
  end.

(** Step 6, the load inclination angle [alpha] and the divisor [phi_temp]. *)
Definition inclination_alpha `{HostMath} (V H : float) : float :=
  if V >? 0 then rad2deg (Math_atan (H / V)) else 0.

Definition inclination_phi_temp (phi : float) : float :=
  if phi =? 0 then 0.001 else phi.

Definition calculateBearingCapacity `{HostMath}
    (soil : SoilProperties) (foundation : FoundationProperties)
    (load : LoadingConditions) (water_table_depth : option float)
    (FOS : float) : CalculationResults :=
  let phi_rad := deg2rad (phi soil) in
  let '(Build_LoadingConditions V H Mx My) := load in
  let '(Build_FoundationProperties shape B L Df) := foundation in
  (* 1. Eccentricity and effective dimensions *)
  let ex := if strict_neq V 0 then Math_abs (My / V) else 0 in
  let ey := if strict_neq V 0 then Math_abs (Mx / V) else 0 in
  let B_prime := Math_max (B - 2 * ex) 0.1 in
  let L_prime := Math_max (L - 2 * ey) 0.1 in
  let eccentricity_check := (ex / B >? 1 / 6) || (ey / L >? 1 / 6) in
  (* 2. IS 6403 Water Table Corrections *)
  let '(q_surcharge, W_prime) :=
    water_table_correction soil Df B water_table_depth in
  let gamma_eff := gamma soil * W_prime in
  (* 3. Bearing capacity factors (IS 6403:1981) *)
  let '(Nc, Nq, Ngamma) :=
    if phi soil >? 0 then
      let Nq := Math_exp (Math_PI * Math_tan phi_rad)
                * Math_pow (Math_tan (Math_PI / 4 + phi_rad / 2)) 2 in
      let Nc := (Nq - 1) / Math_tan phi_rad in
      let Ngamma := 2 * (Nq + 1) * Math_tan phi_rad in
      (Nc, Nq, Ngamma)
    else (5.14, 1, 0) in
  (* 4. Shape factors *)
  let '(sc, sq, sgamma) :=
    match shape with
    | Strip_Continuous => (1.0, 1.0, 1.0)
    | Square =>
        let '(sc, sq) :=
          if phi soil >? 0 then
            (1 + 0.2 * (B_prime / L_prime),
             1 + 0.2 * (B_prime / L_prime) * Math_tan (deg2rad (45 + phi soil / 2)))
          else (1.3, 1.0) in
        (sc, sq, 0.8)
    | Rectangular =>
        (1 + 0.2 * (B_prime / L_prime),
         1 + 0.2 * (B_prime / L_prime) * Math_tan (deg2rad (45 + phi soil / 2)),
         1 - 0.4 * (B_prime / L_prime))
    | Circular => (1.3, 1.2, 0.6)
    end in
  (* 5. Depth factors (IS 6403 simplified) *)
  let D_B_ratio := Df / B in
  let dgamma := 1.0 in
  let factor := if D_B_ratio <=? 1 then D_B_ratio else Math_atan D_B_ratio in
  let dc := 1 + 0.2 * factor * Math_tan (deg2rad (45 + phi soil / 2)) in
  let dq := 1 + 0.1 * factor * Math_tan (deg2rad (45 + phi soil / 2)) in
  (* 6. Inclination factors *)
  let alpha := inclination_alpha V H in
  let phi_temp := inclination_phi_temp (phi soil) in
  let ic := Math_pow (1 - (alpha / 90)) 2 in
  let iq := ic in
  let igamma := Math_pow (1 - (alpha / phi_temp)) 2 in
  (* 7. Calculate terms *)
  let term1 := c soil * Nc * sc * dc * ic in
  let term2 := q_surcharge * Nq * sq * dq * iq in
  let term3 := 0.5 * gamma_eff * B_prime * Ngamma * sgamma * dgamma * igamma in
  (* 8. Capacities *)
  let qu := term1 + term2 + term3 in
  let qnu := qu - q_surcharge in
  let qns := qnu / FOS in
  let qs := qns + q_surcharge in
  (* 9. SPT check *)
  let qa_spt :=
    match spt_n soil with
    | Some N => if truthy N then allowablePressureSPT (type soil) N else nan
    | None => nan
    end in
  (* 10. Recommended safe pressure *)
  let recommended_sbc := if negb (isNaN qa_spt) then Math_min qs qa_spt else qs in
  (* 11. Settlement (Standard calculation) *)
  let empirical :=
    if SoilType_eqb (type soil) Cohesive_Clay then (qs / 50) * 25
    else (qs / 100) * 15 in
  let settlement :=
    match Es soil with
    | Some E =>
        if truthy E && (E >? 0) then
          let mu := 0.3 in   (* Poisson's ratio *)
          let I := 0.82 in   (* Influence factor *)
          (qs * B * (1 - Math_pow mu 2) * I) / E * 1000
        else empirical
    | None => empirical
    end in
  (* 12. Determine Status *)
  let status :=
    if settlement >? 25 then SETTLEMENT_GOVERNING
    else if eccentricity_check then HIGH_ECCENTRICITY
    else SAFE in
  {| SoilType' := type soil;
     Cohesion := c soil;
     FrictionAngle := phi soil;
     UnitWeight := gamma soil;
     FoundationShape' := shape;
     FoundationWidth := B;
     FoundationLength := L;
     FoundationDepth := Df;
     FOS := FOS;
     ex := ex; ey := ey; B_prime := B_prime; L_prime := L_prime;
     eccentricity_check := eccentricity_check;
     Nc := Nc; Nq := Nq; Ngamma := Ngamma;
     sc := sc; sq := sq; sgamma := sgamma;
     dc := dc; dq := dq; dgamma := dgamma;
     ic := ic; iq := iq; igamma := igamma;
     W_prime := W_prime;
     term1 := term1; term2 := term2; term3 := term3;
     qu := qu; qnu := qnu; qns := qns; qs := qs;
     qa_spt := qa_spt; recommended_sbc := recommended_sbc;
     settlement := settlement;
     status := status |}.

(** The call as its caller sees it: the specification's [evaluate] is a call
    of [calculateBearingCapacity].  The body of the function has no [throw],
    and property reads, arithmetic and the [Math] functions cannot raise on
    values of the declared types: every call completes normally with the
    record. *)
Inductive Completion : Type :=
| Returns (r : CalculationResults)
| Throws.   (* an exception reaching the caller: the "invalid configuration" *)

Definition evaluate `{HostMath}
    (soil : SoilProperties) (foundation : FoundationProperties)
    (load : LoadingConditions) (water_table_depth : option float)
    (FOS : float) : Completion :=
  Returns (calculateBearingCapacity soil foundation load water_table_depth FOS).

(** ** The engine as a call

    In the program the three structures are objects: the caller holds
    them, several callers may hold the same one, and a call receives
    references to them.  Here the objects are in a heap, the engine reads
    their properties where [calculateBearingCapacity] reads them, one read
    for each [soil.phi], [soil.gamma], ... of its body and one read per
    name of a destructuring, and the object literal it returns is a new
    object of the heap.  What a call does to the heap, and what of the heap
    its result depends on, is then a matter of proof.

    The local variables of the body are the call's own: no closure is
    made, nothing else can reach them.  They are bound by [let], a variable
    that is assigned to by the value each path leaves in it.  The [Math]
    functions are those of the host, as before. *)

Inductive Object : Type :=
| soil_object (soil : SoilProperties)
| foundation_object (foundation : FoundationProperties)
| load_object (load : LoadingConditions)
| results_object (results : CalculationResults).

Definition Ref : Type := nat.

Definition Heap : Type := list Object.

(** A computation on the heap: it returns a value and the heap it leaves,
    or is stuck, on a reference that does not hold an object of the declared
    type (which the TypeScript types of the callers exclude). *)
Definition Call (A : Type) : Type := Heap -> option (A * Heap).

Definition ret {A : Type} (a : A) : Call A := fun heap => Some (a, heap).

Definition bind {A B : Type} (m : Call A) (k : A -> Call B) : Call B :=
  fun heap =>
    match m heap with
    | Some (a, heap') => k a heap'
    | None => None
    end.

Notation "x <- m ;; k" := (bind m (fun x => k))
  (at level 61, m at level 100, k at level 200, only parsing).

Notation "' pat <- m ;; k" := (bind m (fun x => match x with pat => k end))
  (at level 61, pat pattern, m at level 100, k at level 200, only parsing).

(** [soil.property], [foundation.property] and [load.property]. *)
Definition get_soil {A : Type} (soil : Ref) (property : SoilProperties -> A)
    : Call A :=
  fun heap =>
    match nth_error heap soil with
    | Some (soil_object o) => Some (property o, heap)
    | _ => None
    end.

Definition get_foundation {A : Type} (foundation : Ref)
    (property : FoundationProperties -> A) : Call A :=
  fun heap =>
    match nth_error heap foundation with
    | Some (foundation_object o) => Some (property o, heap)
    | _ => None
    end.

Definition get_load {A : Type} (load : Ref)
    (property : LoadingConditions -> A) : Call A :=
  fun heap =>
    match nth_error heap load with
    | Some (load_object o) => Some (property o, heap)
    | _ => None
    end.

(** An object literal [{ ... }]: a new object, at a reference not in use. *)
Definition new_object (o : Object) : Call Ref :=
  fun heap => Some (List.length heap, (heap ++ [o])%list).

(** A property that may be absent ([spt_n?], [Es?]) reads as a number or as
    [undefined]: in a condition [undefined] is false, in arithmetic and in
    a comparison it is NaN. *)
Definition ToBoolean (x : option float) : bool :=
  match x with
  | Some v => truthy v
  | None => false
  end.

Definition ToNumber (x : option float) : float :=
  match x with
  | Some v => v
  | None => nan
  end.

(** Step 2, as in [water_table_correction]. *)
Definition water_table_correction_call (soil : Ref) (Df B : float)
    (water_table_depth : option float) : Call (float * float) :=
  soil_gamma <- get_soil soil gamma ;;
  let q_surcharge := soil_gamma * Df in
  let W_prime := 1.0 in
  match water_table_depth with
  | None => ret (q_surcharge, W_prime)
  | Some Dw =>
      q_surcharge <-
        (if Dw <=? Df then
           soil_gamma <- get_soil soil gamma ;;
           soil_gamma_sub <- get_soil soil gamma_sub ;;
           ret (soil_gamma * Dw + soil_gamma_sub * (Df - Dw))
         else ret q_surcharge) ;;
      let W_prime :=
        if Dw <=? Df then 0.5
        else if Dw >=? (Df + B) then 1.0
        else 0.5 * (1 + (Dw - Df) / B) in
      ret (q_surcharge, W_prime)
  end.

Definition calculateBearingCapacity_call `{HostMath}
    (soil foundation load : Ref) (water_table_depth : option float)
    (FOS : float) : Call Ref :=
  soil_phi <- get_soil soil phi ;;
  let phi_rad := deg2rad soil_phi in
  V <- get_load load V ;;
  Mx <- get_load load Mx ;;
  My <- get_load load My ;;
  H <- get_load load H ;;
  B <- get_foundation foundation B ;;
  L <- get_foundation foundation L ;;
  Df <- get_foundation foundation Df ;;
  shape <- get_foundation foundation shape ;;
  (* 1. Eccentricity and effective dimensions *)
  let ex := if strict_neq V 0 then Math_abs (My / V) else 0 in
  let ey := if strict_neq V 0 then Math_abs (Mx / V) else 0 in
  let B_prime := Math_max (B - 2 * ex) 0.1 in
  let L_prime := Math_max (L - 2 * ey) 0.1 in
  let eccentricity_check := (ex / B >? 1 / 6) || (ey / L >? 1 / 6) in
  (* 2. IS 6403 Water Table Corrections *)
  '(q_surcharge, W_prime) <-
    water_table_correction_call soil Df B water_table_depth ;;
  soil_gamma <- get_soil soil gamma ;;
  let gamma_eff := soil_gamma * W_prime in
  (* 3. Bearing capacity factors (IS 6403:1981) *)
  soil_phi <- get_soil soil phi ;;
  let '(Nc, Nq, Ngamma) :=
    if soil_phi >? 0 then
      let Nq := Math_exp (Math_PI * Math_tan phi_rad)
                * Math_pow (Math_tan (Math_PI / 4 + phi_rad / 2)) 2 in
      let Nc := (Nq - 1) / Math_tan phi_rad in
      let Ngamma := 2 * (Nq + 1) * Math_tan phi_rad in
      (Nc, Nq, Ngamma)
    else (5.14, 1, 0) in
  (* 4. Shape factors *)
  '(sc, sq, sgamma) <-
    match shape with
    | Strip_Continuous => ret (1.0, 1.0, 1.0)
    | Square =>
        soil_phi <- get_soil soil phi ;;
        '(sc, sq) <-
          (if soil_phi >? 0 then
             soil_phi <- get_soil soil phi ;;
             ret (1 + 0.2 * (B_prime / L_prime),
                  1 + 0.2 * (B_prime / L_prime)
                      * Math_tan (deg2rad (45 + soil_phi / 2)))
           else ret (1.3, 1.0)) ;;
        ret (sc, sq, 0.8)
    | Rectangular =>
        soil_phi <- get_soil soil phi ;;
        ret (1 + 0.2 * (B_prime / L_prime),
             1 + 0.2 * (B_prime / L_prime)
                 * Math_tan (deg2rad (45 + soil_phi / 2)),
             1 - 0.4 * (B_prime / L_prime))
    | Circular => ret (1.3, 1.2, 0.6)
    end ;;
  (* 5. Depth factors (IS 6403 simplified) *)
  let D_B_ratio := Df / B in
  let dgamma := 1.0 in
  let factor := if D_B_ratio <=? 1 then D_B_ratio else Math_atan D_B_ratio in
  soil_phi <- get_soil soil phi ;;
  let dc := 1 + 0.2 * factor * Math_tan (deg2rad (45 + soil_phi / 2)) in
  soil_phi <- get_soil soil phi ;;
  let dq := 1 + 0.1 * factor * Math_tan (deg2rad (45 + soil_phi / 2)) in
  (* 6. Inclination factors *)
  let alpha := if V >? 0 then rad2deg (Math_atan (H / V)) else 0 in
  soil_phi <- get_soil soil phi ;;
  phi_temp <- (if soil_phi =? 0 then ret 0.001 else get_soil soil phi) ;;
  let ic := Math_pow (1 - (alpha / 90)) 2 in
  let iq := ic in
  let igamma := Math_pow (1 - (alpha / phi_temp)) 2 in
  (* 7. Calculate terms *)
  soil_c <- get_soil soil c ;;
  let term1 := soil_c * Nc * sc * dc * ic in
  let term2 := q_surcharge * Nq * sq * dq * iq in
  let term3 := 0.5 * gamma_eff * B_prime * Ngamma * sgamma * dgamma * igamma in
  (* 8. Capacities *)
  let qu := term1 + term2 + term3 in
  let qnu := qu - q_surcharge in
  let qns := qnu / FOS in
  let qs := qns + q_surcharge in
  (* 9. SPT check *)
  soil_spt_n <- get_soil soil spt_n ;;
  qa_spt <-
    (if ToBoolean soil_spt_n then
       soil_type <- get_soil soil type ;;
       soil_spt_n <- get_soil soil spt_n ;;
       ret (allowablePressureSPT soil_type (ToNumber soil_spt_n))
     else ret nan) ;;
  (* 10. Recommended safe pressure *)
  let recommended_sbc := if negb (isNaN qa_spt) then Math_min qs qa_spt else qs in
  (* 11. Settlement (Standard calculation) *)
  soil_Es <- get_soil soil Es ;;
  supplied <-
    (if ToBoolean soil_Es then
       soil_Es <- get_soil soil Es ;;
       ret (ToNumber soil_Es >? 0)
     else ret false) ;;
  settlement <-
    (if supplied then
       let mu := 0.3 in   (* Poisson's ratio *)
       let I := 0.82 in   (* Influence factor *)
       soil_Es <- get_soil soil Es ;;
       ret ((qs * B * (1 - Math_pow mu 2) * I) / ToNumber soil_Es * 1000)
     else
       soil_type <- get_soil soil type ;;
       ret (if SoilType_eqb soil_type Cohesive_Clay then (qs / 50) * 25
            else (qs / 100) * 15)) ;;
  (* 12. Determine Status *)
  let status :=
    if settlement >? 25 then SETTLEMENT_GOVERNING
    else if eccentricity_check then HIGH_ECCENTRICITY
    else SAFE in
  soil_type <- get_soil soil type ;;
  soil_c <- get_soil soil c ;;
  soil_phi <- get_soil soil phi ;;
  soil_gamma <- get_soil soil gamma ;;
  new_object (results_object
    {| SoilType' := soil_type;
       Cohesion := soil_c;
       FrictionAngle := soil_phi;
       UnitWeight := soil_gamma;
       FoundationShape' := shape;
       FoundationWidth := B;
       FoundationLength := L;
       FoundationDepth := Df;
       FOS := FOS;
       ex := ex; ey := ey; B_prime := B_prime; L_prime := L_prime;
       eccentricity_check := eccentricity_check;
       Nc := Nc; Nq := Nq; Ngamma := Ngamma;
       sc := sc; sq := sq; sgamma := sgamma;
       dc := dc; dq := dq; dgamma := dgamma;
       ic := ic; iq := iq; igamma := igamma;
       W_prime := W_prime;
       term1 := term1; term2 := term2; term3 := term3;
       qu := qu; qnu := qnu; qns := qns; qs := qs;
       qa_spt := qa_spt; recommended_sbc := recommended_sbc;
       settlement := settlement;
       status := status |}).

(** ** A host for running the model

    One implementation of [HostMath], by series in binary64, used to
    evaluate the model on concrete inputs.  ECMAScript asks of a host an
    approximation of the mathematical functions; this one agrees with them
    to a few units in the last place on the values met below. *)
Module ReferenceHost.

(** The integer part of a finite number, read off its binary expansion. *)
Definition trunc (x : float) : Z :=
  match Prim2SF x with
  | S754_finite s m e =>
      let v := match e with
               | Zneg p => Z.shiftr (Zpos m) (Zpos p)
               | _ => Z.shiftl (Zpos m) e
               end in
      if s then Z.opp v else v
  | _ => 0%Z
  end.

Definition of_Z (z : Z) : float :=
  match z with
  | Z0 => 0
  | Zpos _ => of_uint63 (Uint63.of_Z z)
  | Zneg p => - of_uint63 (Uint63.of_Z (Zpos p))
  end.

(** The nearest integer. *)
Definition round (x : float) : Z :=
  if x <? 0 then trunc (x - 0.5) else trunc (x + 0.5).

Definition ln2 : float := 0x1.62e42fefa39efp-1.

(** [1 + x/i (1 + x/(i+1) (1 + ...))]: the exponential series from term [i]. *)
Fixpoint exp_series (n : nat) (i x : float) : float :=
  match n with
  | O => 1
  | S n' => 1 + x / i * exp_series n' (i + 1) x
  end.

Definition exp (x : float) : float :=
  if is_nan x then nan
  else if x =? infinity then infinity
  else if x =? neg_infinity then 0
  else
    let k := round (x / ln2) in
    let r := x - of_Z k * ln2 in
    Z.ldexp (exp_series 22 1 r) k.

(** [1 - x2/(i(i+1)) (1 - x2/((i+2)(i+3)) (1 - ...))]: sine ([i = 2], times
    the argument) and cosine ([i = 1]). *)
Fixpoint trig_series (n : nat) (i x2 : float) : float :=
  match n with
  | O => 1
  | S n' => 1 - x2 / (i * (i + 1)) * trig_series n' (i + 2) x2
  end.

Definition tan (x : float) : float :=
  if is_nan x || is_infinity x then nan
  else
    let k := round (x / Math_PI) in
    let r := x - of_Z k * Math_PI in
    let r2 := r * r in
    (r * trig_series 16 2 r2) / trig_series 16 1 r2.

(** [1/i - y2 (1/(i+2) - y2 (...))]: the arctangent series. *)
Fixpoint atan_series (n : nat) (i y2 : float) : float :=
  match n with
  | O => 1 / i
  | S n' => 1 / i - y2 * atan_series n' (i + 2) y2
  end.

Definition atan_small (y : float) : float := y * atan_series 40 1 (y * y).

Definition atan_pos (x : float) : float :=
  if x >? 0x1.3504f333f9de6p+1 then Math_PI / 2 - atan_small (1 / x)
  else if x >? 0x1.a827999fcef32p-2 then Math_PI / 4 + atan_small ((x - 1) / (x + 1))
  else atan_small x.

Definition atan (x : float) : float :=
  if x <? 0 then - atan_pos (- x) else atan_pos x.

(** [z (1 + z2/3 + z2^2/5 + ...)]: the inverse hyperbolic tangent. *)
Fixpoint atanh_series (n : nat) (i z2 : float) : float :=
  match n with
  | O => 1 / i
  | S n' => 1 / i + z2 * atanh_series n' (i + 2) z2
  end.

Definition ln (x : float) : float :=
  if is_nan x || (x <? 0) then nan
  else if x =? 0 then neg_infinity
  else if x =? infinity then infinity
  else
    let '(m, e) := Z.frexp x in
    let '(m, e) := if m <? 0x1.6a09e667f3bcdp-1 then (2 * m, (e - 1)%Z) else (m, e) in
    let z := (m - 1) / (m + 1) in
    of_Z e * ln2 + 2 * (z * atanh_series 30 1 (z * z)).

(** An integer power by repeated squaring. *)
Definition pow_Z (x : float) (n : Z) : float :=
  match n with
  | Z0 => 1
  | Zpos p => Pos.iter_op mul p x
  | Zneg p => 1 / Pos.iter_op mul p x
  end.

Definition pow (x y : float) : float :=
  if y =? 0 then 1
  else if is_nan x || is_nan y then nan
  else if (abs y <? 0x1p+31) && (of_Z (trunc y) =? y) then pow_Z x (trunc y)
  else exp (y * ln x).

#[export] Instance host : HostMath :=
  {| Math_exp := exp; Math_tan := tan; Math_atan := atan; Math_pow := pow |}.

End ReferenceHost.

(** ** The inputs the application starts from

    The initial state of [App.tsx] (soil, foundation, load, water table at
    5 m, factor of safety 3), which is also the specification's example. *)
Definition initial_soil : SoilProperties :=
  {| type := Cohesionless_Sand; c := 0; phi := 30; gamma := 18;
     gamma_sub := 10; spt_n := Some 15; Es := Some 20000 |}.

Definition initial_foundation : FoundationProperties :=
  {| shape := Square; B := 2.0; L := 2.0; Df := 1.5 |}.

Definition initial_load : LoadingConditions :=
  {| V := 500; H := 0; Mx := 0; My := 0 |}.

Definition initial_waterTable : option float := Some 5.

Definition initial_fos : float := 3.0.

(** ** The application ([App.tsx])

    The component's state that reaches the engine (the five [useState]
    cells [soil], [foundation], [load], [waterTable] and [fos]), the
    handlers of its inputs, and what it derives from the state: the
    results, the chart data, the water-table badge and the line that names
    the governing criterion.  What a handler receives is the number its
    input parsed, [parseInt(e.target.value)] or [parseFloat(e.target.value)],
    NaN when the text is not a number. *)

(** [x || d] on a number [x]. *)
Definition or_default (x d : float) : float := if truthy x then x else d.

(** [x.toFixed(digits)] and [parseFloat], which turn a number into decimal
    text and back, are taken from the host as they are. *)
Class HostText : Type := {
  toFixed : float -> nat -> string;
  parseFloat : string -> float
}.

Record AppState : Type := {
  soil : SoilProperties;
  foundation : FoundationProperties;
  load : LoadingConditions;
  waterTable : float;
  fos : float
}.

Definition initial_state : AppState :=
  {| soil := initial_soil; foundation := initial_foundation;
     load := initial_load; waterTable := 5; fos := initial_fos |}.

(** A key of [SoilProperties] with a value for it, the two arguments of
    [handleSoilChange]; likewise for [handleFoundationChange]. *)
Inductive SoilField : Type :=
| field_type (value : SoilType)
| field_c (value : float)
| field_phi (value : float)
| field_gamma (value : float)
| field_gamma_sub (value : float)
| field_spt_n (value : float)
| field_Es (value : float).

Inductive FoundationField : Type :=
| field_shape (value : FoundationShape)
| field_B (value : float)
| field_L (value : float)
| field_Df (value : float).

(** [setSoil(prev => ({ ...prev, [field]: value }))]. *)
Definition handleSoilChange (field : SoilField) (s : AppState) : AppState :=
  let prev := soil s in
  let next :=
    match field with
    | field_type value =>
        {| type := value; c := c prev; phi := phi prev; gamma := gamma prev;
           gamma_sub := gamma_sub prev; spt_n := spt_n prev; Es := Es prev |}
    | field_c value =>
        {| type := type prev; c := value; phi := phi prev; gamma := gamma prev;
           gamma_sub := gamma_sub prev; spt_n := spt_n prev; Es := Es prev |}
    | field_phi value =>
        {| type := type prev; c := c prev; phi := value; gamma := gamma prev;
           gamma_sub := gamma_sub prev; spt_n := spt_n prev; Es := Es prev |}
    | field_gamma value =>
        {| type := type prev; c := c prev; phi := phi prev; gamma := value;
           gamma_sub := gamma_sub prev; spt_n := spt_n prev; Es := Es prev |}
    | field_gamma_sub value =>
        {| type := type prev; c := c prev; phi := phi prev; gamma := gamma prev;
           gamma_sub := value; spt_n := spt_n prev; Es := Es prev |}
    | field_spt_n value =>
        {| type := type prev; c := c prev; phi := phi prev; gamma := gamma prev;
           gamma_sub := gamma_sub prev; spt_n := Some value; Es := Es prev |}
    | field_Es value =>
        {| type := type prev; c := c prev; phi := phi prev; gamma := gamma prev;
           gamma_sub := gamma_sub prev; spt_n := spt_n prev; Es := Some value |}
    end in
  {| soil := next; foundation := foundation s; load := load s;
     waterTable := waterTable s; fos := fos s |}.

(** [setFoundation(prev => ({ ...prev, [field]: value }))]. *)
Definition handleFoundationChange (field : FoundationField) (s : AppState)
    : AppState :=
  let prev := foundation s in
  let next :=
    match field with
    | field_shape value =>
        {| shape := value; B := B prev; L := L prev; Df := Df prev |}
    | field_B value =>
        {| shape := shape prev; B := value; L := L prev; Df := Df prev |}
    | field_L value =>
        {| shape := shape prev; B := B prev; L := value; Df := Df prev |}
    | field_Df value =>
        {| shape := shape prev; B := B prev; L := L prev; Df := value |}
    end in
  {| soil := soil s; foundation := next; load := load s;
     waterTable := waterTable s; fos := fos s |}.

Definition setWaterTable (value : float) (s : AppState) : AppState :=
  {| soil := soil s; foundation := foundation s; load := load s;
     waterTable := value; fos := fos s |}.

Definition setFos (value : float) (s : AppState) : AppState :=
  {| soil := soil s; foundation := foundation s; load := load s;
     waterTable := waterTable s; fos := value |}.

(** The four [<option>]s of the soil type select. *)
Inductive SoilOption : Type :=
| option_Sand       (* Cohesionless (Sand) *)
| option_Clay       (* Cohesive (Clay) *)
| option_c_phi      (* c-φ Soil *)
| option_Rock.      (* Rock *)

Definition SoilOption_value (o : SoilOption) : SoilType :=
  match o with
  | option_Sand => Cohesionless_Sand
  | option_Clay => Cohesive_Clay
  | option_c_phi => c_phi_Soil
  | option_Rock => Rock
  end.

(** The [onChange] of each input of the sidebar.  The load has no input:
    [setLoad] is never called. *)
Inductive Event : Type :=
| change_soil_type (o : SoilOption)
| change_spt_n (parsed : float)         (* parseInt(e.target.value) *)
| change_c (parsed : float)             (* parseFloat(e.target.value) *)
| change_phi (parsed : float)
| change_gamma (parsed : float)
| change_gamma_sub (parsed : float)
| change_shape (value : FoundationShape)
| change_B (parsed : float)
| change_Df (parsed : float)
| change_waterTable (parsed : float)
| change_fos (parsed : float).

Definition onChange (s : AppState) (e : Event) : AppState :=
  match e with
  | change_soil_type o => handleSoilChange (field_type (SoilOption_value o)) s
  | change_spt_n parsed => handleSoilChange (field_spt_n (or_default parsed 0)) s
  | change_c parsed => handleSoilChange (field_c (or_default parsed 0)) s
  | change_phi parsed => handleSoilChange (field_phi (or_default parsed 0)) s
  | change_gamma parsed => handleSoilChange (field_gamma (or_default parsed 0)) s
  | change_gamma_sub parsed =>
      handleSoilChange (field_gamma_sub (or_default parsed 0)) s
  | change_shape value => handleFoundationChange (field_shape value) s
  | change_B parsed => handleFoundationChange (field_B (or_default parsed 0)) s
  | change_Df parsed => handleFoundationChange (field_Df (or_default parsed 0)) s
  | change_waterTable parsed => setWaterTable (or_default parsed 0) s
  | change_fos parsed => setFos (or_default parsed 1) s
  end.

(** The state after a sequence of input events, from the initial one. *)
Definition run (events : list Event) : AppState :=
  fold_left onChange events initial_state.

(** [results]: the engine on the current state. *)
Definition results `{HostMath} (s : AppState) : CalculationResults :=
  calculateBearingCapacity (soil s) (foundation s) (load s)
    (Some (waterTable s)) (fos s).

(** [sensitivityData]: the engine on widths 1 to 6 m, for the two charts. *)
Record SensitivityPoint : Type := {
  width : string;
  sbc : float;
  settlement' : float
}.

Definition tempFoundation (foundation : FoundationProperties) (b : float)
    : FoundationProperties :=
  {| shape := shape foundation;
     B := b;
     L := match shape foundation with Square => b | _ => L foundation end;
     Df := Df foundation |}.

Definition sensitivity_point `{HostMath} `{HostText} (s : AppState) (b : float)
    : SensitivityPoint :=
  let res := calculateBearingCapacity (soil s) (tempFoundation (foundation s) b)
               (load s) (Some (waterTable s)) (fos s) in
  {| width := toFixed b 1;
     sbc := parseFloat (toFixed (recommended_sbc res) 2);
     settlement' := parseFloat (toFixed (settlement res) 2) |}.

(** [for (let b = 1; b <= 6; b += 0.5) points.push(...)], at most [fuel]
    rounds of it. *)
Fixpoint sensitivity_loop {A : Type} (fuel : nat) (b : float)
    (point : float -> A) : list A :=
  match fuel with
  | O => nil
  | S fuel =>
      if b <=? 6 then point b :: sensitivity_loop fuel (b + 0.5) point
      else nil
  end.

Definition sensitivityData `{HostMath} `{HostText} (s : AppState)
    : list SensitivityPoint :=
  sensitivity_loop 12 1 (sensitivity_point s).

(** [getWaterTableStatus]: the badge beside the water table slider. *)
Record WaterTableStatus : Type := {
  label : string;
  color : string
}.

Definition getWaterTableStatus (s : AppState) : WaterTableStatus :=
  if waterTable s <=? Df (foundation s) then
    {| label := "Surcharge Correction Active";
       color := "text-rose-600 bg-rose-50 border-rose-200" |}
  else if waterTable s <=? Df (foundation s) + B (foundation s) then
    {| label := "Self-Weight Correction Active";
       color := "text-amber-600 bg-amber-50 border-amber-200" |}
  else
    {| label := "No Correction (Dry)";
       color := "text-emerald-600 bg-emerald-50 border-emerald-200" |}.

(** The line under the recommended pressure: "Governed by ...". *)
Definition governed_by (results : CalculationResults) : string :=
  if qa_spt results <? qs results then "SPT Values" else "Shear Failure".

(** * Vocabulary for the proofs *)

(** ** Classes of binary64 values, on their specification *)

(** A number, as opposed to NaN; a finite one; a finite one other than zero. *)
Definition SF_number (x : spec_float) : bool :=
  match x with S754_nan => false | _ => true end.

Definition SF_finite (x : spec_float) : bool :=
  match x with S754_finite _ _ _ | S754_zero _ => true | _ => false end.

Definition SF_nonzero (x : spec_float) : bool :=
  match x with S754_finite _ _ _ => true | _ => false end.

(** ** The real value of a binary64 number *)

(** [2^e], and [m 2^e], as real numbers. *)
Definition pow2 (e : Z) : R := powerRZ 2 e.

Definition F2R (m e : Z) : R := (IZR m * pow2 e)%R.

(** The real number a finite binary64 value stands for (0 for the others). *)
Definition SF2R (x : spec_float) : R :=
  match x with
  | S754_finite s m e => if s then (- F2R (Zpos m) e)%R else F2R (Zpos m) e
  | _ => 0%R
  end.

Definition B2R (x : float) : R := SF2R (Prim2SF x).

(** What a [comparison] says of two reals. *)
Definition cmp_R (c : comparison) (x y : R) : Prop :=
  match c with
  | Lt => (x < y)%R
  | Eq => x = y
  | Gt => (y < x)%R
  end.

(** ** Bounds on a rounded result *)

(** The mantissa that rounding must not exceed: the truncated one when the
    value is exactly there, the next one otherwise. *)
Definition round_up (m : Z) (l : location) : Z :=
  match l with loc_Exact => m | loc_Inexact _ => (m + 1)%Z end.

(** The magnitude of a result is at least [v]; at most [v]. *)
Definition SF_mag_ge (o : spec_float) (v : R) : Prop :=
  match o with
  | S754_infinity _ => True
  | S754_finite _ m e => (v <= F2R (Zpos m) e)%R
  | S754_zero _ => (v <= 0)%R
  | S754_nan => False
  end.

Definition SF_mag_le (o : spec_float) (v : R) : Prop :=
  match o with
  | S754_zero _ => (0 <= v)%R
  | S754_finite _ m e => (F2R (Zpos m) e <= v)%R
  | _ => False
  end.

(** A result at most the real [v], or at least it; the infinities are
    beyond every real. *)
Definition SF_le_R (o : spec_float) (v : R) : Prop :=
  match o with
  | S754_infinity s => s = true
  | S754_nan => False
  | _ => (SF2R o <= v)%R
  end.

Definition SF_ge_R (o : spec_float) (v : R) : Prop :=
  match o with
  | S754_infinity s => s = false
  | S754_nan => False
  | _ => (v <= SF2R o)%R
  end.

(** The sign a rounded result carries. *)
Definition SF_signed (s : bool) (o : spec_float) : Prop :=
  match o with
  | S754_zero s' | S754_infinity s' | S754_finite s' _ _ => s' = s
  | S754_nan => False
  end.

(** ** Rounding to nearest, ties to even *)

(** The mantissa of [m 2^e] rounded to nearest, ties to even, at the
    exponent [e + n]. *)
Definition nearest_even (m n : Z) : Z :=
  let q := (m / 2 ^ n)%Z in
  let t := (2 * (m mod 2 ^ n))%Z in
  if (t <? 2 ^ n)%Z then q
  else if (t =? 2 ^ n)%Z then (if Z.even q then q else (q + 1)%Z)
  else (q + 1)%Z.

(** The real number that [m 2^e] rounds to ([0 < m]), whatever the range of
    the exponents. *)
Definition round_R (m e : Z) : R :=
  let e' := fexp prec emax (Zdigits2 m + e) in
  if (e <=? e')%Z then F2R (nearest_even m (e' - e)) e' else F2R m e.

(** [o] stands for the magnitude [v] with the sign [s]; a magnitude of
    [2^1024] or more is an infinity. *)
Definition SF_rounds (s : bool) (v : R) (o : spec_float) : Prop :=
  (v = 0%R /\ o = S754_zero s)
  \/ ((0 < v)%R
      /\ ((exists p e, o = S754_finite s p e /\ F2R (Zpos p) e = v
                       /\ SpecFloat.bounded prec emax p e = true)
          \/ (o = S754_infinity s /\ (pow2 1024 <= v)%R))).

(** ** Computations that only read *)

(** A computation that returns [a] and leaves the heap as it found it. *)
Definition reads {A : Type} (heap : Heap) (m : Call A) (a : A) : Prop :=
  m heap = Some (a, heap).

(** ** Tactics *)

Ltac to_pos_compare :=
  repeat match goal with
  | |- context [PosDef.Pos.compare_cont Eq ?a ?b] =>
      change (PosDef.Pos.compare_cont Eq a b) with (Pos.compare a b)
  | Hyp : context [PosDef.Pos.compare_cont Eq ?a ?b] |- _ =>
      change (PosDef.Pos.compare_cont Eq a b) with (Pos.compare a b) in Hyp
  end.

(** The binary64 format: 53 bits of mantissa, exponents from -1074 to 971. *)
Ltac unfold_fexp :=
  unfold canonical_mantissa, SpecFloat.bounded, fexp, SpecFloat.emin,
    FloatOps.prec, FloatOps.emax in *.

(** Reads a field of the record off the body of the engine. *)
Ltac engine_field :=
  intros;
  match goal with
  | |- context [calculateBearingCapacity ?s ?f ?l ?w ?k] => destruct f, l
  end;
  unfold calculateBearingCapacity; cbv beta iota zeta;
  cbn [Df B L shape V H Mx My];
  repeat match goal with
  | |- context [water_table_correction ?s ?d ?b ?w] =>
      destruct (water_table_correction s d b w)
  | |- context [if ?b then (_, _, _) else (_, _, _)] => destruct b
  | |- context [if ?b then (_, _) else (_, _)] => destruct b
  | |- context [match ?sh with Strip_Continuous => _ | _ => _ end] => destruct sh
  end;
  reflexivity.

(** The lemmas on computations that only read are collected in [reads]. *)
Create HintDb reads.

(** A condition that has been decided selects its branch. *)
#[local] Hint Extern 4 (reads _ _ _) =>
  progress (cbv beta iota;
            repeat match goal with
            | Hb : ?b = _ |- context [if ?b then _ else _] =>
                rewrite Hb; cbv iota
            end) : reads.

(** The first computation of a sequence, when it only reads. *)
Ltac call_step :=
  cbv beta iota zeta;
  lazymatch goal with
  | |- bind ?m ?k ?heap = _ =>
      let Hr := fresh "Hr" in
      eassert (Hr : reads heap m _) by (eauto 12 with reads nocore);
      unfold reads in Hr; unfold bind at 1; rewrite Hr; clear Hr
  end.

(** * The engine, field by field

    Each lemma reads one field of the record off the body of
    [calculateBearingCapacity]. *)

Section Fields.
Context `{HostMath}.
Variables (soil : SoilProperties) (foundation : FoundationProperties)
          (load : LoadingConditions) (water_table_depth : option float)
          (FOS : float).

Abbreviation r :=
  (calculateBearingCapacity soil foundation load water_table_depth FOS).
Abbreviation q_surcharge :=
  (fst (water_table_correction soil (Df foundation) (B foundation)
          water_table_depth)).

Lemma ex_field :
  ex r = if strict_neq (V load) 0 then Math_abs (My load / V load) else 0.
Proof. engine_field. Qed.

Lemma ey_field :
  ey r = if strict_neq (V load) 0 then Math_abs (Mx load / V load) else 0.
Proof. engine_field. Qed.

Lemma B_prime_field : B_prime r = Math_max (B foundation - 2 * ex r) 0.1.
Proof. engine_field. Qed.

Lemma L_prime_field : L_prime r = Math_max (L foundation - 2 * ey r) 0.1.
Proof. engine_field. Qed.

Lemma W_prime_field :
  W_prime r =
  snd (water_table_correction soil (Df foundation) (B foundation) water_table_depth).
Proof. engine_field. Qed.

Lemma factors_field :
  (Nc r, Nq r, Ngamma r) =
  if phi soil >? 0 then
    let phi_rad := deg2rad (phi soil) in
    let Nq := Math_exp (Math_PI * Math_tan phi_rad)
              * Math_pow (Math_tan (Math_PI / 4 + phi_rad / 2)) 2 in
    ((Nq - 1) / Math_tan phi_rad, Nq, 2 * (Nq + 1) * Math_tan phi_rad)
  else (5.14, 1, 0).
Proof. engine_field. Qed.

Lemma inclination_field :
  ic r = Math_pow (1 - inclination_alpha (V load) (H load) / 90) 2
  /\ iq r = ic r
  /\ igamma r =
     Math_pow (1 - inclination_alpha (V load) (H load)
                   / inclination_phi_temp (phi soil)) 2.
Proof. repeat split; engine_field. Qed.

Lemma capacities_field :
  qu r = term1 r + term2 r + term3 r
  /\ qnu r = qu r - q_surcharge
  /\ qns r = qnu r / FOS
  /\ qs r = qns r + q_surcharge.
Proof. repeat split; engine_field. Qed.

Lemma qa_spt_field :
  qa_spt r =
  match spt_n soil with
  | Some N => if truthy N then allowablePressureSPT (type soil) N else nan
  | None => nan
  end.
Proof. engine_field. Qed.

Lemma recommended_sbc_field :
  recommended_sbc r =
  if negb (isNaN (qa_spt r)) then Math_min (qs r) (qa_spt r) else qs r.
Proof. engine_field. Qed.

Lemma settlement_field :
  settlement r =
  let empirical :=
    if SoilType_eqb (type soil) Cohesive_Clay then (qs r / 50) * 25
    else (qs r / 100) * 15 in
  match Es soil with
  | Some E =>
      if truthy E && (E >? 0) then
        (qs r * B foundation * (1 - Math_pow 0.3 2) * 0.82) / E * 1000
      else empirical
  | None => empirical
  end.
Proof. engine_field. Qed.

Lemma status_field :
  status r =
  if settlement r >? 25 then SETTLEMENT_GOVERNING
  else if eccentricity_check r then HIGH_ECCENTRICITY
  else SAFE.
Proof. engine_field. Qed.

Lemma eccentricity_check_field :
  eccentricity_check r =
  (ex r / B foundation >? 1 / 6) || (ey r / L foundation >? 1 / 6).
Proof. engine_field. Qed.

Lemma term1_field : term1 r = c soil * Nc r * sc r * dc r * ic r.
Proof. engine_field. Qed.

Lemma term3_field :
  term3 r =
  0.5 * (gamma soil * W_prime r) * B_prime r * Ngamma r * sgamma r * dgamma r
  * igamma r.
Proof. engine_field. Qed.

Lemma shape_factors_field :
  (sc r, sq r, sgamma r) =
  let ratio := B_prime r / L_prime r in
  let t := Math_tan (deg2rad (45 + phi soil / 2)) in
  match shape foundation with
  | Strip_Continuous => (1.0, 1.0, 1.0)
  | Square =>
      if phi soil >? 0 then (1 + 0.2 * ratio, 1 + 0.2 * ratio * t, 0.8)
      else (1.3, 1.0, 0.8)
  | Rectangular => (1 + 0.2 * ratio, 1 + 0.2 * ratio * t, 1 - 0.4 * ratio)
  | Circular => (1.3, 1.2, 0.6)
  end.
Proof. engine_field. Qed.

End Fields.

Lemma FOS_field `{HostMath}
    (soil : SoilProperties) (foundation : FoundationProperties)
    (load : LoadingConditions) (water_table_depth : option float) (k : float) :
  FOS (calculateBearingCapacity soil foundation load water_table_depth k) = k.
Proof. engine_field. Qed.

(** * Facts about binary64 arithmetic

    Derived from the specification of the primitive operations
    ([FloatAxioms]) over [spec_float]. *)

(** ** Comparisons *)

Lemma SFcompare_swap (x y : spec_float) :
  SFcompare y x = option_map CompOpp (SFcompare x y).
Proof.
  destruct x as [sx|sx| |sx mx ex], y as [sy|sy| |sy my ey]; simpl;
    try reflexivity;
    try (destruct sx; reflexivity);
    try (destruct sy; reflexivity);
    try (destruct sx, sy; reflexivity).
  destruct sx, sy; simpl; try reflexivity;
    rewrite (Z.compare_antisym ex ey);
    destruct (ex ?= ey)%Z; simpl; try reflexivity;
    to_pos_compare; rewrite (Pos.compare_antisym mx my);
    try rewrite CompOpp_involutive; reflexivity.
Qed.

Lemma SFcompare_Eq_finite (x : spec_float) (s : bool) (m : positive) (e : Z) :
  SFcompare (S754_finite s m e) x = Some Eq -> x = S754_finite s m e.
Proof.
  destruct x as [sx|sx| |sx mx ex]; simpl; try discriminate;
    try (destruct s; discriminate); try (destruct sx; discriminate).
  destruct s, sx; try discriminate;
    destruct (e ?= ex)%Z eqn:He; try discriminate;
    apply Z.compare_eq in He; subst ex; intros Hm;
    injection Hm as Hm; to_pos_compare;
    try (apply (f_equal CompOpp) in Hm; rewrite CompOpp_involutive in Hm; simpl in Hm);
    apply Pos.compare_eq in Hm; subst mx; reflexivity.
Qed.

Lemma eqb_true_ltb_false (x y : float) :
  (x =? y) = true -> (y <? x) = false.
Proof.
  rewrite FloatAxioms.eqb_spec, FloatAxioms.ltb_spec.
  unfold SFeqb, SFltb. rewrite (SFcompare_swap (Prim2SF x) (Prim2SF y)).
  destruct (SFcompare (Prim2SF x) (Prim2SF y)) as [[ | | ]|]; simpl;
    congruence.
Qed.

Lemma eqb_true_leb (x y : float) :
  (x =? y) = true -> (x <=? y) = true /\ (y <=? x) = true.
Proof.
  rewrite FloatAxioms.eqb_spec, !FloatAxioms.leb_spec.
  unfold SFeqb, SFleb. rewrite (SFcompare_swap (Prim2SF x) (Prim2SF y)).
  destruct (SFcompare (Prim2SF x) (Prim2SF y)) as [[ | | ]|]; simpl;
    intros E; try discriminate E; split; reflexivity.
Qed.

Lemma leb_true_ltb_false (x y : float) :
  (x <=? y) = true -> (y <? x) = false.
Proof.
  rewrite FloatAxioms.leb_spec, FloatAxioms.ltb_spec.
  unfold SFleb, SFltb. rewrite (SFcompare_swap (Prim2SF x) (Prim2SF y)).
  destruct (SFcompare (Prim2SF x) (Prim2SF y)) as [[ | | ]|]; simpl;
    congruence.
Qed.

Lemma ltb_true_leb (x y : float) : (x <? y) = true -> (x <=? y) = true.
Proof.
  rewrite FloatAxioms.ltb_spec, FloatAxioms.leb_spec. unfold SFltb, SFleb.
  destruct (SFcompare (Prim2SF x) (Prim2SF y)) as [[ | | ]|]; congruence.
Qed.

(** ** NaN, infinities and zero *)

Lemma is_nan_spec (x : float) :
  is_nan x = negb (SF_number (Prim2SF x)).
Proof.
  unfold is_nan. rewrite FloatAxioms.eqb_spec. unfold SFeqb.
  destruct (Prim2SF x) as [s|s| |s m e]; simpl; try reflexivity;
    try (destruct s; reflexivity).
  rewrite Z.compare_refl, Pos.compare_cont_refl.
  destruct s; reflexivity.
Qed.

Lemma is_infinity_spec (x : float) :
  is_infinity x = match Prim2SF x with S754_infinity _ => true | _ => false end.
Proof.
  unfold is_infinity. rewrite FloatAxioms.eqb_spec, abs_spec.
  change (Prim2SF infinity) with (S754_infinity false).
  destruct (Prim2SF x) as [s|s| |s m e]; reflexivity.
Qed.

Lemma leb_true_not_nan (x y : float) :
  (x <=? y) = true -> is_nan x = false /\ is_nan y = false.
Proof.
  rewrite FloatAxioms.leb_spec, !is_nan_spec. unfold SFleb.
  destruct (Prim2SF x), (Prim2SF y); simpl; try discriminate; auto.
Qed.

Lemma Prim2SF_zero : Prim2SF 0 = S754_zero false.
Proof. reflexivity. Qed.

(** Subtracting [+0] changes nothing, whatever the number: [-0], an
    infinity and NaN included. *)
Lemma sub_zero_r (x : float) : x - 0 = x.
Proof.
  apply Prim2SF_inj. rewrite sub_spec, Prim2SF_zero.
  destruct (Prim2SF x) as [s|s| |s m e]; try reflexivity.
  destruct s; reflexivity.
Qed.

(** A division by [+0] or [-0] never gives a finite number. *)
Lemma div_zero_not_finite (x z : float) :
  (z =? 0) = true -> is_finite (x / z) = false.
Proof.
  unfold is_finite.
  rewrite FloatAxioms.eqb_spec, is_nan_spec, is_infinity_spec, div_spec.
  rewrite Prim2SF_zero. unfold SFeqb.
  destruct (Prim2SF z) as [s|s| |s m e]; simpl; try discriminate;
    try (destruct s; discriminate).
  intros _. destruct (Prim2SF x) as [sx|sx| |sx mx ex]; reflexivity.
Qed.

(** The floor of the effective dimensions leaves a dimension of at least
    [0.1] as it is. *)
Lemma Math_max_floor (x : float) :
  (0.1 <=? x) = true -> Math_max x 0.1 = x.
Proof.
  intros Hle. unfold Math_max.
  destruct (leb_true_not_nan _ _ Hle) as [_ Hx]. rewrite Hx. simpl.
  rewrite (leb_true_ltb_false _ _ Hle).
  destruct (0.1 <? x) eqn:Hlt; [reflexivity|].
  assert (E : x = 0.1).
  { apply Prim2SF_inj.
    rewrite FloatAxioms.leb_spec in Hle. rewrite FloatAxioms.ltb_spec in Hlt.
    unfold SFleb, SFltb in *.
    remember (Prim2SF 0.1) as k eqn:Hk. vm_compute in Hk. subst k.
    apply SFcompare_Eq_finite.
    destruct (SFcompare _ (Prim2SF x)) as [[ | | ]|]; congruence. }
  subst x. reflexivity.
Qed.

(** Two numbers compare one way or the other. *)
Lemma ltb_false_leb (x y : float) :
  is_nan x = false -> is_nan y = false ->
  (x <? y) = false -> (y <=? x) = true.
Proof.
  rewrite !is_nan_spec, FloatAxioms.ltb_spec, FloatAxioms.leb_spec.
  unfold SFltb, SFleb. rewrite (SFcompare_swap (Prim2SF x) (Prim2SF y)).
  destruct (Prim2SF x) as [sx|sx| |sx mx ex0], (Prim2SF y) as [sy|sy| |sy my ey0];
    try discriminate; intros _ _;
    destruct (SFcompare _ _) as [[ | | ]|] eqn:E; simpl; try congruence;
    simpl in E; try discriminate E;
    try (destruct sx; discriminate E); try (destruct sy; discriminate E);
    try (destruct sx, sy; discriminate E).
Qed.

(** The floor is a floor: [Math.max(x, 0.1)] is at least 0.1, or NaN with
    [x]. *)
Lemma Math_max_ge_floor (x : float) :
  is_nan x = false -> (0.1 <=? Math_max x 0.1) = true.
Proof.
  intros Hx. unfold Math_max. rewrite Hx. cbn [orb].
  change (is_nan 0.1) with false. cbv iota.
  destruct (x <? 0.1) eqn:H1; [reflexivity|].
  destruct (0.1 <? x) eqn:H2; [apply ltb_true_leb, H2|].
  destruct (get_sign x); [reflexivity|].
  apply ltb_false_leb; auto.
Qed.

Lemma Math_max_nan (x : float) :
  is_nan x = true -> is_nan (Math_max x 0.1) = true.
Proof. intros Hx. unfold Math_max. rewrite Hx. reflexivity. Qed.

(** ** Rounding never produces NaN *)

Section Rounding.
Variables prec emax : Z.

Lemma shr_1_nonneg (mrs : shr_record) :
  (0 <= shr_m mrs)%Z -> (0 <= shr_m (shr_1 mrs))%Z.
Proof.
  destruct mrs as [m r s]; simpl.
  destruct m as [|[p|p|]|p]; simpl; lia.
Qed.

Lemma iter_shr_1_nonneg (p : positive) :
  forall mrs, (0 <= shr_m mrs)%Z -> (0 <= shr_m (iter_pos shr_1 p mrs))%Z.
Proof.
  induction p as [p IH|p IH|]; simpl; intros mrs Hm.
  - apply IH, IH, shr_1_nonneg, Hm.
  - apply IH, IH, Hm.
  - apply shr_1_nonneg, Hm.
Qed.

Lemma shr_nonneg (mrs : shr_record) (e n : Z) :
  (0 <= shr_m mrs)%Z -> (0 <= shr_m (fst (shr mrs e n)))%Z.
Proof.
  intros Hm. destruct n; simpl; auto using iter_shr_1_nonneg.
Qed.

Lemma shr_fexp_nonneg (m e : Z) (l : location) :
  (0 <= m)%Z -> (0 <= shr_m (fst (shr_fexp prec emax m e l)))%Z.
Proof.
  intros Hm. unfold shr_fexp. apply shr_nonneg.
  destruct l as [|[ | | ]]; exact Hm.
Qed.

Lemma round_nearest_even_nonneg (m : Z) (l : location) :
  (0 <= m)%Z -> (0 <= round_nearest_even m l)%Z.
Proof.
  intros Hm. destruct l as [|[ | | ]]; simpl; try lia.
  destruct (Z.even m); lia.
Qed.

Lemma binary_round_aux_not_nan (s : bool) (m e : Z) (l : location) :
  (0 <= m)%Z -> binary_round_aux prec emax s m e l <> S754_nan.
Proof.
  intros Hm. unfold binary_round_aux.
  pose proof (shr_fexp_nonneg m e l Hm) as H1.
  destruct (shr_fexp prec emax m e l) as [mrs' e']. simpl in H1.
  pose proof (shr_fexp_nonneg _ e' loc_Exact
                (round_nearest_even_nonneg _ (loc_of_shr_record mrs') H1)) as H2.
  destruct (shr_fexp prec emax _ e' loc_Exact) as [mrs'' e'']. simpl in H2.
  destruct (shr_m mrs'') as [|p|p]; try lia; try discriminate.
  destruct (e'' <=? emax - prec)%Z; discriminate.
Qed.

Lemma binary_normalize_not_nan (m e : Z) (sz : bool) :
  binary_normalize prec emax m e sz <> S754_nan.
Proof.
  destruct m as [|p|p]; simpl; try discriminate;
    unfold binary_round;
    destruct (shl_align _ _ _) as [mz ez];
    apply binary_round_aux_not_nan; lia.
Qed.

Lemma SFadd_number (x y : spec_float) :
  SF_finite x = true -> SF_number y = true ->
  SF_number (SFadd prec emax x y) = true.
Proof.
  destruct x as [sx|sx| |sx mx ex], y as [sy|sy| |sy my ey];
    try discriminate; intros _ _; try reflexivity;
    try (destruct sx, sy; reflexivity).
  simpl.
  match goal with |- SF_number ?t = true =>
    pose proof (binary_normalize_not_nan
      (cond_Zopp sx (Zpos (fst (shl_align mx ex (Z.min ex ey))))
       + cond_Zopp sy (Zpos (fst (shl_align my ey (Z.min ex ey)))))
      (Z.min ex ey) false) as Hn;
    destruct t; try reflexivity; congruence end.
Qed.

Lemma SFsub_number (x y : spec_float) :
  SF_number x = true -> SF_finite y = true ->
  SF_number (SFsub prec emax x y) = true.
Proof.
  destruct x as [sx|sx| |sx mx ex], y as [sy|sy| |sy my ey];
    try discriminate; intros _ _; try reflexivity;
    try (destruct sx, sy; reflexivity).
  simpl.
  match goal with |- SF_number ?t = true =>
    pose proof (binary_normalize_not_nan
      (cond_Zopp sx (Zpos (fst (shl_align mx ex (Z.min ex ey))))
       - cond_Zopp sy (Zpos (fst (shl_align my ey (Z.min ex ey)))))
      (Z.min ex ey) false) as Hn;
    destruct t; try reflexivity; congruence end.
Qed.

Lemma SFmul_number (x y : spec_float) :
  SF_nonzero x = true -> SF_number y = true ->
  SF_number (SFmul prec emax x y) = true.
Proof.
  destruct x as [sx|sx| |sx mx ex], y as [sy|sy| |sy my ey];
    try discriminate; intros _ _; try reflexivity.
  simpl.
  pose proof (binary_round_aux_not_nan (xorb sx sy) (Zpos (mx * my)) (ex + ey)
                loc_Exact ltac:(lia)) as Hn.
  destruct (binary_round_aux _ _ _ _ _ _); try reflexivity; congruence.
Qed.
End Rounding.

Lemma add_number (k y : float) :
  SF_finite (Prim2SF k) = true -> is_nan y = false -> is_nan (k + y) = false.
Proof.
  rewrite !is_nan_spec, add_spec. intros Hk Hy.
  apply negb_false_iff in Hy. apply negb_false_iff.
  now apply SFadd_number.
Qed.

Lemma sub_number (y k : float) :
  is_nan y = false -> SF_finite (Prim2SF k) = true -> is_nan (y - k) = false.
Proof.
  rewrite !is_nan_spec, sub_spec. intros Hy Hk.
  apply negb_false_iff in Hy. apply negb_false_iff.
  now apply SFsub_number.
Qed.

Lemma mul_number (k y : float) :
  SF_nonzero (Prim2SF k) = true -> is_nan y = false -> is_nan (k * y) = false.
Proof.
  rewrite !is_nan_spec, mul_spec. intros Hk Hy.
  apply negb_false_iff in Hy. apply negb_false_iff.
  now apply SFmul_number.
Qed.

(** The empirical table maps a number to a number: NaN comes out of it
    only if NaN goes in. *)
Lemma allowablePressureSPT_number (soilType : SoilType) (N : float) :
  is_nan N = false -> is_nan (allowablePressureSPT soilType N) = false.
Proof.
  intros HN. unfold allowablePressureSPT.
  destruct soilType; try reflexivity.
  - destruct (N <? 10); [|destruct (N <? 30); [|reflexivity]];
      (apply add_number; [reflexivity|]);
      (apply mul_number; [reflexivity|]);
      (apply sub_number; [exact HN|reflexivity]).
  - destruct (N <? 4); [reflexivity|].
    destruct (N <? 8); [reflexivity|].
    destruct (N <? 15); reflexivity.
  - apply add_number; [reflexivity|].
    apply mul_number; [reflexivity|exact HN].
Qed.

Lemma truthy_number (x : float) : truthy x = true -> is_nan x = false.
Proof.
  unfold truthy. rewrite negb_true_iff, orb_false_iff. tauto.
Qed.


(** ** Powers of two and binary digits *)

Lemma pow2_pos (e : Z) : (0 < pow2 e)%R.
Proof. apply powerRZ_lt. lra. Qed.

Lemma pow2_add (a b : Z) : pow2 (a + b) = (pow2 a * pow2 b)%R.
Proof. apply powerRZ_add. lra. Qed.

Lemma pow2_0 : pow2 0 = 1%R.
Proof. reflexivity. Qed.

Lemma pow2_IZR (k : Z) : (0 <= k)%Z -> pow2 k = IZR (2 ^ k).
Proof.
  intros Hk. unfold pow2.
  rewrite <- (Z2Nat.id k Hk) at 1 2.
  rewrite <- pow_powerRZ. rewrite pow_IZR. reflexivity.
Qed.

Lemma pow2_le (a b : Z) : (a <= b)%Z -> (pow2 a <= pow2 b)%R.
Proof.
  intros Hab. replace b with (a + (b - a))%Z by lia.
  rewrite pow2_add.
  assert (1 <= pow2 (b - a))%R.
  { rewrite pow2_IZR by lia. apply IZR_le.
    assert (0 < 2 ^ (b - a))%Z by (apply Z.pow_pos_nonneg; lia). lia. }
  pose proof (pow2_pos a). nra.
Qed.

Lemma pow2_lt (a b : Z) : (a < b)%Z -> (pow2 a < pow2 b)%R.
Proof.
  intros Hab. replace b with (a + (b - a))%Z by lia.
  rewrite pow2_add.
  assert (2 <= pow2 (b - a))%R.
  { rewrite pow2_IZR by lia. apply IZR_le.
    replace (b - a)%Z with (Z.succ (b - a - 1)) by lia.
    rewrite Z.pow_succ_r by lia.
    assert (0 < 2 ^ (b - a - 1))%Z by (apply Z.pow_pos_nonneg; lia). lia. }
  pose proof (pow2_pos a). nra.
Qed.

Lemma digits2_pos_bounds (p : positive) :
  (2 ^ (Zpos (digits2_pos p) - 1) <= Zpos p < 2 ^ Zpos (digits2_pos p))%Z.
Proof.
  induction p as [p IH|p IH|]; simpl digits2_pos.
  - rewrite Pos2Z.inj_succ.
    replace (Z.succ (Zpos (digits2_pos p)) - 1)%Z with (Z.succ (Zpos (digits2_pos p) - 1)) by lia.
    rewrite !Z.pow_succ_r by lia. lia.
  - rewrite Pos2Z.inj_succ.
    replace (Z.succ (Zpos (digits2_pos p)) - 1)%Z with (Z.succ (Zpos (digits2_pos p) - 1)) by lia.
    rewrite !Z.pow_succ_r by lia. lia.
  - simpl. lia.
Qed.

Lemma Zdigits2_bounds (m : Z) :
  (0 < m)%Z -> (2 ^ (Zdigits2 m - 1) <= m < 2 ^ Zdigits2 m)%Z.
Proof.
  destruct m as [|p|p]; try lia. intros _. apply digits2_pos_bounds.
Qed.

Lemma Zdigits2_pos (m : Z) : (0 < m)%Z -> (0 < Zdigits2 m)%Z.
Proof. destruct m; simpl; lia. Qed.

Lemma Zdigits2_ge (m k : Z) :
  (0 <= k)%Z -> (2 ^ k <= m)%Z -> (k + 1 <= Zdigits2 m)%Z.
Proof.
  intros Hk Hm.
  assert (Hpos : (0 < m)%Z) by (pose proof (Z.pow_pos_nonneg 2 k); lia).
  destruct (Zdigits2_bounds m Hpos) as [_ Hu].
  destruct (Z.le_gt_cases (k + 1) (Zdigits2 m)) as [|Hlt]; [assumption|].
  assert (2 ^ Zdigits2 m <= 2 ^ k)%Z by (apply Z.pow_le_mono_r; lia). lia.
Qed.

(** ** Shifting a mantissa right *)

Lemma iter_pos_nat {A : Type} (f : A -> A) (p : positive) (x : A) :
  SpecFloat.iter_pos f p x = Nat.iter (Pos.to_nat p) f x.
Proof.
  revert x. induction p as [p IH|p IH|]; intros x; simpl SpecFloat.iter_pos.
  - rewrite !IH. rewrite Pos2Nat.inj_xI.
    replace (S (2 * Pos.to_nat p)) with (Pos.to_nat p + (Pos.to_nat p + 1))%nat by lia.
    rewrite !Nat.iter_add. reflexivity.
  - rewrite !IH. rewrite Pos2Nat.inj_xO.
    replace (2 * Pos.to_nat p)%nat with (Pos.to_nat p + Pos.to_nat p)%nat by lia.
    rewrite Nat.iter_add. reflexivity.
  - reflexivity.
Qed.

Lemma shr_1_spec (m : Z) (r s : bool) :
  (0 <= m)%Z ->
  shr_1 (Build_shr_record m r s) = Build_shr_record (m / 2) (Z.odd m) (r || s).
Proof.
  intros Hm. destruct m as [|[p|p|]|p]; try lia; simpl shr_1; f_equal.
  - rewrite Pos2Z.inj_xI. apply Z.div_unique with 1%Z; lia.
  - rewrite Pos2Z.inj_xO. apply Z.div_unique with 0%Z; lia.
Qed.

(** [k] steps of [shr_1]: the quotient by [2^k], and whether anything was
    shifted out. *)
Lemma iter_shr_1_spec (k : nat) (m : Z) (r s : bool) :
  (0 <= m)%Z ->
  let mrs := Nat.iter k shr_1 (Build_shr_record m r s) in
  shr_m mrs = (m / 2 ^ Z.of_nat k)%Z
  /\ (shr_r mrs || shr_s mrs = false <->
      r || s = false /\ (m mod 2 ^ Z.of_nat k = 0)%Z).
Proof.
  intros Hm. induction k as [|k IH]; cbv zeta.
  - simpl Nat.iter. cbn [shr_m shr_r shr_s]. split.
    + rewrite Z.pow_0_r, Z.div_1_r. reflexivity.
    + rewrite Z.pow_0_r, Z.mod_1_r. tauto.
  - cbv zeta in IH. rewrite Nat.iter_succ.
    destruct (Nat.iter k shr_1 (Build_shr_record m r s)) as [mk rk sk].
    cbn [shr_m shr_r shr_s] in IH. destruct IH as [IHm IHl].
    assert (Hpow : (0 < 2 ^ Z.of_nat k)%Z) by (apply Z.pow_pos_nonneg; lia).
    assert (Hmk : (0 <= mk)%Z) by (subst mk; apply Z.div_pos; lia).
    rewrite (shr_1_spec mk rk sk Hmk). cbn [shr_m shr_r shr_s].
    rewrite Nat2Z.inj_succ, Z.pow_succ_r by lia.
    split.
    + subst mk. rewrite Z.div_div by lia. f_equal. lia.
    + assert (Hsplit : (m mod (2 * 2 ^ Z.of_nat k)
                        = m mod 2 ^ Z.of_nat k + 2 ^ Z.of_nat k * (mk mod 2))%Z).
      { rewrite Z.mul_comm, Z.rem_mul_r by lia. rewrite IHm. reflexivity. }
      pose proof (Z.mod_pos_bound m (2 ^ Z.of_nat k) Hpow) as Hb.
      rewrite Hsplit, Zmod_odd.
      destruct (Z.odd mk); cbn [orb].
      * split; [discriminate|]. intros [_ Hyp]. lia.
      * rewrite IHl. split; intros [Hrs Hyp]; (split; [exact Hrs|lia]).
Qed.

Lemma loc_of_shr_record_of_loc (m : Z) (l : location) :
  loc_of_shr_record (shr_record_of_loc m l) = l.
Proof. destruct l as [|[ | | ]]; reflexivity. Qed.

Lemma shr_spec (m : Z) (l : location) (e n : Z) :
  (0 <= m)%Z ->
  let '(mrs, e') := shr (shr_record_of_loc m l) e n in
  (0 < n)%Z /\ e' = (e + n)%Z /\ shr_m mrs = (m / 2 ^ n)%Z
    /\ (loc_of_shr_record mrs = loc_Exact <-> l = loc_Exact /\ (m mod 2 ^ n = 0)%Z)
  \/ (n <= 0)%Z /\ e' = e /\ shr_m mrs = m /\ loc_of_shr_record mrs = l.
Proof.
  intros Hm. destruct n as [|p|p]; simpl shr.
  - right. rewrite loc_of_shr_record_of_loc.
    destruct l as [|[ | | ]]; repeat split; lia.
  - left. rewrite iter_pos_nat.
    assert (Hrec : exists r s, shr_record_of_loc m l = Build_shr_record m r s
                    /\ (r || s = false <-> l = loc_Exact)).
    { destruct l as [|[ | | ]]; simpl; eexists _, _; split; try reflexivity;
        simpl; split; congruence. }
    destruct Hrec as (r & s & -> & Hl).
    pose proof (iter_shr_1_spec (Pos.to_nat p) m r s Hm) as Hk. cbv zeta in Hk.
    rewrite positive_nat_Z in Hk. destruct Hk as [Hq Hloc].
    split; [lia|]. split; [reflexivity|]. split; [exact Hq|].
    rewrite <- Hl, <- Hloc.
    destruct (Nat.iter _ _ _) as [mk rk sk]. cbn [shr_r shr_s].
    destruct rk, sk; simpl; split; congruence.
  - right. rewrite loc_of_shr_record_of_loc.
    destruct l as [|[ | | ]]; repeat split; lia.
Qed.

(** ** Multiples of a power of two, and the numbers between them *)

Lemma F2R_pos (m e : Z) : (0 < m)%Z -> (0 < F2R m e)%R.
Proof.
  intros Hm. unfold F2R. apply IZR_lt in Hm. pose proof (pow2_pos e). nra.
Qed.

Lemma F2R_le (m1 m2 e : Z) : (m1 <= m2)%Z -> (F2R m1 e <= F2R m2 e)%R.
Proof.
  intros Hm. unfold F2R. apply IZR_le in Hm. pose proof (pow2_pos e). nra.
Qed.

Lemma F2R_lt (m1 m2 e : Z) : (m1 < m2)%Z -> (F2R m1 e < F2R m2 e)%R.
Proof.
  intros Hm. unfold F2R. apply IZR_lt in Hm. pose proof (pow2_pos e). nra.
Qed.

Lemma F2R_lt_inv (m1 m2 e : Z) : (F2R m1 e < F2R m2 e)%R -> (m1 < m2)%Z.
Proof.
  intros Hlt. destruct (Z.lt_ge_cases m1 m2) as [|Hge]; [assumption|].
  apply F2R_le with (e := e) in Hge. lra.
Qed.

(** Changing the exponent: [m 2^e = (m 2^(e-e')) 2^e'] for [e' <= e]. *)
Lemma F2R_shift (m e e' : Z) :
  (e' <= e)%Z -> F2R m e = F2R (m * 2 ^ (e - e')) e'.
Proof.
  intros He. unfold F2R.
  replace e with ((e - e') + e')%Z at 1 by lia.
  rewrite pow2_add, mult_IZR, (pow2_IZR (e - e')) by lia. ring.
Qed.

Lemma F2R_lt_pow2 (m e d : Z) :
  (0 <= d)%Z -> (m < 2 ^ d)%Z -> (F2R m e < pow2 (d + e))%R.
Proof.
  intros Hd Hm. unfold F2R. rewrite pow2_add, (pow2_IZR d) by lia.
  apply IZR_lt in Hm. pose proof (pow2_pos e). nra.
Qed.

Lemma F2R_ge_pow2 (m e d : Z) :
  (0 <= d)%Z -> (2 ^ d <= m)%Z -> (pow2 (d + e) <= F2R m e)%R.
Proof.
  intros Hd Hm. unfold F2R. rewrite pow2_add, (pow2_IZR d) by lia.
  apply IZR_le in Hm. pose proof (pow2_pos e). nra.
Qed.

(** Between two consecutive multiples of [2^e'] there is no binary64
    number, as soon as [q] carries a full mantissa wherever [e'] is above
    the least exponent. *)
Lemma no_float_between (mf : positive) (ef q e' : Z) :
  canonical_mantissa prec emax mf ef = true ->
  (0 <= q)%Z ->
  (-1074 < e' -> 2 ^ 52 <= q)%Z ->
  (F2R q e' < F2R (Zpos mf) ef)%R ->
  (F2R (q + 1) e' <= F2R (Zpos mf) ef)%R.
Proof.
  intros Hcan Hq Hfull Hlt.
  destruct (Z.le_gt_cases e' ef) as [Hle|Hgt].
  - rewrite (F2R_shift (Zpos mf) ef e' Hle) in *.
    apply F2R_lt_inv in Hlt. apply F2R_le. lia.
  - exfalso.
    pose proof (digits2_pos_bounds mf) as [_ Hd].
    apply Z.eqb_eq in Hcan. unfold_fexp.
    assert (Hf : (F2R (Zpos mf) ef < pow2 (Zpos (digits2_pos mf) + ef))%R)
      by (apply F2R_lt_pow2; lia).
    assert (Hp : (pow2 (Zpos (digits2_pos mf) + ef) <= pow2 (52 + e'))%R)
      by (apply pow2_le; lia).
    assert (Hq' : (pow2 (52 + e') <= F2R q e')%R)
      by (apply F2R_ge_pow2; lia).
    lra.
Qed.

(** The quotient left by the shift to the canonical exponent carries a full
    mantissa above the least exponent. *)
Lemma floor_canonical (m e : Z) :
  (0 < m)%Z ->
  let e' := fexp prec emax (Zdigits2 m + e) in
  (e <= e')%Z ->
  (-1074 < e' -> 2 ^ 52 <= m / 2 ^ (e' - e))%Z.
Proof.
  intros Hm e' Hn He'. subst e'. 
  destruct (Zdigits2_bounds m Hm) as [Hl _].
  pose proof (Zdigits2_pos m Hm) as Hd.
  unfold_fexp.
  assert (Hn' : (Z.max (Zdigits2 m + e - 53) (3 - 1024 - 53) - e = Zdigits2 m - 53)%Z) by lia.
  rewrite Hn'.
  apply Z.div_le_lower_bound.
  - apply Z.pow_pos_nonneg; lia.
  - rewrite <- Z.pow_add_r by lia.
    replace (Zdigits2 m - 53 + 52)%Z with (Zdigits2 m - 1)%Z by lia. exact Hl.
Qed.

(** Truncation to the canonical exponent does not go below a binary64
    number that the value is not below. *)
Lemma floor_above_float (mf : positive) (ef m e : Z) :
  canonical_mantissa prec emax mf ef = true ->
  (0 <= m)%Z ->
  let e' := fexp prec emax (Zdigits2 m + e) in
  (e <= e')%Z ->
  (F2R (Zpos mf) ef <= F2R m e)%R ->
  (F2R (Zpos mf) ef <= F2R (m / 2 ^ (e' - e)) e')%R.
Proof.
  intros Hcan Hm e' Hn Hle.
  assert (Hm' : (0 < m)%Z).
  { destruct (Z.eq_dec m 0) as [->|]; [|lia].
    pose proof (F2R_pos (Zpos mf) ef ltac:(lia)). unfold F2R in Hle at 2.
    rewrite Rmult_0_l in Hle. lra. }
  assert (Hpow : (0 < 2 ^ (e' - e))%Z) by (apply Z.pow_pos_nonneg; lia).
  destruct (Rle_or_lt (F2R (Zpos mf) ef) (F2R (m / 2 ^ (e' - e)) e')) as [|Hgt];
    [assumption|exfalso].
  apply no_float_between in Hgt; try assumption.
  - assert (Hlt : (F2R m e < F2R (m / 2 ^ (e' - e) + 1) e')%R).
    { rewrite (F2R_shift _ e' e Hn). apply F2R_lt.
      pose proof (Z.mul_succ_div_gt m (2 ^ (e' - e)) Hpow). lia. }
    lra.
  - apply Z.div_pos; lia.
  - apply floor_canonical; assumption.
Qed.

(** ** Rounding stays within the neighbouring numbers *)

Lemma round_nearest_even_bounds (m : Z) (l : location) :
  (m <= round_nearest_even m l <= round_up m l)%Z.
Proof.
  destruct l as [|[ | | ]]; simpl; try lia. destruct (Z.even m); lia.
Qed.

Lemma F2R_0 (e : Z) : F2R 0 e = 0%R.
Proof. unfold F2R. ring. Qed.

Lemma binary_round_aux_lower (s : bool) (mx ex : Z) (lx : location)
    (mf : positive) (ef : Z) :
  (0 <= mx)%Z ->
  canonical_mantissa prec emax mf ef = true ->
  (F2R (Zpos mf) ef <= F2R mx ex)%R ->
  SF_mag_ge (binary_round_aux prec emax s mx ex lx) (F2R (Zpos mf) ef).
Proof.
  intros Hmx Hcan Hle. unfold binary_round_aux, shr_fexp.
  pose proof (shr_spec mx lx ex (fexp prec emax (Zdigits2 mx + ex) - ex) Hmx) as S1.
  destruct (shr (shr_record_of_loc mx lx) ex _) as [mrs' e'].
  pose proof (round_nearest_even_bounds (shr_m mrs') (loc_of_shr_record mrs')) as Hr.
  set (m1 := round_nearest_even (shr_m mrs') (loc_of_shr_record mrs')) in *.
  assert (H1 : (0 <= m1)%Z /\ (F2R (Zpos mf) ef <= F2R m1 e')%R).
  { destruct S1 as [(Hn & -> & Hq & _)|(Hn & -> & Hq & _)].
    - rewrite Hq in Hr.
      pose proof (floor_above_float mf ef mx ex Hcan Hmx ltac:(lia) Hle) as Hfl.
      cbv zeta in Hfl.
      replace (ex + (fexp prec emax (Zdigits2 mx + ex) - ex))%Z
        with (fexp prec emax (Zdigits2 mx + ex)) by lia.
      assert (0 <= mx / 2 ^ (fexp prec emax (Zdigits2 mx + ex) - ex))%Z
        by (apply Z.div_pos; [lia|apply Z.pow_pos_nonneg; lia]).
      split; [lia|].
      eapply Rle_trans; [exact Hfl|]. apply F2R_le. lia.
    - rewrite Hq in Hr. split; [lia|].
      eapply Rle_trans; [exact Hle|]. apply F2R_le. lia. }
  destruct H1 as [Hm1 Hle1].
  pose proof (shr_spec m1 loc_Exact e' (fexp prec emax (Zdigits2 m1 + e') - e') Hm1) as S2.
  destruct (shr (shr_record_of_loc m1 loc_Exact) e' _) as [mrs'' e''].
  assert (H2 : (F2R (Zpos mf) ef <= F2R (shr_m mrs'') e'')%R).
  { destruct S2 as [(Hn & -> & -> & _)|(Hn & -> & -> & _)]; [|exact Hle1].
    pose proof (floor_above_float mf ef m1 e' Hcan Hm1 ltac:(lia) Hle1) as Hfl.
    cbv zeta in Hfl.
    replace (e' + (fexp prec emax (Zdigits2 m1 + e') - e'))%Z
      with (fexp prec emax (Zdigits2 m1 + e')) by lia.
    exact Hfl. }
  destruct (shr_m mrs'') as [|p|p]; cbn [SF_mag_ge].
  - rewrite F2R_0 in H2. exact H2.
  - destruct (e'' <=? emax - prec)%Z; cbn [SF_mag_ge]; [exact H2|exact I].
  - pose proof (F2R_pos (Zpos mf) ef ltac:(lia)).
    pose proof (F2R_pos (Zpos p) e'' ltac:(lia)).
    assert (F2R (Zneg p) e'' = (- F2R (Zpos p) e'')%R).
    { unfold F2R. change (Zneg p) with (- Zpos p)%Z. rewrite opp_IZR. ring. }
    lra.
Qed.

Lemma bounded_canonical (m : positive) (e : Z) :
  SpecFloat.bounded prec emax m e = true -> canonical_mantissa prec emax m e = true.
Proof. unfold SpecFloat.bounded. intros Hb. apply andb_true_iff in Hb. tauto. Qed.

Lemma bounded_lt_overflow (m : positive) (e : Z) :
  SpecFloat.bounded prec emax m e = true -> (F2R (Zpos m) e < pow2 1024)%R.
Proof.
  intros Hb. unfold SpecFloat.bounded in Hb. apply andb_true_iff in Hb.
  destruct Hb as [Hcan He]. apply Z.eqb_eq in Hcan. apply Z.leb_le in He.
  pose proof (digits2_pos_bounds m) as [_ Hd]. unfold_fexp.
  eapply Rlt_le_trans; [apply (F2R_lt_pow2 _ e (Zpos (digits2_pos m))); lia|].
  apply pow2_le. lia.
Qed.

Lemma F2R_floor_le (m e n : Z) :
  (0 <= m)%Z -> (0 <= n)%Z -> (F2R (m / 2 ^ n) (e + n) <= F2R m e)%R.
Proof.
  intros Hm Hn.
  rewrite (F2R_shift (m / 2 ^ n) (e + n) e) by lia.
  replace (e + n - e)%Z with n by lia.
  apply F2R_le.
  assert (Hpow : (0 < 2 ^ n)%Z) by (apply Z.pow_pos_nonneg; lia).
  pose proof (Z.mul_div_le m (2 ^ n) Hpow). lia.
Qed.

Lemma binary_round_aux_upper (s : bool) (mx ex : Z) (lx : location)
    (mf : positive) (ef : Z) :
  (0 <= mx)%Z ->
  (ex <= fexp prec emax (Zdigits2 mx + ex))%Z ->
  SpecFloat.bounded prec emax mf ef = true ->
  (F2R (round_up mx lx) ex <= F2R (Zpos mf) ef)%R ->
  SF_mag_le (binary_round_aux prec emax s mx ex lx) (F2R (Zpos mf) ef).
Proof.
  intros Hmx Hpre Hbnd Hle.
  pose proof (bounded_canonical _ _ Hbnd) as Hcan.
  pose proof (F2R_pos (Zpos mf) ef ltac:(lia)) as Hfpos.
  unfold binary_round_aux, shr_fexp.
  pose proof (shr_spec mx lx ex (fexp prec emax (Zdigits2 mx + ex) - ex) Hmx) as S1.
  destruct (shr (shr_record_of_loc mx lx) ex _) as [mrs' e'].
  pose proof (round_nearest_even_bounds (shr_m mrs') (loc_of_shr_record mrs')) as Hr.
  set (m1 := round_nearest_even (shr_m mrs') (loc_of_shr_record mrs')) in *.
  set (n := (fexp prec emax (Zdigits2 mx + ex) - ex)%Z) in *.
  assert (Hpow : (0 < 2 ^ n)%Z) by (apply Z.pow_pos_nonneg; lia).
  (* both cases of the first shift, as one *)
  assert (S1' : e' = (ex + n)%Z /\ shr_m mrs' = (mx / 2 ^ n)%Z
                /\ (loc_of_shr_record mrs' = loc_Exact <->
                    lx = loc_Exact /\ (mx mod 2 ^ n = 0)%Z)).
  { destruct S1 as [(Hn & -> & Hq & Hl)|(Hn & -> & Hq & Hl)]; [tauto|].
    assert (Hn0 : n = 0%Z) by lia. rewrite Hn0, Z.pow_0_r, Z.div_1_r, Z.mod_1_r.
    split; [lia|]. split; [exact Hq|]. rewrite Hl. tauto. }
  clear S1. destruct S1' as (He' & Hq & Hloc).
  set (q := shr_m mrs') in *.
  assert (Hq0 : (0 <= q)%Z) by (rewrite Hq; apply Z.div_pos; lia).
  assert (Hqle : (F2R q e' <= F2R mx ex)%R).
  { rewrite Hq, He'. apply F2R_floor_le; lia. }
  assert (Hup : (F2R mx ex <= F2R (round_up mx lx) ex)%R).
  { apply F2R_le. destruct lx; simpl; lia. }
  assert (Hfull : (-1074 < e' -> 2 ^ 52 <= q)%Z).
  { intros He. destruct (Z.eq_dec mx 0) as [Hz|Hnz].
    - exfalso. subst mx. simpl Zdigits2 in *. subst n. unfold_fexp. lia.
    - rewrite Hq. replace n with (fexp prec emax (Zdigits2 mx + ex) - ex)%Z by reflexivity.
      apply floor_canonical; lia. }
  assert (H1 : (F2R m1 e' <= F2R (Zpos mf) ef)%R).
  { destruct (loc_of_shr_record mrs') as [|cl] eqn:Hl'.
    - simpl round_up in Hr. replace m1 with q by lia. lra.
    - simpl round_up in Hr.
      apply Rle_trans with (F2R (q + 1) e'); [apply F2R_le; lia|].
      apply no_float_between; try assumption.
      assert (Hstrict : (F2R q e' < F2R (round_up mx lx) ex)%R).
      { destruct lx as [|c'].
        - assert (Hmod : (mx mod 2 ^ n <> 0)%Z).
          { intros Hmod. assert (loc_Inexact cl = loc_Exact) as Habs by (apply Hloc; auto).
            discriminate Habs. }
          simpl round_up. rewrite Hq, He'.
          rewrite (F2R_shift (mx / 2 ^ n) (ex + n) ex) by lia.
          replace (ex + n - ex)%Z with n by lia.
          apply F2R_lt.
          pose proof (Z.div_mod mx (2 ^ n) ltac:(lia)).
          pose proof (Z.mod_pos_bound mx (2 ^ n) Hpow). lia.
        - simpl round_up.
          apply Rle_lt_trans with (F2R mx ex); [exact Hqle|]. apply F2R_lt. lia. }
      lra. }
  assert (Hm1 : (0 <= m1)%Z) by lia.
  assert (Hcan1 : (0 < m1 -> e' <= fexp prec emax (Zdigits2 m1 + e'))%Z).
  { intros Hpos.
    destruct (Z.le_gt_cases e' (-1074)) as [Hlow|Hhigh].
    - unfold_fexp. lia.
    - specialize (Hfull Hhigh).
      assert (52 + 1 <= Zdigits2 m1)%Z by (apply Zdigits2_ge; lia).
      unfold_fexp. lia. }
  pose proof (shr_spec m1 loc_Exact e' (fexp prec emax (Zdigits2 m1 + e') - e') Hm1) as S2.
  destruct (shr (shr_record_of_loc m1 loc_Exact) e' _) as [mrs'' e''].
  set (n2 := (fexp prec emax (Zdigits2 m1 + e') - e')%Z) in *.
  assert (S2' : (0 <= n2 \/ m1 = 0)%Z /\ (0 < m1 -> e'' = e' + n2)%Z
                /\ (0 <= shr_m mrs'' <= m1)%Z
                /\ (F2R (shr_m mrs'') e'' <= F2R m1 e')%R).
  { destruct S2 as [(Hn & -> & -> & _)|(Hn & -> & -> & _)].
    - assert (0 < 2 ^ n2)%Z by (apply Z.pow_pos_nonneg; lia).
      split; [lia|]. split; [lia|]. split.
      + split; [apply Z.div_pos; lia|].
        apply Z.div_le_upper_bound; [lia|]. nia.
      + apply F2R_floor_le; lia.
    - split; [lia|]. split; [lia|]. split; [lia|]. lra. }
  clear S2. destruct S2' as (Hn2 & He'' & Hm'' & Hle2).
  destruct (shr_m mrs'') as [|p|p]; cbn [SF_mag_le]; try lra; try lia.
  assert (He''le : (e'' <= emax - prec)%Z).
  { assert (Hpos1 : (0 < m1)%Z) by lia.
    specialize (He'' Hpos1). 
    destruct (Z.le_gt_cases e'' (emax - prec)) as [|Hbig]; [assumption|exfalso].
    destruct (Zdigits2_bounds m1 Hpos1) as [Hd _].
    pose proof (Zdigits2_pos m1 Hpos1) as Hdp.
    assert (Hge : (pow2 (Zdigits2 m1 - 1 + e') <= F2R m1 e')%R)
      by (apply F2R_ge_pow2; lia).
    assert (Hp : (pow2 1024 <= pow2 (Zdigits2 m1 - 1 + e'))%R).
    { apply pow2_le. subst n2. unfold_fexp. lia. }
    pose proof (bounded_lt_overflow _ _ Hbnd). lra. }
  apply Z.leb_le in He''le. rewrite He''le. cbn [SF_mag_le]. lra.
Qed.

(** ** The comparisons are the order of the real values *)

Lemma canonical_exponent_lt (m1 m2 : positive) (e1 e2 : Z) :
  canonical_mantissa prec emax m1 e1 = true ->
  canonical_mantissa prec emax m2 e2 = true ->
  (e1 < e2)%Z -> (F2R (Zpos m1) e1 < F2R (Zpos m2) e2)%R.
Proof.
  intros H1 H2 Hlt. apply Z.eqb_eq in H1, H2.
  pose proof (digits2_pos_bounds m1) as [_ Hu].
  pose proof (digits2_pos_bounds m2) as [Hl _].
  unfold_fexp.
  assert (Hd2 : Zpos (digits2_pos m2) = 53%Z) by lia.
  rewrite Hd2 in Hl.
  assert (Ha : (F2R (Zpos m1) e1 < pow2 (Zpos (digits2_pos m1) + e1))%R)
    by (apply F2R_lt_pow2; lia).
  assert (Hb : (pow2 (Zpos (digits2_pos m1) + e1) <= pow2 (52 + e2))%R)
    by (apply pow2_le; lia).
  assert (Hc : (pow2 (52 + e2) <= F2R (Zpos m2) e2)%R)
    by (apply F2R_ge_pow2; [lia|exact Hl]).
  lra.
Qed.

Lemma cmp_R_opp (c : comparison) (x y : R) :
  cmp_R c x y -> cmp_R (CompOpp c) (- x) (- y).
Proof. destruct c; simpl; intros; lra. Qed.

Lemma compare_canonical (m1 m2 : positive) (e1 e2 : Z) :
  canonical_mantissa prec emax m1 e1 = true ->
  canonical_mantissa prec emax m2 e2 = true ->
  cmp_R (match (e1 ?= e2)%Z with
         | Lt => Lt
         | Gt => Gt
         | Eq => Pos.compare m1 m2
         end) (F2R (Zpos m1) e1) (F2R (Zpos m2) e2).
Proof.
  intros H1 H2. destruct (Z.compare_spec e1 e2) as [He|He|He].
  - subst e2. destruct (Pos.compare_spec m1 m2) as [Hm|Hm|Hm]; simpl.
    + subst. reflexivity.
    + apply F2R_lt. lia.
    + apply F2R_lt. lia.
  - simpl. apply canonical_exponent_lt; assumption.
  - simpl. apply canonical_exponent_lt; assumption.
Qed.

Lemma valid_canonical (s : bool) (m : positive) (e : Z) :
  valid_binary (S754_finite s m e) = true ->
  canonical_mantissa prec emax m e = true.
Proof. simpl. apply bounded_canonical. Qed.

Lemma SFcompare_spec (x y : spec_float) :
  valid_binary x = true -> valid_binary y = true ->
  SF_finite x = true -> SF_finite y = true ->
  exists c, SFcompare x y = Some c /\ cmp_R c (SF2R x) (SF2R y).
Proof.
  intros Vx Vy Fx Fy.
  destruct x as [sx|sx| |sx mx ex]; try discriminate;
  destruct y as [sy|sy| |sy my ey]; try discriminate; simpl SFcompare; simpl SF2R.
  - exists Eq. split; reflexivity.
  - pose proof (F2R_pos (Zpos my) ey ltac:(lia)).
    destruct sy; eexists; (split; [reflexivity|]); simpl; lra.
  - pose proof (F2R_pos (Zpos mx) ex ltac:(lia)).
    destruct sx; eexists; (split; [reflexivity|]); simpl; lra.
  - pose proof (F2R_pos (Zpos mx) ex ltac:(lia)).
    pose proof (F2R_pos (Zpos my) ey ltac:(lia)).
    pose proof (compare_canonical mx my ex ey (valid_canonical _ _ _ Vx)
                  (valid_canonical _ _ _ Vy)) as Hc.
    to_pos_compare.
    destruct sx, sy.
    + eexists. split; [reflexivity|].
      replace (match (ex ?= ey)%Z with
               | Eq => CompOpp (mx ?= my)%positive
               | Lt => Gt
               | Gt => Lt
               end)
        with (CompOpp (match (ex ?= ey)%Z with
                       | Eq => (mx ?= my)%positive
                       | Lt => Lt
                       | Gt => Gt
                       end)) by (destruct (ex ?= ey)%Z; reflexivity).
      apply cmp_R_opp. exact Hc.
    + eexists. split; [reflexivity|]. simpl. lra.
    + eexists. split; [reflexivity|]. simpl. lra.
    + eexists. split; [reflexivity|]. exact Hc.
Qed.

Lemma SFleb_spec (x y : spec_float) :
  valid_binary x = true -> valid_binary y = true ->
  SF_finite x = true -> SF_finite y = true ->
  (SFleb x y = true <-> (SF2R x <= SF2R y)%R).
Proof.
  intros Vx Vy Fx Fy.
  destruct (SFcompare_spec x y Vx Vy Fx Fy) as (c & Hc & HR).
  unfold SFleb. rewrite Hc. destruct c; simpl in HR; split; intros; try reflexivity;
    try lra; try discriminate.
Qed.

Lemma SFltb_spec (x y : spec_float) :
  valid_binary x = true -> valid_binary y = true ->
  SF_finite x = true -> SF_finite y = true ->
  (SFltb x y = true <-> (SF2R x < SF2R y)%R).
Proof.
  intros Vx Vy Fx Fy.
  destruct (SFcompare_spec x y Vx Vy Fx Fy) as (c & Hc & HR).
  unfold SFltb. rewrite Hc. destruct c; simpl in HR; split; intros; try reflexivity;
    try lra; try discriminate.
Qed.

(** ** The sign of a rounded result *)

Lemma binary_round_aux_signed (s : bool) (m e : Z) (l : location) :
  (0 <= m)%Z -> SF_signed s (binary_round_aux prec emax s m e l).
Proof.
  intros Hm.
  unfold binary_round_aux.
  assert (H1 : (0 <= shr_m (fst (shr_fexp prec emax m e l)))%Z).
  { unfold shr_fexp.
    pose proof (shr_spec m l e (fexp prec emax (Zdigits2 m + e) - e) Hm) as S1.
    destruct (shr _ _ _) as [mrs e']. simpl.
    destruct S1 as [(Hn & _ & -> & _)|(_ & _ & -> & _)]; [|exact Hm].
    apply Z.div_pos; [lia|apply Z.pow_pos_nonneg; lia]. }
  destruct (shr_fexp prec emax m e l) as [mrs' e']. simpl in H1.
  pose proof (round_nearest_even_bounds (shr_m mrs') (loc_of_shr_record mrs')) as Hr.
  set (m1 := round_nearest_even _ _) in *.
  assert (Hm1 : (0 <= m1)%Z) by lia.
  unfold shr_fexp.
  pose proof (shr_spec m1 loc_Exact e' (fexp prec emax (Zdigits2 m1 + e') - e') Hm1) as S2.
  destruct (shr _ _ _) as [mrs'' e''].
  assert (H2 : (0 <= shr_m mrs'')%Z).
  { destruct S2 as [(Hn & _ & -> & _)|(_ & _ & -> & _)]; [|exact Hm1].
    apply Z.div_pos; [lia|apply Z.pow_pos_nonneg; lia]. }
  destruct (shr_m mrs'') as [|p|p]; try lia; [reflexivity|].
  destruct (e'' <=? emax - prec)%Z; reflexivity.
Qed.

(** ** Alignment to the canonical exponent *)

Lemma iter_xO_spec (m d : positive) :
  Zpos (Pos.iter xO m d) = (Zpos m * 2 ^ Zpos d)%Z
  /\ digits2_pos (Pos.iter xO m d) = (digits2_pos m + d)%positive.
Proof.
  induction d as [|d IH] using Pos.peano_ind.
  - simpl. split; [lia|]. lia.
  - rewrite Pos.iter_succ. destruct IH as [IH1 IH2]. split.
    + rewrite Pos2Z.inj_xO, IH1, Pos2Z.inj_succ, Z.pow_succ_r by lia. lia.
    + simpl digits2_pos. rewrite IH2. lia.
Qed.

Lemma shl_align_spec (m : positive) (e : Z) :
  let '(mz, ez) := shl_align m e (fexp prec emax (Zpos (digits2_pos m) + e)) in
  F2R (Zpos mz) ez = F2R (Zpos m) e
  /\ (ez <= fexp prec emax (Zdigits2 (Zpos mz) + ez))%Z.
Proof.
  unfold shl_align.
  destruct (fexp prec emax (Zpos (digits2_pos m) + e) - e)%Z as [|d|d] eqn:Hd.
  - split; [reflexivity|]. simpl Zdigits2. lia.
  - split; [reflexivity|]. simpl Zdigits2. lia.
  - destruct (iter_xO_spec m d) as [Hv Hdig]. split.
    + rewrite Hv.
      rewrite (F2R_shift (Zpos m) e (fexp prec emax (Zpos (digits2_pos m) + e))) by lia.
      f_equal. f_equal. f_equal. lia.
    + simpl Zdigits2. rewrite Hdig, Pos2Z.inj_add.
      replace (Zpos (digits2_pos m) + Zpos d
               + fexp prec emax (Zpos (digits2_pos m) + e))%Z
        with (Zpos (digits2_pos m) + e)%Z by lia.
      lia.
Qed.

Lemma SF2R_finite_pos (m : positive) (e : Z) :
  (0 < SF2R (S754_finite false m e))%R.
Proof. simpl. apply F2R_pos. lia. Qed.

Lemma SF2R_finite_neg (m : positive) (e : Z) :
  (SF2R (S754_finite true m e) < 0)%R.
Proof. simpl. pose proof (F2R_pos (Zpos m) e ltac:(lia)). lra. Qed.

(** ** Rounding an exact value is monotone against binary64 bounds *)

Lemma binary_round_upper (s : bool) (m : positive) (e : Z) (f : spec_float) :
  valid_binary f = true -> SF_finite f = true ->
  ((if s then - F2R (Zpos m) e else F2R (Zpos m) e) <= SF2R f)%R ->
  SF_le_R (binary_round prec emax s m e) (SF2R f).
Proof.
  intros Vf Ff Hle. unfold binary_round.
  pose proof (shl_align_spec m e) as Hal.
  destruct (shl_align m e _) as [mz ez]. destruct Hal as [Hv Hpre].
  rewrite <- Hv in Hle.
  pose proof (binary_round_aux_signed s (Zpos mz) ez loc_Exact ltac:(lia)) as Hs.
  pose proof (F2R_pos (Zpos mz) ez ltac:(lia)) as Hpos.
  destruct s.
  - (* a negative value *)
    destruct f as [sf|sf| |[|] mf ef]; try discriminate.
    + (* f = 0 *)
      destruct (binary_round_aux _ _ _ _ _ _) as [s'|s'| |s' m' e'];
        simpl in Hs |- *; subst; try lra; try reflexivity; try contradiction.
      pose proof (F2R_pos (Zpos m') e' ltac:(lia)). lra.
    + (* f < 0 *)
      simpl SF2R in Hle.
      pose proof (binary_round_aux_lower true (Zpos mz) ez loc_Exact mf ef
                    ltac:(lia) (valid_canonical _ _ _ Vf) ltac:(lra)) as Hlow.
      pose proof (F2R_pos (Zpos mf) ef ltac:(lia)).
      destruct (binary_round_aux _ _ _ _ _ _) as [s'|s'| |s' m' e'];
        simpl in Hs, Hlow |- *; subst; try lra; try reflexivity; try contradiction.
    + (* f > 0 *)
      pose proof (F2R_pos (Zpos mf) ef ltac:(lia)).
      destruct (binary_round_aux _ _ _ _ _ _) as [s'|s'| |s' m' e'];
        simpl in Hs |- *; subst; try lra; try reflexivity; try contradiction.
      pose proof (F2R_pos (Zpos m') e' ltac:(lia)). lra.
  - (* a positive value: f is positive too *)
    destruct f as [sf|sf| |[|] mf ef]; try discriminate; simpl SF2R in Hle;
      try (pose proof (F2R_pos (Zpos mf) ef ltac:(lia))); try lra.
    pose proof (binary_round_aux_upper false (Zpos mz) ez loc_Exact mf ef
                  ltac:(lia) Hpre Vf Hle) as Hup.
    destruct (binary_round_aux _ _ _ _ _ _) as [s'|s'| |s' m' e'];
      simpl in Hs, Hup |- *; subst; try lra; try reflexivity; try contradiction.
Qed.

Lemma binary_round_lower (s : bool) (m : positive) (e : Z) (f : spec_float) :
  valid_binary f = true -> SF_finite f = true ->
  (SF2R f <= (if s then - F2R (Zpos m) e else F2R (Zpos m) e))%R ->
  SF_ge_R (binary_round prec emax s m e) (SF2R f).
Proof.
  intros Vf Ff Hle. unfold binary_round.
  pose proof (shl_align_spec m e) as Hal.
  destruct (shl_align m e _) as [mz ez]. destruct Hal as [Hv Hpre].
  rewrite <- Hv in Hle.
  pose proof (binary_round_aux_signed s (Zpos mz) ez loc_Exact ltac:(lia)) as Hs.
  pose proof (F2R_pos (Zpos mz) ez ltac:(lia)) as Hpos.
  destruct s.
  - (* a negative value: f is negative too *)
    destruct f as [sf|sf| |[|] mf ef]; try discriminate; simpl SF2R in Hle;
      try (pose proof (F2R_pos (Zpos mf) ef ltac:(lia))); try lra.
    pose proof (binary_round_aux_upper true (Zpos mz) ez loc_Exact mf ef
                  ltac:(lia) Hpre Vf ltac:(simpl; lra)) as Hup.
    destruct (binary_round_aux _ _ _ _ _ _) as [s'|s'| |s' m' e'];
      simpl in Hs, Hup |- *; subst; try lra; try reflexivity; try contradiction.
  - (* a positive value *)
    destruct f as [sf|sf| |[|] mf ef]; try discriminate.
    + destruct (binary_round_aux _ _ _ _ _ _) as [s'|s'| |s' m' e'];
        simpl in Hs |- *; subst; try lra; try reflexivity; try contradiction.
      pose proof (F2R_pos (Zpos m') e' ltac:(lia)). lra.
    + pose proof (F2R_pos (Zpos mf) ef ltac:(lia)).
      destruct (binary_round_aux _ _ _ _ _ _) as [s'|s'| |s' m' e'];
        simpl in Hs |- *; subst; try lra; try reflexivity; try contradiction.
      pose proof (F2R_pos (Zpos m') e' ltac:(lia)). lra.
    + simpl SF2R in Hle.
      pose proof (binary_round_aux_lower false (Zpos mz) ez loc_Exact mf ef
                    ltac:(lia) (valid_canonical _ _ _ Vf) Hle) as Hlow.
      pose proof (F2R_pos (Zpos mf) ef ltac:(lia)).
      destruct (binary_round_aux _ _ _ _ _ _) as [s'|s'| |s' m' e'];
        simpl in Hs, Hlow |- *; subst; try lra; try reflexivity; try contradiction.
Qed.

Lemma F2R_opp (m e : Z) : F2R (- m) e = (- F2R m e)%R.
Proof. unfold F2R. rewrite opp_IZR. ring. Qed.

Lemma binary_normalize_upper (z e : Z) (sz : bool) (f : spec_float) :
  valid_binary f = true -> SF_finite f = true ->
  (F2R z e <= SF2R f)%R ->
  SF_le_R (binary_normalize prec emax z e sz) (SF2R f).
Proof.
  intros Vf Ff Hle. destruct z as [|p|p]; simpl binary_normalize.
  - rewrite F2R_0 in Hle. exact Hle.
  - apply binary_round_upper; assumption.
  - apply binary_round_upper; try assumption.
    change (Zneg p) with (- Zpos p)%Z in Hle. rewrite F2R_opp in Hle. exact Hle.
Qed.

Lemma binary_normalize_lower (z e : Z) (sz : bool) (f : spec_float) :
  valid_binary f = true -> SF_finite f = true ->
  (SF2R f <= F2R z e)%R ->
  SF_ge_R (binary_normalize prec emax z e sz) (SF2R f).
Proof.
  intros Vf Ff Hle. destruct z as [|p|p]; simpl binary_normalize.
  - rewrite F2R_0 in Hle. exact Hle.
  - apply binary_round_lower; assumption.
  - apply binary_round_lower; try assumption.
    change (Zneg p) with (- Zpos p)%Z in Hle. rewrite F2R_opp in Hle. exact Hle.
Qed.

(** ** Sums and differences *)

Lemma shl_align_value (m : positive) (e e' : Z) :
  (e' <= e)%Z -> F2R (Zpos (fst (shl_align m e e'))) e' = F2R (Zpos m) e.
Proof.
  intros He. unfold shl_align.
  destruct (e' - e)%Z as [|d|d] eqn:Hd; try lia; cbn [fst].
  - replace e' with e by lia. reflexivity.
  - destruct (iter_xO_spec m d) as [Hv _]. rewrite Hv.
    rewrite (F2R_shift (Zpos m) e e' He). f_equal. f_equal. f_equal. lia.
Qed.

Lemma F2R_cond_Zopp (s : bool) (m : positive) (e : Z) :
  F2R (cond_Zopp s (Zpos m)) e = SF2R (S754_finite s m e).
Proof.
  destruct s; simpl; [|reflexivity].
  change (Zneg m) with (- Zpos m)%Z. apply F2R_opp.
Qed.

Lemma F2R_plus (a b e : Z) : F2R (a + b) e = (F2R a e + F2R b e)%R.
Proof. unfold F2R. rewrite plus_IZR. ring. Qed.

Lemma F2R_minus (a b e : Z) : F2R (a - b) e = (F2R a e - F2R b e)%R.
Proof. unfold F2R. rewrite minus_IZR. ring. Qed.

(** The integer sum that [SFadd] and [SFsub] round is the exact one. *)
Lemma aligned_value (s : bool) (m : positive) (e ez : Z) :
  (ez <= e)%Z ->
  F2R (cond_Zopp s (Zpos (fst (shl_align m e ez)))) ez = SF2R (S754_finite s m e).
Proof.
  intros He. rewrite F2R_cond_Zopp. simpl.
  rewrite (shl_align_value m e ez He). reflexivity.
Qed.

Lemma SFadd_upper (x y f : spec_float) :
  SF_finite x = true -> SF_finite y = true ->
  valid_binary f = true -> SF_finite f = true ->
  (SF2R x + SF2R y <= SF2R f)%R ->
  SF_le_R (SFadd prec emax x y) (SF2R f).
Proof.
  intros Fx Fy Vf Ff Hle.
  destruct x as [sx|sx| |sx mx ex]; try discriminate;
  destruct y as [sy|sy| |sy my ey]; try discriminate.
  - destruct sx, sy; simpl in *; lra.
  - simpl SFadd. simpl in Hle |- *. lra.
  - simpl SFadd. simpl in Hle |- *. lra.
  - simpl SFadd. apply binary_normalize_upper; try assumption.
    rewrite F2R_plus, !aligned_value by lia. exact Hle.
Qed.

Lemma SFadd_lower (x y f : spec_float) :
  SF_finite x = true -> SF_finite y = true ->
  valid_binary f = true -> SF_finite f = true ->
  (SF2R f <= SF2R x + SF2R y)%R ->
  SF_ge_R (SFadd prec emax x y) (SF2R f).
Proof.
  intros Fx Fy Vf Ff Hle.
  destruct x as [sx|sx| |sx mx ex]; try discriminate;
  destruct y as [sy|sy| |sy my ey]; try discriminate.
  - destruct sx, sy; simpl in *; lra.
  - simpl SFadd. simpl in Hle |- *. lra.
  - simpl SFadd. simpl in Hle |- *. lra.
  - simpl SFadd. apply binary_normalize_lower; try assumption.
    rewrite F2R_plus, !aligned_value by lia. exact Hle.
Qed.

Lemma SFsub_upper (x y f : spec_float) :
  SF_finite x = true -> SF_finite y = true ->
  valid_binary f = true -> SF_finite f = true ->
  (SF2R x - SF2R y <= SF2R f)%R ->
  SF_le_R (SFsub prec emax x y) (SF2R f).
Proof.
  intros Fx Fy Vf Ff Hle.
  destruct x as [sx|sx| |sx mx ex]; try discriminate;
  destruct y as [sy|sy| |sy my ey]; try discriminate.
  - destruct sx, sy; simpl in *; lra.
  - simpl SFsub. destruct sy; simpl in Hle |- *; lra.
  - simpl SFsub. simpl in Hle |- *. lra.
  - simpl SFsub. apply binary_normalize_upper; try assumption.
    rewrite F2R_minus, !aligned_value by lia. exact Hle.
Qed.

Lemma SFsub_lower (x y f : spec_float) :
  SF_finite x = true -> SF_finite y = true ->
  valid_binary f = true -> SF_finite f = true ->
  (SF2R f <= SF2R x - SF2R y)%R ->
  SF_ge_R (SFsub prec emax x y) (SF2R f).
Proof.
  intros Fx Fy Vf Ff Hle.
  destruct x as [sx|sx| |sx mx ex]; try discriminate;
  destruct y as [sy|sy| |sy my ey]; try discriminate.
  - destruct sx, sy; simpl in *; lra.
  - simpl SFsub. destruct sy; simpl in Hle |- *; lra.
  - simpl SFsub. simpl in Hle |- *. lra.
  - simpl SFsub. apply binary_normalize_lower; try assumption.
    rewrite F2R_minus, !aligned_value by lia. exact Hle.
Qed.

(** From the bounds to the comparisons *)
Lemma SFleb_of_le_R (o f : spec_float) :
  valid_binary o = true -> valid_binary f = true -> SF_finite f = true ->
  SF_le_R o (SF2R f) -> SFleb o f = true.
Proof.
  intros Vo Vf Ff Hle.
  destruct o as [so|so| |so mo eo]; simpl in Hle; try contradiction.
  - apply SFleb_spec; auto.
  - subst so. destruct f; try discriminate; reflexivity.
  - apply SFleb_spec; auto.
Qed.

Lemma SFleb_of_ge_R (o f : spec_float) :
  valid_binary o = true -> valid_binary f = true -> SF_finite f = true ->
  SF_ge_R o (SF2R f) -> SFleb f o = true.
Proof.
  intros Vo Vf Ff Hle.
  destruct o as [so|so| |so mo eo]; simpl in Hle; try contradiction.
  - apply SFleb_spec; auto.
  - subst so. destruct f; try discriminate; reflexivity.
  - apply SFleb_spec; auto.
Qed.

(** ** Products and quotients *)

Lemma F2R_mult (m1 m2 e1 e2 : Z) :
  F2R (m1 * m2) (e1 + e2) = (F2R m1 e1 * F2R m2 e2)%R.
Proof. unfold F2R. rewrite mult_IZR, pow2_add. ring. Qed.

Lemma canonical_full (m : positive) (e : Z) :
  canonical_mantissa prec emax m e = true ->
  (-1074 < e)%Z -> (2 ^ 52 <= Zpos m)%Z.
Proof.
  intros Hcan He. apply Z.eqb_eq in Hcan.
  pose proof (digits2_pos_bounds m) as [Hl _]. unfold_fexp.
  replace (Zpos (digits2_pos m) - 1)%Z with 52%Z in Hl by lia. exact Hl.
Qed.

Lemma canonical_exponent_ge (m : positive) (e : Z) :
  canonical_mantissa prec emax m e = true -> (-1074 <= e)%Z.
Proof. intros Hcan. apply Z.eqb_eq in Hcan. unfold_fexp. lia. Qed.

Lemma SFmul_pos_lower (mx my mf : positive) (ex ey ef : Z) :
  valid_binary (S754_finite false mf ef) = true ->
  (F2R (Zpos mf) ef <= F2R (Zpos mx) ex * F2R (Zpos my) ey)%R ->
  SF_ge_R (SFmul prec emax (S754_finite false mx ex) (S754_finite false my ey))
    (F2R (Zpos mf) ef).
Proof.
  intros Vf Hle. simpl SFmul.
  rewrite <- F2R_mult in Hle. change (Zpos mx * Zpos my)%Z with (Zpos (mx * my)) in Hle.
  pose proof (binary_round_aux_signed false (Zpos (mx * my)) (ex + ey) loc_Exact
                ltac:(lia)) as Hs.
  pose proof (binary_round_aux_lower false (Zpos (mx * my)) (ex + ey) loc_Exact mf ef
                ltac:(lia) (valid_canonical _ _ _ Vf) Hle) as Hlow.
  pose proof (F2R_pos (Zpos mf) ef ltac:(lia)).
  destruct (binary_round_aux _ _ _ _ _ _) as [s'|s'| |s' m' e'];
    simpl in Hs, Hlow |- *; subst; try lra; try reflexivity; try contradiction.
Qed.

Lemma SFmul_pos_upper (mx my mf : positive) (ex ey ef : Z) :
  valid_binary (S754_finite false mx ex) = true ->
  valid_binary (S754_finite false my ey) = true ->
  valid_binary (S754_finite false mf ef) = true ->
  (F2R (Zpos mx) ex * F2R (Zpos my) ey <= F2R (Zpos mf) ef)%R ->
  SF_le_R (SFmul prec emax (S754_finite false mx ex) (S754_finite false my ey))
    (F2R (Zpos mf) ef).
Proof.
  intros Vx Vy Vf Hle. simpl SFmul.
  rewrite <- F2R_mult in Hle. change (Zpos mx * Zpos my)%Z with (Zpos (mx * my)) in Hle.
  pose proof (binary_round_aux_signed false (Zpos (mx * my)) (ex + ey) loc_Exact
                ltac:(lia)) as Hs.
  assert (Hpre : (ex + ey <= fexp prec emax (Zdigits2 (Zpos (mx * my)) + (ex + ey)))%Z).
  { pose proof (valid_canonical _ _ _ Vx) as Cx.
    pose proof (valid_canonical _ _ _ Vy) as Cy.
    pose proof (canonical_exponent_ge _ _ Cx).
    pose proof (canonical_exponent_ge _ _ Cy).
    destruct (Z.le_gt_cases (ex + ey) (-1074)) as [Hlow|Hhigh].
    - unfold_fexp. lia.
    - assert (Hbig : (2 ^ 52 <= Zpos (mx * my))%Z).
      { rewrite Pos2Z.inj_mul.
        destruct (Z.le_gt_cases ex (-1074)).
        - pose proof (canonical_full _ _ Cy ltac:(lia)). nia.
        - pose proof (canonical_full _ _ Cx ltac:(lia)). nia. }
      pose proof (Zdigits2_ge (Zpos (mx * my)) 52 ltac:(lia) Hbig).
      unfold_fexp. lia. }
  pose proof (binary_round_aux_upper false (Zpos (mx * my)) (ex + ey) loc_Exact mf ef
                ltac:(lia) Hpre Vf Hle) as Hup.
  destruct (binary_round_aux _ _ _ _ _ _) as [s'|s'| |s' m' e'];
    simpl in Hs, Hup |- *; subst; try lra; try reflexivity; try contradiction.
Qed.

(** ** Division of a smaller number by a larger one *)

Lemma new_location_round_up (nb k q : Z) :
  round_up q (new_location nb k) = if (k =? 0)%Z then q else (q + 1)%Z.
Proof.
  unfold new_location, new_location_even, new_location_odd.
  destruct (Z.even nb); destruct (k =? 0)%Z; reflexivity.
Qed.

Lemma shift_case (m s : Z) :
  (0 <= s)%Z ->
  match s with
  | Zpos _ => Z.shiftl m s
  | Z0 => m
  | Zneg _ => 0%Z
  end = (m * 2 ^ s)%Z.
Proof.
  intros Hs. destruct s as [|p|p]; try lia.
  apply Z.shiftl_mul_pow2. lia.
Qed.

Lemma SFdiv_core_binary_spec (mx my : positive) (ex ey : Z) :
  let '(q, e', l) := SFdiv_core_binary prec emax (Zpos mx) ex (Zpos my) ey in
  exists r,
    e' = Z.min (fexp prec emax (Zpos (digits2_pos mx) + ex
                                - (Zpos (digits2_pos my) + ey))) (ex - ey)
    /\ (Zpos mx * 2 ^ (ex - ey - e') = Zpos my * q + r)%Z
    /\ (0 <= r < Zpos my)%Z
    /\ (0 <= q)%Z
    /\ round_up q l = if (r =? 0)%Z then q else (q + 1)%Z.
Proof.
  unfold SFdiv_core_binary. simpl Zdigits2.
  set (e' := Z.min _ (ex - ey)).
  set (s := (ex - ey - e')%Z).
  assert (Hs : (0 <= s)%Z) by (subst s e'; lia).
  set (m' := match s with
             | Zpos _ => Z.shiftl (Zpos mx) s
             | Z0 => Zpos mx
             | Zneg _ => 0%Z
             end).
  assert (Hm' : m' = (Zpos mx * 2 ^ s)%Z) by (apply shift_case; exact Hs).
  pose proof (Z_div_mod m' (Zpos my) ltac:(lia)) as Hdm.
  destruct (Z.div_eucl m' (Zpos my)) as [q r]. destruct Hdm as [Hdm Hr].
  exists r. split; [reflexivity|].
  split; [exact (eq_trans (eq_sym Hm') Hdm)|]. split; [lia|]. split.
  - assert (0 <= m')%Z by (rewrite Hm'; apply Z.mul_nonneg_nonneg;
                           [lia|apply Z.pow_nonneg; lia]).
    destruct (Z.lt_ge_cases q 0) as [Hneg|]; [|assumption]. nia.
  - apply new_location_round_up.
Qed.

Lemma SFdiv_unit (mx my : positive) (ex ey : Z) :
  (F2R (Zpos mx) ex <= F2R (Zpos my) ey)%R ->
  let o := SFdiv prec emax (S754_finite false mx ex) (S754_finite false my ey) in
  SF_le_R o 1 /\ SF_ge_R o 0.
Proof.
  intros Hle o. subst o. simpl SFdiv.
  pose proof (SFdiv_core_binary_spec mx my ex ey) as Hcore.
  destruct (SFdiv_core_binary prec emax (Zpos mx) ex (Zpos my) ey) as [[q e'] l].
  destruct Hcore as (r & He' & Hdiv & Hr & Hq & Hup).
  pose proof (digits2_pos_bounds mx) as [Hlx Hux].
  pose proof (digits2_pos_bounds my) as [Hly Huy].
  set (dx := Zpos (digits2_pos mx)) in *. set (dy := Zpos (digits2_pos my)) in *.
  (* the quotient is below 1, so its exponent is negative *)
  assert (HD0 : (dx + ex - (dy + ey) <= 0)%Z).
  { assert (Ha : (pow2 (dx - 1 + ex) <= F2R (Zpos mx) ex)%R)
      by (apply F2R_ge_pow2; lia).
    assert (Hb : (F2R (Zpos my) ey < pow2 (dy + ey))%R)
      by (apply F2R_lt_pow2; lia).
    destruct (Z.le_gt_cases (dx + ex - (dy + ey)) 0) as [|Hgt]; [assumption|exfalso].
    assert (Hc : (pow2 (dy + ey) <= pow2 (dx - 1 + ex))%R) by (apply pow2_le; lia).
    lra. }
  assert (He'neg : (e' <= -53)%Z) by (rewrite He'; unfold_fexp; lia).
  set (s := (ex - ey - e')%Z) in *.
  assert (Hs : (0 <= s)%Z) by (subst s; rewrite He'; lia).
  (* the precondition of the upper bound *)
  assert (Hpre : (e' <= fexp prec emax (Zdigits2 q + e'))%Z).
  { destruct (Z.le_gt_cases e' (-1074)) as [Hlow|Hhigh]; [unfold_fexp; lia|].
    assert (Hk : (52 <= dx - 1 + s - dy)%Z) by (subst s; rewrite He' in *; unfold_fexp; lia).
    assert (Hq52 : (2 ^ 52 <= q)%Z).
    { assert (Hp : (2 ^ (dx - 1 + s) <= Zpos mx * 2 ^ s)%Z).
      { rewrite Z.pow_add_r by lia.
        apply Z.mul_le_mono_nonneg_r; [apply Z.pow_nonneg; lia|exact Hlx]. }
      assert (Hsplit : (2 ^ (dx - 1 + s) = 2 ^ (dx - 1 + s - dy) * 2 ^ dy)%Z).
      { rewrite <- Z.pow_add_r by lia. f_equal. lia. }
      assert (Hmono : (2 ^ 52 <= 2 ^ (dx - 1 + s - dy))%Z)
        by (apply Z.pow_le_mono_r; lia).
      assert (Hqq : (2 ^ (dx - 1 + s - dy) * Zpos my < (q + 1) * Zpos my)%Z).
      { assert (2 ^ (dx - 1 + s - dy) * Zpos my <= 2 ^ (dx - 1 + s - dy) * 2 ^ dy)%Z
          by (apply Z.mul_le_mono_nonneg_l; lia).
        lia. }
      apply Z.mul_lt_mono_pos_r in Hqq; lia. }
    pose proof (Zdigits2_ge q 52 ltac:(lia) Hq52). unfold_fexp. lia. }
  (* the value rounded is at most 1 *)
  assert (Hone : (F2R (round_up q l) e' <= F2R (Zpos (2 ^ 52)) (-52))%R).
  { assert (H1 : F2R (Zpos (2 ^ 52)) (-52) = 1%R).
    { unfold F2R. change (Zpos (2 ^ 52)) with (2 ^ 52)%Z.
      rewrite <- (pow2_IZR 52) by lia. rewrite <- pow2_add. reflexivity. }
    rewrite H1.
    assert (HN : (0 < 2 ^ (- e'))%Z) by (apply Z.pow_pos_nonneg; lia).
    assert (Hint : (Zpos mx * 2 ^ s <= Zpos my * 2 ^ (- e'))%Z).
    { apply le_IZR. rewrite !mult_IZR, <- !pow2_IZR by lia.
      unfold F2R in Hle.
      replace ex with (s + e' + ey)%Z in Hle by (subst s; lia).
      rewrite !pow2_add in Hle.
      assert (Hinv : (pow2 e' * pow2 (- e') = 1)%R).
      { rewrite <- pow2_add. replace (e' + - e')%Z with 0%Z by lia. reflexivity. }
      pose proof (pow2_pos ey). pose proof (pow2_pos e'). pose proof (pow2_pos (- e')).
      pose proof (pow2_pos s).
      assert (Hle' : (IZR (Zpos mx) * pow2 s * pow2 e' <= IZR (Zpos my))%R) by nra.
      assert (Hmul : (IZR (Zpos mx) * pow2 s * pow2 e' * pow2 (- e')
                      <= IZR (Zpos my) * pow2 (- e'))%R)
        by (apply Rmult_le_compat_r; lra).
      replace (IZR (Zpos mx) * pow2 s * pow2 e' * pow2 (- e'))%R
        with (IZR (Zpos mx) * pow2 s * (pow2 e' * pow2 (- e')))%R in Hmul by ring.
      rewrite Hinv in Hmul. lra. }
    assert (Hru : (round_up q l <= 2 ^ (- e'))%Z).
    { rewrite Hup. destruct (Z.eqb_spec r 0) as [Hr0|Hr0]; nia. }
    unfold F2R. apply IZR_le in Hru. rewrite <- pow2_IZR in Hru by lia.
    assert (Hinv : (pow2 (- e') * pow2 e' = 1)%R).
    { rewrite <- pow2_add. replace (- e' + e')%Z with 0%Z by lia. reflexivity. }
    pose proof (pow2_pos e').
    assert ((IZR (round_up q l) * pow2 e' <= pow2 (- e') * pow2 e')%R)
      by (apply Rmult_le_compat_r; lra).
    lra. }
  pose proof (binary_round_aux_signed false q e' l Hq) as Hsg.
  pose proof (binary_round_aux_upper false q e' l (2 ^ 52)%positive (-52) Hq Hpre
                eq_refl Hone) as Hub.
  assert (H1 : F2R (Zpos (2 ^ 52)) (-52) = 1%R).
  { unfold F2R. change (Zpos (2 ^ 52)) with (2 ^ 52)%Z.
    rewrite <- (pow2_IZR 52) by lia. rewrite <- pow2_add. reflexivity. }
  rewrite H1 in Hub.
  destruct (binary_round_aux prec emax false q e' l) as [s'|s'| |s' m' e''];
    simpl in Hsg, Hub |- *; subst; try contradiction; try lra.
  pose proof (F2R_pos (Zpos m') e'' ltac:(lia)). split; lra.
Qed.

(** ** The primitive operations on finite numbers *)

Lemma is_finite_spec (x : float) :
  is_finite x = SF_finite (Prim2SF x).
Proof.
  unfold is_finite. rewrite is_nan_spec, is_infinity_spec.
  destruct (Prim2SF x); reflexivity.
Qed.

Lemma leb_B2R (x y : float) :
  is_finite x = true -> is_finite y = true ->
  ((x <=? y) = true <-> (B2R x <= B2R y)%R).
Proof.
  rewrite !is_finite_spec, FloatAxioms.leb_spec. intros Fx Fy.
  apply SFleb_spec; auto using Prim2SF_valid.
Qed.

Lemma ltb_B2R (x y : float) :
  is_finite x = true -> is_finite y = true ->
  ((x <? y) = true <-> (B2R x < B2R y)%R).
Proof.
  rewrite !is_finite_spec, FloatAxioms.ltb_spec. intros Fx Fy.
  apply SFltb_spec; auto using Prim2SF_valid.
Qed.

Lemma between_finite (l x u : float) :
  is_finite l = true -> is_finite u = true ->
  (l <=? x) = true -> (x <=? u) = true -> is_finite x = true.
Proof.
  rewrite !is_finite_spec, !FloatAxioms.leb_spec. unfold SFleb.
  destruct (Prim2SF l) as [sl|sl| |sl ml el]; try discriminate;
  destruct (Prim2SF u) as [su|su| |su mu eu]; try discriminate;
  destruct (Prim2SF x) as [s|[|]| |s m e]; simpl; try reflexivity;
    try discriminate; intros _ _;
    try (destruct sl; discriminate); try (destruct su; discriminate).
Qed.

Lemma add_upper (x y f : float) :
  is_finite x = true -> is_finite y = true -> is_finite f = true ->
  (B2R x + B2R y <= B2R f)%R -> (x + y <=? f) = true.
Proof.
  rewrite !is_finite_spec, FloatAxioms.leb_spec. intros Fx Fy Ff Hle.
  apply SFleb_of_le_R; auto using Prim2SF_valid.
  rewrite add_spec. apply SFadd_upper; auto using Prim2SF_valid.
Qed.

Lemma add_lower (x y f : float) :
  is_finite x = true -> is_finite y = true -> is_finite f = true ->
  (B2R f <= B2R x + B2R y)%R -> (f <=? x + y) = true.
Proof.
  rewrite !is_finite_spec, FloatAxioms.leb_spec. intros Fx Fy Ff Hle.
  apply SFleb_of_ge_R; auto using Prim2SF_valid.
  rewrite add_spec. apply SFadd_lower; auto using Prim2SF_valid.
Qed.

Lemma sub_upper (x y f : float) :
  is_finite x = true -> is_finite y = true -> is_finite f = true ->
  (B2R x - B2R y <= B2R f)%R -> (x - y <=? f) = true.
Proof.
  rewrite !is_finite_spec, FloatAxioms.leb_spec. intros Fx Fy Ff Hle.
  apply SFleb_of_le_R; auto using Prim2SF_valid.
  rewrite sub_spec. apply SFsub_upper; auto using Prim2SF_valid.
Qed.

Lemma sub_lower (x y f : float) :
  is_finite x = true -> is_finite y = true -> is_finite f = true ->
  (B2R f <= B2R x - B2R y)%R -> (f <=? x - y) = true.
Proof.
  rewrite !is_finite_spec, FloatAxioms.leb_spec. intros Fx Fy Ff Hle.
  apply SFleb_of_ge_R; auto using Prim2SF_valid.
  rewrite sub_spec. apply SFsub_lower; auto using Prim2SF_valid.
Qed.

Lemma B2R_pos_inv (x : float) :
  (0 < B2R x)%R -> exists m e, Prim2SF x = S754_finite false m e.
Proof.
  unfold B2R. destruct (Prim2SF x) as [s|s| |[|] m e]; simpl; try lra.
  - pose proof (F2R_pos (Zpos m) e ltac:(lia)). lra.
  - intros _. eauto.
Qed.

Lemma mul_upper (x y f : float) :
  (0 < B2R x)%R -> (0 < B2R y)%R -> is_finite f = true ->
  (B2R x * B2R y <= B2R f)%R -> (x * y <=? f) = true.
Proof.
  intros Hx Hy Ff Hle. rewrite is_finite_spec in Ff.
  assert (Hf : (0 < B2R f)%R) by nra.
  pose proof (Prim2SF_valid x) as Vx. pose proof (Prim2SF_valid y) as Vy.
  pose proof (Prim2SF_valid f) as Vf.
  rewrite FloatAxioms.leb_spec.
  apply SFleb_of_le_R; auto using Prim2SF_valid.
  rewrite mul_spec. unfold B2R in *.
  destruct (B2R_pos_inv x Hx) as (mx & ex & Ex).
  destruct (B2R_pos_inv y Hy) as (my & ey & Ey).
  destruct (B2R_pos_inv f Hf) as (mf & ef & Ef).
  rewrite Ex, Ey, Ef in *. apply SFmul_pos_upper; assumption.
Qed.

Lemma mul_lower (x y f : float) :
  (0 < B2R x)%R -> (0 < B2R y)%R -> (0 < B2R f)%R ->
  (B2R f <= B2R x * B2R y)%R -> (f <=? x * y) = true.
Proof.
  intros Hx Hy Hf Hle.
  pose proof (Prim2SF_valid f) as Vf.
  rewrite FloatAxioms.leb_spec.
  destruct (B2R_pos_inv x Hx) as (mx & ex & Ex).
  destruct (B2R_pos_inv y Hy) as (my & ey & Ey).
  destruct (B2R_pos_inv f Hf) as (mf & ef & Ef).
  apply SFleb_of_ge_R; auto using Prim2SF_valid.
  - rewrite Ef. reflexivity.
  - rewrite mul_spec. unfold B2R in *.
    rewrite Ex, Ey, Ef in *. apply SFmul_pos_lower; assumption.
Qed.

Lemma B2R_0 : B2R 0 = 0%R.
Proof. reflexivity. Qed.

Lemma F2R_pow2_52 (e : Z) : F2R (Zpos (2 ^ 52)) e = pow2 (52 + e).
Proof.
  unfold F2R. change (Zpos (2 ^ 52)) with (2 ^ 52)%Z.
  rewrite <- (pow2_IZR 52) by lia. rewrite <- pow2_add. reflexivity.
Qed.

Lemma B2R_1 : B2R 1 = 1%R.
Proof.
  unfold B2R. change (Prim2SF 1) with (S754_finite false (2 ^ 52) (-52)).
  simpl SF2R. rewrite F2R_pow2_52. reflexivity.
Qed.

Lemma B2R_2 : B2R 2 = 2%R.
Proof.
  unfold B2R. change (Prim2SF 2) with (S754_finite false (2 ^ 52) (-51)).
  simpl SF2R. rewrite F2R_pow2_52. simpl. unfold pow2. simpl. lra.
Qed.

Lemma B2R_half : B2R 0.5 = (/ 2)%R.
Proof.
  unfold B2R. change (Prim2SF 0.5) with (S754_finite false (2 ^ 52) (-53)).
  simpl SF2R. rewrite F2R_pow2_52. simpl. unfold pow2. simpl. lra.
Qed.

Lemma div_unit (x b : float) :
  is_finite x = true -> is_finite b = true ->
  (0 <= B2R x <= B2R b)%R -> (0 < B2R b)%R ->
  (0 <=? x / b) = true /\ (x / b <=? 1) = true.
Proof.
  intros Fx Fb [Hx0 Hxb] Hb. rewrite is_finite_spec in Fx, Fb.
  destruct (B2R_pos_inv b Hb) as (my & ey & Eb).
  rewrite !FloatAxioms.leb_spec.
  assert (Hgoal : SF_le_R (Prim2SF (x / b)) (SF2R (Prim2SF 1))
                  /\ SF_ge_R (Prim2SF (x / b)) (SF2R (Prim2SF 0))).
  { fold (B2R 1). fold (B2R 0). rewrite B2R_1, B2R_0.
    rewrite div_spec. unfold B2R in *. rewrite Eb in *.
    destruct (Prim2SF x) as [sx|sx| |[|] mx ex]; try discriminate.
    - simpl. lra.
    - simpl in Hx0. pose proof (F2R_pos (Zpos mx) ex ltac:(lia)). lra.
    - simpl in Hxb. apply (SFdiv_unit mx my ex ey Hxb). }
  destruct Hgoal as [Hle Hge]. split.
  - apply SFleb_of_ge_R; auto using Prim2SF_valid.
  - apply SFleb_of_le_R; auto using Prim2SF_valid.
Qed.

(** The interpolated correction lies between 0.5 and 1. *)
Lemma interpolation_bounds (Dw Df B : float) :
  is_finite Dw = true -> is_finite Df = true -> is_finite B = true ->
  (Dw <=? Df) = false -> (Df + B <=? Dw) = false ->
  let W := 0.5 * (1 + (Dw - Df) / B) in
  (0.5 <=? W) = true /\ (W <=? 1) = true.
Proof.
  intros FDw FDf FB Hle Hge W.
  assert (F0 : is_finite 0 = true) by reflexivity.
  assert (F1 : is_finite 1 = true) by reflexivity.
  assert (F2 : is_finite 2 = true) by reflexivity.
  (* Df < Dw <= Df + B as real numbers *)
  assert (H1 : (B2R Df < B2R Dw)%R).
  { destruct (Rlt_or_le (B2R Df) (B2R Dw)) as [|Hc]; [assumption|exfalso].
    apply (leb_B2R Dw Df FDw FDf) in Hc. congruence. }
  assert (H2 : (B2R Dw <= B2R Df + B2R B)%R).
  { destruct (Rle_or_lt (B2R Dw) (B2R Df + B2R B)) as [|Hc]; [assumption|exfalso].
    pose proof (add_upper Df B Dw FDf FB FDw ltac:(lra)). congruence. }
  (* the difference *)
  assert (Hx0 : (0 <=? Dw - Df) = true)
    by (apply sub_lower; auto; rewrite B2R_0; lra).
  assert (Hxb : (Dw - Df <=? B) = true) by (apply sub_upper; auto; lra).
  pose proof (between_finite 0 (Dw - Df) B F0 FB Hx0 Hxb) as Fx.
  apply (leb_B2R 0 (Dw - Df) F0 Fx) in Hx0. rewrite B2R_0 in Hx0.
  apply (leb_B2R (Dw - Df) B Fx FB) in Hxb.
  (* the ratio *)
  destruct (div_unit (Dw - Df) B Fx FB ltac:(lra) ltac:(lra)) as [Hr0 Hr1].
  pose proof (between_finite 0 ((Dw - Df) / B) 1 F0 F1 Hr0 Hr1) as Fr.
  apply (leb_B2R 0 _ F0 Fr) in Hr0. rewrite B2R_0 in Hr0.
  apply (leb_B2R _ 1 Fr F1) in Hr1. rewrite B2R_1 in Hr1.
  (* one plus the ratio *)
  assert (Hy1 : (1 <=? 1 + (Dw - Df) / B) = true)
    by (apply add_lower; auto; rewrite B2R_1; lra).
  assert (Hy2 : (1 + (Dw - Df) / B <=? 2) = true)
    by (apply add_upper; auto; rewrite B2R_1, B2R_2; lra).
  pose proof (between_finite 1 _ 2 F1 F2 Hy1 Hy2) as Fy.
  apply (leb_B2R 1 _ F1 Fy) in Hy1. rewrite B2R_1 in Hy1.
  apply (leb_B2R _ 2 Fy F2) in Hy2. rewrite B2R_2 in Hy2.
  (* and its half *)
  subst W. split.
  - apply mul_lower; rewrite ?B2R_half; lra.
  - apply mul_upper; rewrite ?B2R_half, ?B2R_1; auto; lra.
Qed.


(** ** Signs and symmetry *)

Lemma get_sign_spec (x : float) :
  get_sign x =
  match Prim2SF x with
  | S754_zero s | S754_infinity s | S754_finite s _ _ => s
  | S754_nan => false
  end.
Proof.
  unfold get_sign, is_zero.
  rewrite FloatAxioms.eqb_spec.
  change (Prim2SF zero) with (S754_zero false).
  destruct (Prim2SF x) as [s|s| |s m e] eqn:E; unfold SFeqb; simpl.
  - rewrite FloatAxioms.ltb_spec, div_spec, E.
    change (Prim2SF one) with (S754_finite false (2 ^ 52) (-52)).
    change (Prim2SF zero) with (S754_zero false).
    destruct s; reflexivity.
  - destruct s; cbv iota; rewrite FloatAxioms.ltb_spec, E; reflexivity.
  - rewrite FloatAxioms.ltb_spec, E. reflexivity.
  - destruct s; cbv iota; rewrite FloatAxioms.ltb_spec, E; reflexivity.
Qed.

Lemma binary_round_aux_opp (s : bool) (m e : Z) (l : location) :
  binary_round_aux prec emax (negb s) m e l
  = SFopp (binary_round_aux prec emax s m e l).
Proof.
  unfold binary_round_aux.
  destruct (shr_fexp prec emax m e l) as [mrs' e'].
  destruct (shr_fexp prec emax _ e' loc_Exact) as [mrs'' e''].
  destruct (shr_m mrs'') as [|p|p]; try reflexivity.
  destruct (e'' <=? emax - prec)%Z; reflexivity.
Qed.

Lemma SFdiv_opp_l (x y : spec_float) :
  SFdiv prec emax (SFopp x) y = SFopp (SFdiv prec emax x y).
Proof.
  destruct x as [sx|sx| |sx mx ex], y as [sy|sy| |sy my ey]; simpl;
    try reflexivity; try (destruct sx, sy; reflexivity).
  destruct (SFdiv_core_binary prec emax (Zpos mx) ex (Zpos my) ey) as [[mz ez] lz].
  rewrite <- binary_round_aux_opp. destruct sx, sy; reflexivity.
Qed.

Lemma SFmul_opp_r (x y : spec_float) :
  SFmul prec emax x (SFopp y) = SFopp (SFmul prec emax x y).
Proof.
  destruct x as [sx|sx| |sx mx ex], y as [sy|sy| |sy my ey]; simpl;
    try reflexivity; try (destruct sx, sy; reflexivity).
  rewrite <- binary_round_aux_opp. destruct sx, sy; reflexivity.
Qed.

Lemma SFabs_opp (x : spec_float) : SFabs (SFopp x) = SFabs x.
Proof. destruct x; reflexivity. Qed.

(** The magnitude of a quotient does not depend on the sign of the
    numerator. *)
Lemma abs_div_opp (a v : float) : Math_abs (- a / v) = Math_abs (a / v).
Proof.
  unfold Math_abs. apply Prim2SF_inj.
  rewrite !abs_spec, !div_spec, opp_spec, SFdiv_opp_l. apply SFabs_opp.
Qed.

(** ** The order of binary64 numbers *)

Lemma leb_refl (x : float) : is_nan x = false -> (x <=? x) = true.
Proof.
  rewrite is_nan_spec, FloatAxioms.leb_spec. unfold SFleb.
  destruct (Prim2SF x) as [[|]|[|]| |[|] m e]; try discriminate;
    intros _; try reflexivity; simpl;
    rewrite Z.compare_refl, Pos.compare_cont_refl; reflexivity.
Qed.

Lemma SFleb_trans (x y z : spec_float) :
  valid_binary x = true -> valid_binary y = true -> valid_binary z = true ->
  SFleb x y = true -> SFleb y z = true -> SFleb x z = true.
Proof.
  intros Vx Vy Vz Hxy Hyz.
  destruct (SF_finite x) eqn:Fx, (SF_finite y) eqn:Fy, (SF_finite z) eqn:Fz.
  1:{ apply SFleb_spec in Hxy; auto. apply SFleb_spec in Hyz; auto.
      apply SFleb_spec; auto. lra. }
  all: destruct x as [[|]|[|]| |[|] mx ex], y as [[|]|[|]| |[|] my ey],
         z as [[|]|[|]| |[|] mz ez]; try discriminate; reflexivity.
Qed.

Lemma leb_trans (x y z : float) :
  (x <=? y) = true -> (y <=? z) = true -> (x <=? z) = true.
Proof.
  rewrite !FloatAxioms.leb_spec. apply SFleb_trans; apply Prim2SF_valid.
Qed.

Lemma SFleb_ltb_trans (x y z : spec_float) :
  valid_binary x = true -> valid_binary y = true -> valid_binary z = true ->
  SFleb x y = true -> SFltb y z = true -> SFltb x z = true.
Proof.
  intros Vx Vy Vz Hxy Hyz.
  destruct (SF_finite x) eqn:Fx, (SF_finite y) eqn:Fy, (SF_finite z) eqn:Fz.
  1:{ apply SFleb_spec in Hxy; auto. apply SFltb_spec in Hyz; auto.
      apply SFltb_spec; auto. lra. }
  all: destruct x as [[|]|[|]| |[|] mx ex], y as [[|]|[|]| |[|] my ey],
         z as [[|]|[|]| |[|] mz ez]; try discriminate; reflexivity.
Qed.

Lemma leb_ltb_trans (x y z : float) :
  (x <=? y) = true -> (y <? z) = true -> (x <? z) = true.
Proof.
  rewrite !FloatAxioms.leb_spec, !FloatAxioms.ltb_spec.
  apply SFleb_ltb_trans; apply Prim2SF_valid.
Qed.

Lemma ltb_not_nan (x y : float) :
  (x <? y) = true -> is_nan x = false /\ is_nan y = false.
Proof. intros Hlt. apply leb_true_not_nan, ltb_true_leb, Hlt. Qed.

Lemma leb_false_leb (x y : float) :
  is_nan x = false -> is_nan y = false ->
  (x <=? y) = false -> (y <=? x) = true.
Proof.
  intros Nx Ny Hle. destruct (y <? x) eqn:Hlt; [apply ltb_true_leb, Hlt|].
  pose proof (ltb_false_leb y x Ny Nx Hlt). congruence.
Qed.

Lemma leb_antisym_eqb (x y : float) :
  (x <=? y) = true -> (y <=? x) = (x =? y).
Proof.
  rewrite !FloatAxioms.leb_spec, FloatAxioms.eqb_spec. unfold SFleb, SFeqb.
  rewrite (SFcompare_swap (Prim2SF x) (Prim2SF y)).
  destruct (SFcompare (Prim2SF x) (Prim2SF y)) as [[ | | ]|]; simpl;
    congruence.
Qed.

(** Two numbers that compare equal are the same number, unless they are the
    two zeros. *)
Lemma eqb_identity (x y : float) :
  (x =? y) = true ->
  x = y \/ (exists s s', Prim2SF x = S754_zero s /\ Prim2SF y = S754_zero s').
Proof.
  rewrite FloatAxioms.eqb_spec. unfold SFeqb. intros E.
  destruct (Prim2SF x) as [sx|sx| |sx mx ex] eqn:Ex.
  - destruct (Prim2SF y) as [sy|sy| |sy my ey] eqn:Ey; simpl in E;
      try discriminate E; try (destruct sy; discriminate E).
    right. eauto.
  - left. apply Prim2SF_inj. rewrite Ex.
    destruct (Prim2SF y) as [sy|sy| |sy my ey]; simpl in E;
      try discriminate E; destruct sx; try destruct sy; try discriminate E;
      reflexivity.
  - discriminate E.
  - left. apply Prim2SF_inj. rewrite Ex. symmetry.
    apply SFcompare_Eq_finite.
    destruct (SFcompare _ _) as [[ | | ]|]; try discriminate E. reflexivity.
Qed.

Lemma SFeqb_refl (x : spec_float) : SF_number x = true -> SFeqb x x = true.
Proof.
  unfold SFeqb.
  destruct x as [[|]|[|]| |[|] m e]; try discriminate; intros _;
    try reflexivity; simpl; rewrite Z.compare_refl, Pos.compare_cont_refl;
    reflexivity.
Qed.

(** ** [Math.max] and [Math.min] *)

Lemma Math_max_ge_l (x k : float) :
  is_nan x = false -> is_nan k = false -> (x <=? Math_max x k) = true.
Proof.
  intros Hx Hk. unfold Math_max. rewrite Hx, Hk. cbn [orb].
  destruct (x <? k) eqn:H1; [apply ltb_true_leb, H1|].
  destruct (k <? x) eqn:H2; [apply leb_refl, Hx|].
  destruct (get_sign x); [|apply leb_refl, Hx].
  apply ltb_false_leb; auto.
Qed.

Lemma Math_max_ge_r (x k : float) :
  is_nan x = false -> is_nan k = false -> (k <=? Math_max x k) = true.
Proof.
  intros Hx Hk. unfold Math_max. rewrite Hx, Hk. cbn [orb].
  destruct (x <? k) eqn:H1; [apply leb_refl, Hk|].
  destruct (k <? x) eqn:H2; [apply ltb_true_leb, H2|].
  destruct (get_sign x); [apply leb_refl, Hk|].
  apply ltb_false_leb; auto.
Qed.

Lemma Math_max_lub (x k u : float) :
  (x <=? u) = true -> (k <=? u) = true -> (Math_max x k <=? u) = true.
Proof.
  intros Hx Hk. unfold Math_max.
  destruct (leb_true_not_nan _ _ Hx) as [Nx _].
  destruct (leb_true_not_nan _ _ Hk) as [Nk _].
  rewrite Nx, Nk. cbn [orb].
  destruct (x <? k); [assumption|].
  destruct (k <? x); [assumption|].
  destruct (get_sign x); assumption.
Qed.

Lemma Math_max_monotone (x b k : float) :
  is_nan k = false ->
  (x <=? b) = true -> (Math_max x k <=? Math_max b k) = true.
Proof.
  intros Nk Hxb. destruct (leb_true_not_nan _ _ Hxb) as [Nx Nb].
  apply Math_max_lub.
  - apply (leb_trans _ b); [assumption|]. now apply Math_max_ge_l.
  - now apply Math_max_ge_r.
Qed.

Lemma Math_min_le (a b : float) :
  is_nan a = false -> is_nan b = false ->
  (Math_min a b <=? a) = true /\ (Math_min a b <=? b) = true.
Proof.
  intros Na Nb. unfold Math_min. rewrite Na, Nb. cbn [orb].
  destruct (a <? b) eqn:H1.
  { split; [apply leb_refl, Na|apply ltb_true_leb, H1]. }
  destruct (b <? a) eqn:H2.
  { split; [apply ltb_true_leb, H2|apply leb_refl, Nb]. }
  destruct (get_sign a).
  - split; [apply leb_refl, Na|]. now apply ltb_false_leb.
  - split; [|apply leb_refl, Nb]. now apply ltb_false_leb.
Qed.

(** ** NaN goes through the arithmetic *)

Lemma mul_nan_l (x y : float) : is_nan x = true -> is_nan (x * y) = true.
Proof.
  rewrite !is_nan_spec, mul_spec.
  destruct (Prim2SF x); try discriminate. reflexivity.
Qed.

Lemma mul_nan_r (x y : float) : is_nan y = true -> is_nan (x * y) = true.
Proof.
  rewrite !is_nan_spec, mul_spec.
  destruct (Prim2SF y); try discriminate. destruct (Prim2SF x); reflexivity.
Qed.

Lemma div_nan_l (x y : float) : is_nan x = true -> is_nan (x / y) = true.
Proof.
  rewrite !is_nan_spec, div_spec.
  destruct (Prim2SF x); try discriminate. reflexivity.
Qed.

Lemma div_nan_r (x y : float) : is_nan y = true -> is_nan (x / y) = true.
Proof.
  rewrite !is_nan_spec, div_spec.
  destruct (Prim2SF y); try discriminate. destruct (Prim2SF x); reflexivity.
Qed.

Lemma add_nan_l (x y : float) : is_nan x = true -> is_nan (x + y) = true.
Proof.
  rewrite !is_nan_spec, add_spec.
  destruct (Prim2SF x); try discriminate. reflexivity.
Qed.

Lemma add_nan_r (x y : float) : is_nan y = true -> is_nan (x + y) = true.
Proof.
  rewrite !is_nan_spec, add_spec.
  destruct (Prim2SF y); try discriminate. destruct (Prim2SF x); reflexivity.
Qed.

Lemma sub_nan_l (x y : float) : is_nan x = true -> is_nan (x - y) = true.
Proof.
  rewrite !is_nan_spec, sub_spec.
  destruct (Prim2SF x); try discriminate. reflexivity.
Qed.

Lemma sub_nan_r (x y : float) : is_nan y = true -> is_nan (x - y) = true.
Proof.
  rewrite !is_nan_spec, sub_spec.
  destruct (Prim2SF y); try discriminate. destruct (Prim2SF x); reflexivity.
Qed.

Lemma nan_unique (x y : float) : is_nan x = true -> is_nan y = true -> x = y.
Proof.
  rewrite !is_nan_spec. intros Hx Hy. apply Prim2SF_inj.
  destruct (Prim2SF x); try discriminate. destruct (Prim2SF y); try discriminate.
  reflexivity.
Qed.

Lemma ltb_nan_l (x y : float) : is_nan x = true -> (x <? y) = false.
Proof.
  intros Hx. destruct (x <? y) eqn:E; [|reflexivity].
  destruct (ltb_not_nan _ _ E). congruence.
Qed.

Lemma ltb_nan_r (x y : float) : is_nan y = true -> (x <? y) = false.
Proof.
  intros Hx. destruct (x <? y) eqn:E; [|reflexivity].
  destruct (ltb_not_nan _ _ E). congruence.
Qed.

(** The interpolated correction is NaN when the depth of the water table is,
    or when [Df + B] is. *)
Lemma interpolation_nan (Dw Df B : float) :
  is_nan Dw = true \/ is_nan (Df + B) = true ->
  (Dw <=? Df) = false ->
  is_nan (0.5 * (1 + (Dw - Df) / B)) = true.
Proof.
  intros Hn Hle. apply mul_nan_r, add_nan_r.
  destruct Hn as [Hn|Hn]; [apply div_nan_l, sub_nan_l, Hn|].
  destruct (is_nan Df) eqn:ND; [apply div_nan_l, sub_nan_r, ND|].
  destruct (is_nan B) eqn:NB; [apply div_nan_r, NB|].
  revert Hn Hle ND NB.
  rewrite !is_nan_spec, FloatAxioms.leb_spec, div_spec, sub_spec, add_spec.
  destruct (SF_finite (Prim2SF Df)) eqn:FD.
  { intros Hn _ _ NB. apply negb_false_iff in NB.
    unfold SF64add in Hn.
    rewrite (SFadd_number prec emax _ _ FD NB) in Hn. discriminate. }
  destruct (Prim2SF Df) as [[|]|[|]| |sd md ed]; try discriminate;
    destruct (Prim2SF B) as [[|]|[|]| |sb mb eb]; try discriminate;
    intros _;
    destruct (Prim2SF Dw) as [[|]|[|]| |[|] mw ew]; try discriminate;
    reflexivity.
Qed.

(** ** Zero *)

(** A product with a factor that is zero or NaN is zero or NaN. *)
Lemma falsy_mul_l (x y : float) : truthy x = false -> truthy (x * y) = false.
Proof.
  unfold truthy. rewrite !negb_false_iff, !orb_true_iff.
  rewrite !FloatAxioms.eqb_spec, !is_nan_spec, mul_spec.
  change (Prim2SF 0) with (S754_zero false). unfold SFeqb.
  destruct (Prim2SF x) as [[|]|[|]| |[|] mx ex]; simpl; intros [E|E];
    try discriminate E;
    destruct (Prim2SF y) as [[|]|[|]| |[|] my ey]; simpl; auto.
Qed.

Lemma falsy_mul_r (x y : float) : truthy y = false -> truthy (x * y) = false.
Proof.
  unfold truthy. rewrite !negb_false_iff, !orb_true_iff.
  rewrite !FloatAxioms.eqb_spec, !is_nan_spec, mul_spec.
  change (Prim2SF 0) with (S754_zero false). unfold SFeqb.
  destruct (Prim2SF y) as [[|]|[|]| |[|] my ey]; simpl; intros [E|E];
    try discriminate E;
    destruct (Prim2SF x) as [[|]|[|]| |[|] mx ex]; simpl; auto.
Qed.

Lemma falsy_zero_or_nan (x : float) :
  truthy x = false -> (x =? 0) = true \/ is_nan x = true.
Proof. unfold truthy. rewrite negb_false_iff. apply orb_true_iff. Qed.

(** A zero eccentricity is not above a sixth of any dimension. *)
Lemma zero_ratio_not_above_sixth (z b : float) :
  (z =? 0) = true \/ is_nan z = true -> (z / b >? 1 / 6) = false.
Proof.
  rewrite FloatAxioms.eqb_spec, is_nan_spec, FloatAxioms.ltb_spec, (div_spec z b).
  change (Prim2SF 0) with (S754_zero false).
  remember (Prim2SF (1 / 6)) as k eqn:Hk. vm_compute in Hk. subst k.
  unfold SFeqb.
  destruct (Prim2SF z) as [[|]|[|]| |[|] mz ez]; simpl; intros [E|E];
    try discriminate E;
    destruct (Prim2SF b) as [[|]|[|]| |[|] mb eb]; reflexivity.
Qed.

Lemma abs_zero_ratio (m v : float) :
  (m =? 0) = true ->
  let e := Math_abs (m / v) in (e =? 0) = true \/ is_nan e = true.
Proof.
  unfold Math_abs.
  rewrite !FloatAxioms.eqb_spec, is_nan_spec, abs_spec, div_spec.
  change (Prim2SF 0) with (S754_zero false). unfold SFeqb.
  destruct (Prim2SF m) as [[|]|[|]| |[|] mz ez]; simpl; intros E;
    try discriminate E;
    destruct (Prim2SF v) as [[|]|[|]| |[|] mb eb]; simpl; auto.
Qed.

Lemma leb_truthy (N k : float) :
  (N <=? k) = true -> (k <? 0) = true -> truthy N = true.
Proof.
  intros Hle Hk. unfold truthy. destruct (leb_true_not_nan _ _ Hle) as [NN _].
  rewrite NN, orb_false_r. apply negb_true_iff.
  destruct (N =? 0) eqn:E; [|reflexivity].
  destruct (eqb_true_leb _ _ E) as [_ H0].
  pose proof (leb_ltb_trans _ _ _ (leb_trans _ _ _ H0 Hle) Hk) as Hlt.
  rewrite (leb_true_ltb_false 0 0 eq_refl) in Hlt. discriminate.
Qed.

Lemma SFsub_diag (x : spec_float) :
  SF_finite x = true -> exists s, SFsub prec emax x x = S754_zero s.
Proof.
  destruct x as [[|]|sx| |sx mx ex]; try discriminate; intros _; simpl;
    try (eexists; reflexivity).
  rewrite Z.sub_diag. eexists. reflexivity.
Qed.

(** A sum with a positive number is never [-0]. *)
Lemma binary_round_neg_nonzero (m : positive) (e : Z) :
  (-1074 <= e)%Z -> binary_round prec emax true m e <> S754_zero true.
Proof.
  intros He E.
  pose proof (binary_round_upper true m e (S754_finite true 1 (-1074))
                eq_refl eq_refl) as Hup.
  rewrite E in Hup. simpl in Hup.
  assert (Hlow : (F2R 1 (-1074) <= F2R (Zpos m) e)%R).
  { apply Rle_trans with (F2R 1 e).
    - unfold F2R. apply Rmult_le_compat_l; [lra|]. apply pow2_le, He.
    - apply F2R_le. lia. }
  pose proof (F2R_pos 1 (-1074) ltac:(lia)). lra.
Qed.

Lemma SFadd_pos_not_neg_zero (mk : positive) (ek : Z) (y : spec_float) :
  valid_binary (S754_finite false mk ek) = true -> valid_binary y = true ->
  SFadd prec emax (S754_finite false mk ek) y <> S754_zero true.
Proof.
  intros Vk Vy. destruct y as [sy|sy| |sy my ey]; simpl; try discriminate.
  pose proof (canonical_exponent_ge _ _ (valid_canonical _ _ _ Vk)) as Hk.
  pose proof (canonical_exponent_ge _ _ (valid_canonical _ _ _ Vy)) as Hy.
  set (ez := IntDef.Z.min ek ey).
  assert (Hez : (-1074 <= ez)%Z).
  { subst ez. change (IntDef.Z.min ek ey) with (Z.min ek ey). lia. }
  match goal with |- binary_normalize _ _ ?z _ _ <> _ =>
    destruct z as [|p|p]; simpl end.
  - discriminate.
  - unfold binary_round. destruct (shl_align _ _ _) as [mz e'].
    intros E. pose proof (binary_round_aux_signed false (Zpos mz) e' loc_Exact
                            ltac:(lia)) as Hs.
    rewrite E in Hs. discriminate Hs.
  - apply binary_round_neg_nonzero, Hez.
Qed.

Lemma add_pos_not_neg_zero (k y : float) (mk : positive) (ek : Z) :
  Prim2SF k = S754_finite false mk ek -> Prim2SF (k + y) <> S754_zero true.
Proof.
  intros Hk. rewrite add_spec.
  pose proof (Prim2SF_valid k) as Vk. rewrite Hk in *.
  apply SFadd_pos_not_neg_zero; auto using Prim2SF_valid.
Qed.

Lemma allowablePressureSPT_not_neg_zero (soilType : SoilType) (N : float) :
  Prim2SF (allowablePressureSPT soilType N) <> S754_zero true.
Proof.
  unfold allowablePressureSPT.
  destruct soilType;
    repeat match goal with |- context [if ?b then _ else _] => destruct b end;
    try (eapply add_pos_not_neg_zero; reflexivity);
    intros E; vm_compute in E; discriminate E.
Qed.

(** ** Subtracting what is not negative *)

Lemma sub_nonneg_le (b y : float) :
  is_nan (b - y) = false ->
  (is_nan y = false -> SF_signed false (Prim2SF y)) ->
  (b - y <=? b) = true.
Proof.
  intros Hn Hy.
  assert (Ny : is_nan y = false).
  { destruct (is_nan y) eqn:E; [|reflexivity].
    rewrite (sub_nan_r b y E) in Hn. discriminate. }
  specialize (Hy Ny).
  destruct (is_finite b) eqn:Fb, (is_finite y) eqn:Fy.
  1:{ apply sub_upper; auto.
      assert (0 <= B2R y)%R; [|lra].
      unfold B2R. destruct (Prim2SF y) as [s|s| |s m e]; simpl in *; try lra.
      subst s. pose proof (F2R_pos (Zpos m) e ltac:(lia)). lra. }
  all: rewrite is_finite_spec in Fb, Fy; rewrite is_nan_spec in Hn, Ny;
    rewrite FloatAxioms.leb_spec; rewrite sub_spec in *;
    destruct (Prim2SF b) as [[|]|[|]| |[|] mb eb],
             (Prim2SF y) as [[|]|[|]| |[|] my ey];
    simpl in *; try discriminate; try reflexivity.
Qed.

(** Twice an eccentricity is not negative. *)
Lemma eccentricity_signed (m v : float) :
  let e := if strict_neq v 0 then Math_abs (m / v) else 0 in
  is_nan (2 * e) = false -> SF_signed false (Prim2SF (2 * e)).
Proof.
  intros e. subst e. destruct (strict_neq v 0); [|intros _; reflexivity].
  unfold Math_abs. rewrite is_nan_spec, mul_spec, abs_spec.
  change (Prim2SF 2) with (S754_finite false (2 ^ 52) (-51)).
  destruct (Prim2SF (m / v)) as [s|s| |s mz ez]; simpl; try discriminate;
    try reflexivity.
  intros _. apply binary_round_aux_signed. lia.
Qed.

(** ** One-sided bounds through the arithmetic

    [SF_le_R (Prim2SF x) v]: the number [x] is at most the real [v],
    [-Infinity] included; [SF_ge_R (Prim2SF x) v]: at least [v], [+Infinity]
    included.  A bound that is itself a binary64 number goes through a
    rounded operation. *)

Lemma SF_le_R_weaken (o : spec_float) (u v : R) :
  SF_le_R o u -> (u <= v)%R -> SF_le_R o v.
Proof. destruct o; simpl; auto; lra. Qed.

Lemma SF_ge_R_weaken (o : spec_float) (u v : R) :
  SF_ge_R o u -> (v <= u)%R -> SF_ge_R o v.
Proof. destruct o; simpl; auto; lra. Qed.

Lemma SF_le_R_finite (o : spec_float) :
  SF_finite o = true -> SF_le_R o (SF2R o).
Proof. destruct o; simpl; try discriminate; lra. Qed.

Lemma SF_ge_R_finite (o : spec_float) :
  SF_finite o = true -> SF_ge_R o (SF2R o).
Proof. destruct o; simpl; try discriminate; lra. Qed.

Lemma SF_le_R_opp (o : spec_float) (v : R) :
  SF_ge_R o v -> SF_le_R (SFopp o) (- v).
Proof.
  destruct o as [s|s| |s m e]; simpl; try tauto; try lra.
  - intros ->. reflexivity.
  - destruct s; simpl; lra.
Qed.

Lemma SF_ge_R_opp (o : spec_float) (v : R) :
  SF_le_R o v -> SF_ge_R (SFopp o) (- v).
Proof.
  destruct o as [s|s| |s m e]; simpl; try tauto; try lra.
  - intros ->. reflexivity.
  - destruct s; simpl; lra.
Qed.

Lemma SF_signed_le_R (o : spec_float) (v : R) :
  SF_signed true o -> (0 <= v)%R -> SF_le_R o v.
Proof.
  destruct o as [s|s| |s m e]; simpl; try tauto; intros -> Hv; try lra.
  pose proof (F2R_pos (Zpos m) e ltac:(lia)). lra.
Qed.

Lemma SF_signed_ge_R (o : spec_float) (v : R) :
  SF_signed false o -> (v <= 0)%R -> SF_ge_R o v.
Proof.
  destruct o as [s|s| |s m e]; simpl; try tauto; intros -> Hv; try lra.
  pose proof (F2R_pos (Zpos m) e ltac:(lia)). lra.
Qed.

Lemma SFadd_le_R (x y f : spec_float) (vx vy : R) :
  SF_le_R x vx -> SF_le_R y vy ->
  valid_binary f = true -> SF_finite f = true ->
  (vx + vy <= SF2R f)%R ->
  SF_le_R (SFadd prec emax x y) (SF2R f).
Proof.
  intros Hx Hy Vf Ff Hle.
  destruct (SF_finite x) eqn:Fx, (SF_finite y) eqn:Fy.
  1:{ apply SFadd_upper; auto.
      destruct x, y; simpl in *; try discriminate; lra. }
  all: destruct x as [sx|sx| |sx mx ex], y as [sy|sy| |sy my ey];
    simpl in *; try discriminate; try tauto; subst; reflexivity.
Qed.

Lemma SFadd_ge_R (x y f : spec_float) (vx vy : R) :
  SF_ge_R x vx -> SF_ge_R y vy ->
  valid_binary f = true -> SF_finite f = true ->
  (SF2R f <= vx + vy)%R ->
  SF_ge_R (SFadd prec emax x y) (SF2R f).
Proof.
  intros Hx Hy Vf Ff Hle.
  destruct (SF_finite x) eqn:Fx, (SF_finite y) eqn:Fy.
  1:{ apply SFadd_lower; auto.
      destruct x, y; simpl in *; try discriminate; lra. }
  all: destruct x as [sx|sx| |sx mx ex], y as [sy|sy| |sy my ey];
    simpl in *; try discriminate; try tauto; subst; reflexivity.
Qed.

Lemma SFsub_le_R (x y f : spec_float) (vx vy : R) :
  SF_le_R x vx -> SF_ge_R y vy ->
  valid_binary f = true -> SF_finite f = true ->
  (vx - vy <= SF2R f)%R ->
  SF_le_R (SFsub prec emax x y) (SF2R f).
Proof.
  intros Hx Hy Vf Ff Hle.
  destruct (SF_finite x) eqn:Fx, (SF_finite y) eqn:Fy.
  1:{ apply SFsub_upper; auto.
      destruct x, y; simpl in *; try discriminate; lra. }
  all: destruct x as [sx|sx| |sx mx ex], y as [sy|sy| |sy my ey];
    simpl in *; try discriminate; try tauto; subst; reflexivity.
Qed.

Lemma SFsub_ge_R (x y f : spec_float) (vx vy : R) :
  SF_ge_R x vx -> SF_le_R y vy ->
  valid_binary f = true -> SF_finite f = true ->
  (SF2R f <= vx - vy)%R ->
  SF_ge_R (SFsub prec emax x y) (SF2R f).
Proof.
  intros Hx Hy Vf Ff Hle.
  destruct (SF_finite x) eqn:Fx, (SF_finite y) eqn:Fy.
  1:{ apply SFsub_lower; auto.
      destruct x, y; simpl in *; try discriminate; lra. }
  all: destruct x as [sx|sx| |sx mx ex], y as [sy|sy| |sy my ey];
    simpl in *; try discriminate; try tauto; subst; reflexivity.
Qed.

(** A product by a positive number. *)
Lemma SFmul_pos_le_R (mk : positive) (ek : Z) (y f : spec_float) (vy : R) :
  valid_binary (S754_finite false mk ek) = true ->
  valid_binary y = true ->
  SF_le_R y vy ->
  valid_binary f = true -> SF_finite f = true ->
  (F2R (Zpos mk) ek * vy <= SF2R f)%R ->
  SF_le_R (SFmul prec emax (S754_finite false mk ek) y) (SF2R f).
Proof.
  intros Vk Vy Hy Vf Ff Hle.
  pose proof (F2R_pos (Zpos mk) ek ltac:(lia)) as Hk.
  destruct y as [sy|sy| |[|] my ey]; try (simpl in Hy; tauto).
  - simpl in *. nra.
  - (* a negative factor *)
    change (SFmul prec emax (S754_finite false mk ek) (S754_finite true my ey))
      with (SFmul prec emax (S754_finite false mk ek)
              (SFopp (S754_finite false my ey))).
    rewrite SFmul_opp_r. simpl in Hy.
    pose proof (F2R_pos (Zpos my) ey ltac:(lia)) as Hmy.
    destruct f as [sf|sf| |[|] mf ef]; try discriminate.
    + apply SF_signed_le_R; [|simpl; lra].
      simpl. rewrite <- binary_round_aux_opp. simpl.
      apply binary_round_aux_signed. lia.
    + simpl SF2R in *. rewrite <- (Ropp_involutive (- F2R (Zpos mf) ef)).
      apply SF_le_R_opp. rewrite Ropp_involutive.
      apply SFmul_pos_lower; [exact Vf|]. nra.
    + apply SF_signed_le_R; [|simpl; pose proof (F2R_pos (Zpos mf) ef ltac:(lia)); lra].
      simpl. rewrite <- binary_round_aux_opp. simpl.
      apply binary_round_aux_signed. lia.
  - (* a positive factor *)
    simpl in Hy. pose proof (F2R_pos (Zpos my) ey ltac:(lia)) as Hmy.
    destruct f as [sf|sf| |[|] mf ef]; try discriminate.
    + simpl in Hle. nra.
    + simpl in Hle. pose proof (F2R_pos (Zpos mf) ef ltac:(lia)). nra.
    + apply SFmul_pos_upper; auto. simpl in Hle. nra.
Qed.

Lemma SFmul_pos_ge_R (mk : positive) (ek : Z) (y f : spec_float) (vy : R) :
  valid_binary (S754_finite false mk ek) = true ->
  valid_binary y = true ->
  SF_ge_R y vy ->
  valid_binary f = true -> SF_finite f = true ->
  (SF2R f <= F2R (Zpos mk) ek * vy)%R ->
  SF_ge_R (SFmul prec emax (S754_finite false mk ek) y) (SF2R f).
Proof.
  intros Vk Vy Hy Vf Ff Hle.
  pose proof (F2R_pos (Zpos mk) ek ltac:(lia)) as Hk.
  destruct y as [sy|sy| |[|] my ey]; try (simpl in Hy; tauto).
  - simpl in *. nra.
  - (* a negative factor *)
    change (SFmul prec emax (S754_finite false mk ek) (S754_finite true my ey))
      with (SFmul prec emax (S754_finite false mk ek)
              (SFopp (S754_finite false my ey))).
    rewrite SFmul_opp_r. simpl in Hy.
    pose proof (F2R_pos (Zpos my) ey ltac:(lia)) as Hmy.
    destruct f as [sf|sf| |[|] mf ef]; try discriminate.
    + simpl in Hle. nra.
    + simpl SF2R in *. rewrite <- (Ropp_involutive (- F2R (Zpos mf) ef)).
      apply SF_ge_R_opp. rewrite Ropp_involutive.
      apply SFmul_pos_upper; auto. nra.
    + simpl in Hle. pose proof (F2R_pos (Zpos mf) ef ltac:(lia)). nra.
  - (* a positive factor *)
    simpl in Hy. pose proof (F2R_pos (Zpos my) ey ltac:(lia)) as Hmy.
    destruct f as [sf|sf| |[|] mf ef]; try discriminate.
    + apply SF_signed_ge_R; [|simpl; lra].
      simpl. apply binary_round_aux_signed. lia.
    + apply SF_signed_ge_R;
        [|simpl; pose proof (F2R_pos (Zpos mf) ef ltac:(lia)); lra].
      simpl. apply binary_round_aux_signed. lia.
    + apply SFmul_pos_lower; auto. simpl in Hle. nra.
Qed.

Lemma leb_le_R (x f : float) :
  is_finite f = true -> (x <=? f) = true -> SF_le_R (Prim2SF x) (B2R f).
Proof.
  rewrite is_finite_spec, FloatAxioms.leb_spec. unfold B2R. intros Ff Hle.
  pose proof (Prim2SF_valid x) as Vx. pose proof (Prim2SF_valid f) as Vf.
  destruct (SF_finite (Prim2SF x)) eqn:Fx.
  - apply SFleb_spec in Hle; auto.
    destruct (Prim2SF x); simpl in *; try discriminate; lra.
  - destruct (Prim2SF x) as [sx|[|]| |sx mx ex], (Prim2SF f) as [sf|sf| |sf mf ef];
      try discriminate; try reflexivity; destruct sf; discriminate.
Qed.

Lemma leb_ge_R (f x : float) :
  is_finite f = true -> (f <=? x) = true -> SF_ge_R (Prim2SF x) (B2R f).
Proof.
  rewrite is_finite_spec, FloatAxioms.leb_spec. unfold B2R. intros Ff Hle.
  pose proof (Prim2SF_valid x) as Vx. pose proof (Prim2SF_valid f) as Vf.
  destruct (SF_finite (Prim2SF x)) eqn:Fx.
  - apply SFleb_spec in Hle; auto.
    destruct (Prim2SF x); simpl in *; try discriminate; lra.
  - destruct (Prim2SF x) as [sx|[|]| |sx mx ex], (Prim2SF f) as [sf|sf| |sf mf ef];
      try discriminate; try reflexivity; destruct sf; discriminate.
Qed.

Lemma le_R_leb (x f : float) :
  is_finite f = true -> SF_le_R (Prim2SF x) (B2R f) -> (x <=? f) = true.
Proof.
  rewrite is_finite_spec, FloatAxioms.leb_spec. intros Ff Hle.
  apply SFleb_of_le_R; auto using Prim2SF_valid.
Qed.

Lemma ge_R_leb (f x : float) :
  is_finite f = true -> SF_ge_R (Prim2SF x) (B2R f) -> (f <=? x) = true.
Proof.
  rewrite is_finite_spec, FloatAxioms.leb_spec. intros Ff Hle.
  apply SFleb_of_ge_R; auto using Prim2SF_valid.
Qed.

Lemma add_le_R (x y f : float) (vx vy : R) :
  SF_le_R (Prim2SF x) vx -> SF_le_R (Prim2SF y) vy ->
  is_finite f = true -> (vx + vy <= B2R f)%R ->
  SF_le_R (Prim2SF (x + y)) (B2R f).
Proof.
  rewrite is_finite_spec, add_spec. intros Hx Hy Ff Hle.
  apply (SFadd_le_R _ _ _ vx vy); auto using Prim2SF_valid.
Qed.

Lemma add_ge_R (x y f : float) (vx vy : R) :
  SF_ge_R (Prim2SF x) vx -> SF_ge_R (Prim2SF y) vy ->
  is_finite f = true -> (B2R f <= vx + vy)%R ->
  SF_ge_R (Prim2SF (x + y)) (B2R f).
Proof.
  rewrite is_finite_spec, add_spec. intros Hx Hy Ff Hle.
  apply (SFadd_ge_R _ _ _ vx vy); auto using Prim2SF_valid.
Qed.

Lemma sub_le_R (x y f : float) (vx vy : R) :
  SF_le_R (Prim2SF x) vx -> SF_ge_R (Prim2SF y) vy ->
  is_finite f = true -> (vx - vy <= B2R f)%R ->
  SF_le_R (Prim2SF (x - y)) (B2R f).
Proof.
  rewrite is_finite_spec, sub_spec. intros Hx Hy Ff Hle.
  apply (SFsub_le_R _ _ _ vx vy); auto using Prim2SF_valid.
Qed.

Lemma sub_ge_R (x y f : float) (vx vy : R) :
  SF_ge_R (Prim2SF x) vx -> SF_le_R (Prim2SF y) vy ->
  is_finite f = true -> (B2R f <= vx - vy)%R ->
  SF_ge_R (Prim2SF (x - y)) (B2R f).
Proof.
  rewrite is_finite_spec, sub_spec. intros Hx Hy Ff Hle.
  apply (SFsub_ge_R _ _ _ vx vy); auto using Prim2SF_valid.
Qed.

Lemma mul_pos_le_R (k y f : float) (vy : R) :
  (0 < B2R k)%R -> SF_le_R (Prim2SF y) vy ->
  is_finite f = true -> (B2R k * vy <= B2R f)%R ->
  SF_le_R (Prim2SF (k * y)) (B2R f).
Proof.
  rewrite is_finite_spec, mul_spec. intros Hk Hy Ff Hle.
  destruct (B2R_pos_inv k Hk) as (mk & ek & Ek).
  pose proof (Prim2SF_valid k) as Vk. unfold B2R in *. rewrite Ek in *.
  apply (SFmul_pos_le_R _ _ _ _ vy); auto using Prim2SF_valid.
Qed.

Lemma mul_pos_ge_R (k y f : float) (vy : R) :
  (0 < B2R k)%R -> SF_ge_R (Prim2SF y) vy ->
  is_finite f = true -> (B2R f <= B2R k * vy)%R ->
  SF_ge_R (Prim2SF (k * y)) (B2R f).
Proof.
  rewrite is_finite_spec, mul_spec. intros Hk Hy Ff Hle.
  destruct (B2R_pos_inv k Hk) as (mk & ek & Ek).
  pose proof (Prim2SF_valid k) as Vk. unfold B2R in *. rewrite Ek in *.
  apply (SFmul_pos_ge_R _ _ _ _ vy); auto using Prim2SF_valid.
Qed.

Lemma const_le_R (k : float) :
  is_finite k = true -> SF_le_R (Prim2SF k) (B2R k).
Proof. rewrite is_finite_spec. apply SF_le_R_finite. Qed.

Lemma const_ge_R (k : float) :
  is_finite k = true -> SF_ge_R (Prim2SF k) (B2R k).
Proof. rewrite is_finite_spec. apply SF_ge_R_finite. Qed.

(** ** The real value of a constant *)

Lemma B2R_ratio (x : float) (n d : Z) :
  match Prim2SF x with
  | S754_zero _ => (n =? 0)%Z && (0 <? d)%Z
  | S754_finite s m e =>
      (e <=? 0)%Z && (cond_Zopp s (Zpos m) =? n)%Z && (2 ^ (- e) =? d)%Z
  | _ => false
  end = true ->
  B2R x = (IZR n / IZR d)%R.
Proof.
  unfold B2R. destruct (Prim2SF x) as [s|s| |s m e]; try discriminate.
  - rewrite andb_true_iff, Z.eqb_eq, Z.ltb_lt. intros [-> Hd]. simpl.
    unfold Rdiv. lra.
  - rewrite !andb_true_iff, Z.leb_le, !Z.eqb_eq. intros [[He Hn] Hd].
    assert (Hp : pow2 e = (/ IZR d)%R).
    { subst d. rewrite <- pow2_IZR by lia. unfold pow2.
      replace e with (- - e)%Z at 1 by lia.
      rewrite (powerRZ_neg' 2 (- e)). reflexivity. }
    subst n. unfold Rdiv. rewrite <- Hp.
    destruct s; simpl; unfold F2R; [|lra].
    change (Z.neg m) with (- Z.pos m)%Z. rewrite opp_IZR. lra.
Qed.

Lemma B2R_int (x : float) (n : Z) :
  match Prim2SF x with
  | S754_zero _ => (n =? 0)%Z
  | S754_finite s m e =>
      (e <=? 0)%Z && (cond_Zopp s (Zpos m) =? n * 2 ^ (- e))%Z
  | _ => false
  end = true ->
  B2R x = IZR n.
Proof.
  unfold B2R. destruct (Prim2SF x) as [s|s| |s m e]; try discriminate.
  - rewrite Z.eqb_eq. intros ->. reflexivity.
  - rewrite andb_true_iff, Z.leb_le, Z.eqb_eq. intros [He Hn].
    assert (Hv : F2R (cond_Zopp s (Zpos m)) e = IZR n).
    { rewrite Hn. unfold F2R. rewrite mult_IZR, <- pow2_IZR by lia.
      rewrite Rmult_assoc, <- pow2_add.
      replace (- e + e)%Z with 0%Z by lia. rewrite pow2_0. lra. }
    rewrite <- Hv. symmetry. apply F2R_cond_Zopp.
Qed.

Create Rewrite HintDb constants.

#[local] Hint Rewrite
  (B2R_int 0 0 eq_refl) (B2R_int 1 1 eq_refl) (B2R_int 3 3 eq_refl)
  (B2R_int 5 5 eq_refl) (B2R_int 10 10 eq_refl) (B2R_int 20 20 eq_refl)
  (B2R_int 25 25 eq_refl) (B2R_int 30 30 eq_refl) (B2R_int 50 50 eq_refl)
  (B2R_int 75 75 eq_refl) (B2R_int 100 100 eq_refl)
  (B2R_int 200 200 eq_refl) (B2R_int 300 300 eq_refl)
  (B2R_int (-5) (-5) eq_refl) (B2R_int (-10) (-10) eq_refl)
  (B2R_int (-15) (-15) eq_refl) (B2R_int (-25) (-25) eq_refl)
  (B2R_int (-50) (-50) eq_refl) (B2R_int (-75) (-75) eq_refl)
  (B2R_int (-100) (-100) eq_refl)
  (B2R_ratio 0.2 7205759403792794 36028797018963968 eq_refl)
  (B2R_ratio 0.4 7205759403792794 18014398509481984 eq_refl)
  (B2R_ratio 1.125 5066549580791808 4503599627370496 eq_refl)
  (B2R_ratio (-0.125) (-4503599627370496) 36028797018963968 eq_refl)
  : constants.

(** ** The rows of the empirical table, on each side *)

Lemma sand_first_row_le (N hi d p q : float) :
  is_finite hi = true -> is_finite d = true -> is_finite p = true ->
  is_finite q = true ->
  (B2R hi - 5 <= B2R d)%R -> (5 * B2R d <= B2R p)%R -> (50 + B2R p <= B2R q)%R ->
  (N <=? hi) = true -> (50 + 5 * (N - 5) <=? q) = true.
Proof.
  intros Fh Fd Fp Fq Hd Hp Hq HN.
  apply le_R_leb; [exact Fq|].
  apply (add_le_R _ _ _ 50 (B2R p)); auto.
  { generalize (const_le_R 50 eq_refl). autorewrite with constants in *. auto. }
  apply (mul_pos_le_R _ _ _ (B2R d)); auto.
  { autorewrite with constants in *. lra. }
  2:{ autorewrite with constants in *. lra. }
  apply (sub_le_R _ _ _ (B2R hi) 5); auto.
  - apply leb_le_R; auto.
  - generalize (const_ge_R 5 eq_refl). autorewrite with constants in *. auto.
Qed.

Lemma sand_first_row_ge (N lo d p q : float) :
  is_finite lo = true -> is_finite d = true -> is_finite p = true ->
  is_finite q = true ->
  (B2R d <= B2R lo - 5)%R -> (B2R p <= 5 * B2R d)%R -> (B2R q <= 50 + B2R p)%R ->
  (lo <=? N) = true -> (q <=? 50 + 5 * (N - 5)) = true.
Proof.
  intros Fh Fd Fp Fq Hd Hp Hq HN.
  apply ge_R_leb; [exact Fq|].
  apply (add_ge_R _ _ _ 50 (B2R p)); auto.
  { generalize (const_ge_R 50 eq_refl). autorewrite with constants in *. auto. }
  apply (mul_pos_ge_R _ _ _ (B2R d)); auto.
  { autorewrite with constants in *. lra. }
  2:{ autorewrite with constants in *. lra. }
  apply (sub_ge_R _ _ _ (B2R lo) 5); auto.
  - apply leb_ge_R; auto.
  - generalize (const_le_R 5 eq_refl). autorewrite with constants in *. auto.
Qed.

Lemma sand_second_row_le (N hi d p q : float) :
  is_finite hi = true -> is_finite d = true -> is_finite p = true ->
  is_finite q = true ->
  (B2R hi - 10 <= B2R d)%R -> (10 * B2R d <= B2R p)%R ->
  (100 + B2R p <= B2R q)%R ->
  (N <=? hi) = true -> (100 + 10 * (N - 10) <=? q) = true.
Proof.
  intros Fh Fd Fp Fq Hd Hp Hq HN.
  apply le_R_leb; [exact Fq|].
  apply (add_le_R _ _ _ 100 (B2R p)); auto.
  { generalize (const_le_R 100 eq_refl). autorewrite with constants in *. auto. }
  apply (mul_pos_le_R _ _ _ (B2R d)); auto.
  { autorewrite with constants in *. lra. }
  2:{ autorewrite with constants in *. lra. }
  apply (sub_le_R _ _ _ (B2R hi) 10); auto.
  - apply leb_le_R; auto.
  - generalize (const_ge_R 10 eq_refl). autorewrite with constants in *. auto.
Qed.

Lemma sand_second_row_ge (N lo d p q : float) :
  is_finite lo = true -> is_finite d = true -> is_finite p = true ->
  is_finite q = true ->
  (B2R d <= B2R lo - 10)%R -> (B2R p <= 10 * B2R d)%R ->
  (B2R q <= 100 + B2R p)%R ->
  (lo <=? N) = true -> (q <=? 100 + 10 * (N - 10)) = true.
Proof.
  intros Fh Fd Fp Fq Hd Hp Hq HN.
  apply ge_R_leb; [exact Fq|].
  apply (add_ge_R _ _ _ 100 (B2R p)); auto.
  { generalize (const_ge_R 100 eq_refl). autorewrite with constants in *. auto. }
  apply (mul_pos_ge_R _ _ _ (B2R d)); auto.
  { autorewrite with constants in *. lra. }
  2:{ autorewrite with constants in *. lra. }
  apply (sub_ge_R _ _ _ (B2R lo) 10); auto.
  - apply leb_ge_R; auto.
  - generalize (const_le_R 10 eq_refl). autorewrite with constants in *. auto.
Qed.

Lemma c_phi_row_ge (N lo p q : float) :
  is_finite lo = true -> is_finite p = true -> is_finite q = true ->
  (B2R p <= 10 * B2R lo)%R -> (B2R q <= 100 + B2R p)%R ->
  (lo <=? N) = true -> (q <=? 100 + 10 * N) = true.
Proof.
  intros Fh Fp Fq Hp Hq HN.
  apply ge_R_leb; [exact Fq|].
  apply (add_ge_R _ _ _ 100 (B2R p)); auto.
  { generalize (const_ge_R 100 eq_refl). autorewrite with constants in *. auto. }
  apply (mul_pos_ge_R _ _ _ (B2R lo)); auto.
  { autorewrite with constants in *. lra. }
  2:{ autorewrite with constants in *. lra. }
  apply leb_ge_R; auto.
Qed.

Lemma c_phi_row_le (N hi p q : float) :
  is_finite hi = true -> is_finite p = true -> is_finite q = true ->
  (10 * B2R hi <= B2R p)%R -> (100 + B2R p <= B2R q)%R ->
  (N <=? hi) = true -> (100 + 10 * N <=? q) = true.
Proof.
  intros Fh Fp Fq Hp Hq HN.
  apply le_R_leb; [exact Fq|].
  apply (add_le_R _ _ _ 100 (B2R p)); auto.
  { generalize (const_le_R 100 eq_refl). autorewrite with constants in *. auto. }
  apply (mul_pos_le_R _ _ _ (B2R hi)); auto.
  { autorewrite with constants in *. lra. }
  2:{ autorewrite with constants in *. lra. }
  apply leb_le_R; auto.
Qed.

(** ** The ratio of the effective dimensions *)

(** The ratio of two dimensions that are at least 0.1 is not negative. *)
Lemma ratio_ge_R (a b : float) :
  (0.1 <=? a) = true -> (0.1 <=? b) = true -> is_nan (a / b) = false ->
  SF_ge_R (Prim2SF (a / b)) 0.
Proof.
  rewrite !FloatAxioms.leb_spec, is_nan_spec, div_spec.
  remember (Prim2SF 0.1) as k eqn:Hk. vm_compute in Hk. subst k.
  unfold SFleb.
  destruct (Prim2SF a) as [[|]|[|]| |[|] ma ea]; try discriminate; intros _;
    destruct (Prim2SF b) as [[|]|[|]| |[|] mb eb]; try discriminate; intros _;
    try discriminate; intros _; try (simpl; lra); try reflexivity.
  apply SF_signed_ge_R; [|lra]. simpl.
  pose proof (SFdiv_core_binary_spec ma mb ea eb) as Hd.
  destruct (SFdiv_core_binary prec emax (Zpos ma) ea (Zpos mb) eb) as [[q e'] l].
  destruct Hd as (r & _ & _ & _ & Hq & _).
  apply binary_round_aux_signed, Hq.
Qed.

Lemma shape_sc_ge (ratio : float) :
  SF_ge_R (Prim2SF ratio) 0 -> (1 <=? 1 + 0.2 * ratio) = true.
Proof.
  intros Hr. apply ge_R_leb; [reflexivity|].
  apply (add_ge_R _ _ _ 1 (B2R 0)); [| |reflexivity|autorewrite with constants in *; lra].
  { generalize (const_ge_R 1 eq_refl). autorewrite with constants in *. auto. }
  apply (mul_pos_ge_R _ _ _ 0); auto; autorewrite with constants in *; lra.
Qed.

Lemma shape_sgamma_le (ratio : float) :
  SF_ge_R (Prim2SF ratio) 0 -> (1 - 0.4 * ratio <=? 1) = true.
Proof.
  intros Hr. apply le_R_leb; [reflexivity|].
  apply (sub_le_R _ _ _ 1 (B2R 0)); [| |reflexivity|autorewrite with constants in *; lra].
  { generalize (const_le_R 1 eq_refl). autorewrite with constants in *. auto. }
  apply (mul_pos_ge_R _ _ _ 0); auto; autorewrite with constants in *; lra.
Qed.

Lemma shape_sgamma_negative (ratio : float) :
  (3 <=? ratio) = true -> (1 - 0.4 * ratio <? 0) = true.
Proof.
  intros Hr. apply (leb_ltb_trans _ (-0.125)); [|reflexivity].
  apply le_R_leb; [reflexivity|].
  apply (sub_le_R _ _ _ 1 (B2R 1.125)); [| |reflexivity|autorewrite with constants in *; lra].
  { generalize (const_le_R 1 eq_refl). autorewrite with constants in *. auto. }
  apply (mul_pos_ge_R _ _ _ 3); [autorewrite with constants in *; lra| |reflexivity|
                                 autorewrite with constants in *; lra].
  generalize (leb_ge_R 3 ratio eq_refl Hr). autorewrite with constants in *. auto.
Qed.

Lemma effective_ratio_ge_R `{HostMath}
    (soil : SoilProperties) (foundation : FoundationProperties)
    (load : LoadingConditions) (water_table_depth : option float) (FOS : float) :
  let r := calculateBearingCapacity soil foundation load water_table_depth FOS in
  is_nan (B_prime r / L_prime r) = false ->
  SF_ge_R (Prim2SF (B_prime r / L_prime r)) 0.
Proof.
  intros r Hn.
  assert (NB : is_nan (B_prime r) = false).
  { destruct (is_nan (B_prime r)) eqn:E; [|reflexivity].
    rewrite (div_nan_l _ _ E) in Hn. discriminate. }
  assert (NL : is_nan (L_prime r) = false).
  { destruct (is_nan (L_prime r)) eqn:E; [|reflexivity].
    rewrite (div_nan_r _ _ E) in Hn. discriminate. }
  apply ratio_ge_R; [| |exact Hn].
  - subst r. rewrite B_prime_field in *.
    match goal with |- context [Math_max ?x 0.1] => destruct (is_nan x) eqn:E end;
      [rewrite (Math_max_nan _ E) in NB; discriminate|].
    apply Math_max_ge_floor, E.
  - subst r. rewrite L_prime_field in *.
    match goal with |- context [Math_max ?x 0.1] => destruct (is_nan x) eqn:E end;
      [rewrite (Math_max_nan _ E) in NL; discriminate|].
    apply Math_max_ge_floor, E.
Qed.

(** ** Division by one *)

Lemma canonical_inj (m1 m2 : positive) (e1 e2 : Z) :
  canonical_mantissa prec emax m1 e1 = true ->
  canonical_mantissa prec emax m2 e2 = true ->
  F2R (Zpos m1) e1 = F2R (Zpos m2) e2 -> m1 = m2 /\ e1 = e2.
Proof.
  intros C1 C2 Hv. pose proof (compare_canonical m1 m2 e1 e2 C1 C2) as Hc.
  destruct (e1 ?= e2)%Z eqn:He; simpl in Hc; try lra.
  apply Z.compare_eq in He.
  destruct (Pos.compare m1 m2) eqn:Hm; simpl in Hc; try lra.
  apply Pos.compare_eq in Hm. auto.
Qed.

(** The quotient of a binary64 number by one is the number: the division is
    exact and the rounding leaves it. *)
Lemma SFdiv_one (s : bool) (m : positive) (e : Z) :
  valid_binary (S754_finite s m e) = true ->
  valid_binary (SFdiv prec emax (S754_finite s m e)
                  (S754_finite false (2 ^ 52) (-52))) = true ->
  SFdiv prec emax (S754_finite s m e) (S754_finite false (2 ^ 52) (-52))
  = S754_finite s m e.
Proof.
  intros Vx Vo.
  pose proof (valid_canonical _ _ _ Vx) as Cx.
  assert (Bx : SpecFloat.bounded prec emax m e = true) by exact Vx.
  unfold SFdiv in *.
  pose proof (SFdiv_core_binary_spec m (2 ^ 52) e (-52)) as Hd.
  destruct (SFdiv_core_binary prec emax (Zpos m) e (Zpos (2 ^ 52)) (-52))
    as [[q e'] l].
  destruct Hd as (r & He' & Hdiv & Hr & Hq & Hup).
  change (Zpos (digits2_pos (2 ^ 52))) with 53%Z in He'.
  change (Zpos (2 ^ 52)) with (2 ^ 52)%Z in *.
  pose proof (digits2_pos_bounds m) as Hdig.
  set (d := Zpos (digits2_pos m)) in *.
  assert (Hd0 : (0 < d)%Z) by (subst d; lia).
  assert (Hcan : e = Z.max (d + e - 53) (-1074)).
  { pose proof Cx as Cx'. apply Z.eqb_eq in Cx'. revert Cx'. unfold_fexp.
    fold d. lia. }
  assert (He'' : e' = Z.max (d + e - 54) (-1074)).
  { rewrite He'. unfold_fexp. lia. }
  assert (Hle : (e' <= e)%Z) by lia.
  assert (Hs : (e - -52 - e' = 52 + (e - e'))%Z) by lia.
  rewrite Hs, Z.pow_add_r in Hdiv by lia.
  set (a := (Zpos m * 2 ^ (e - e'))%Z) in *.
  assert (Ha : (Zpos m * (2 ^ 52 * 2 ^ (e - e')) = a * 2 ^ 52)%Z)
    by (subst a; ring).
  rewrite Ha in Hdiv. clear Ha.
  change (2 ^ 52)%Z with 4503599627370496%Z in Hdiv, Hr.
  assert (Hr0 : r = 0%Z) by lia.
  assert (Hqa : q = a) by lia.
  rewrite Hr0 in Hup. simpl in Hup.
  assert (Hval : F2R q e' = F2R (Zpos m) e).
  { rewrite Hqa. subst a. symmetry. apply F2R_shift, Hle. }
  assert (Hfexp : (e' <= fexp prec emax (Zdigits2 q + e'))%Z).
  { unfold_fexp.
    destruct (Z.eq_dec e' (-1074)) as [E|E]; [lia|].
    assert (He3 : e' = (d + e - 54)%Z) by lia.
    assert (Hd53 : (d <= 53)%Z) by lia.
    assert (H53 : (2 ^ 53 <= q)%Z).
    { rewrite Hqa. subst a.
      replace (e - e')%Z with (54 - d)%Z by lia.
      replace 53%Z with ((d - 1) + (54 - d))%Z at 1 by lia.
      rewrite Z.pow_add_r by lia.
      apply Z.mul_le_mono_nonneg_r; [apply Z.pow_nonneg; lia|].
      apply Hdig. }
    pose proof (Zdigits2_ge q 53 ltac:(lia) H53). lia. }
  pose proof (binary_round_aux_lower (xorb s false) q e' l m e Hq Cx
                ltac:(rewrite Hval; lra)) as Hlow.
  pose proof (binary_round_aux_upper (xorb s false) q e' l m e Hq Hfexp Bx
                ltac:(rewrite Hup, Hval; lra)) as Hupp.
  pose proof (binary_round_aux_signed (xorb s false) q e' l Hq) as Hsign.
  pose proof (F2R_pos (Zpos m) e ltac:(lia)) as Hpos.
  destruct (binary_round_aux prec emax (xorb s false) q e' l)
    as [so|so| |so mo eo]; simpl in Hlow, Hupp, Hsign; try tauto; try lra.
  pose proof (valid_canonical _ _ _ Vo) as Co.
  destruct (canonical_inj mo m eo e Co Cx ltac:(lra)) as [-> ->].
  subst so. destruct s; reflexivity.
Qed.

Lemma div_one (x : float) : x / 1 = x.
Proof.
  apply Prim2SF_inj. pose proof (Prim2SF_valid (x / 1)) as Vo.
  pose proof (Prim2SF_valid x) as Vx. rewrite div_spec in *.
  change (Prim2SF 1) with (S754_finite false (2 ^ 52) (-52)) in *.
  destruct (Prim2SF x) as [[|]|[|]| |s m e]; try reflexivity.
  apply SFdiv_one; assumption.
Qed.

(** ** Rounding is monotone *)

Lemma iter_shr_1_loc (k : nat) (m : Z) :
  (0 <= m)%Z ->
  let mrs := Nat.iter (S k) shr_1 (Build_shr_record m false false) in
  shr_m mrs = (m / 2 ^ Z.of_nat (S k))%Z
  /\ shr_r mrs = Z.odd (m / 2 ^ Z.of_nat k)
  /\ (shr_s mrs = false <-> (m mod 2 ^ Z.of_nat k = 0)%Z).
Proof.
  intros Hm mrs.
  pose proof (iter_shr_1_spec (S k) m false false Hm) as [HS _].
  pose proof (iter_shr_1_spec k m false false Hm) as Hk. cbv zeta in Hk, HS.
  subst mrs. split; [exact HS|]. clear HS. rewrite Nat.iter_succ.
  destruct (Nat.iter k shr_1 (Build_shr_record m false false)) as [mk rk sk].
  cbn [shr_m shr_r shr_s] in Hk. destruct Hk as [Hq Hl].
  assert (Hmk : (0 <= mk)%Z).
  { subst mk. apply Z.div_pos; [lia|apply Z.pow_pos_nonneg; lia]. }
  rewrite (shr_1_spec mk rk sk Hmk). cbn [shr_r shr_s].
  split; [congruence|]. rewrite Hl. tauto.
Qed.

Lemma nearest_even_0 (m : Z) : nearest_even m 0 = m.
Proof.
  unfold nearest_even. rewrite Z.pow_0_r, Z.div_1_r, Z.mod_1_r. reflexivity.
Qed.

Lemma shr_exact_round (m e n : Z) :
  (0 <= m)%Z -> (0 <= n)%Z ->
  let '(mrs, e') := shr (shr_record_of_loc m loc_Exact) e n in
  e' = (e + n)%Z
  /\ round_nearest_even (shr_m mrs) (loc_of_shr_record mrs) = nearest_even m n.
Proof.
  intros Hm Hn. destruct n as [|p|p]; try lia; simpl shr.
  - split; [lia|]. rewrite nearest_even_0. reflexivity.
  - split; [reflexivity|]. rewrite iter_pos_nat.
    destruct (Pos2Nat.is_succ p) as [k Hk]. rewrite Hk.
    pose proof (iter_shr_1_loc k m Hm) as Hloc. cbv zeta in Hloc.
    assert (Hp : Zpos p = Z.of_nat (S k)) by lia.
    rewrite Hp. rewrite Nat2Z.inj_succ in *.
    destruct (Nat.iter (S k) shr_1 _) as [mk rk sk].
    cbn [shr_m shr_r shr_s] in Hloc. destruct Hloc as (Hq & Hr & Hs).
    unfold nearest_even. rewrite <- Hq.
    set (K := Z.of_nat k) in *.
    assert (HK : (0 <= K)%Z) by lia.
    assert (Hpow : (0 < 2 ^ K)%Z) by (apply Z.pow_pos_nonneg; lia).
    rewrite Z.pow_succ_r by lia.
    assert (Hsplit : (m mod (2 * 2 ^ K)
                      = m mod 2 ^ K + 2 ^ K * ((m / 2 ^ K) mod 2))%Z).
    { rewrite Z.mul_comm, Z.rem_mul_r by lia. reflexivity. }
    pose proof (Z.mod_pos_bound m (2 ^ K) Hpow) as Hb.
    rewrite Hsplit, Zmod_odd, <- Hr.
    destruct rk.
    + destruct sk.
      * assert (m mod 2 ^ K <> 0)%Z by (intros E; apply Hs in E; discriminate).
        cbn [loc_of_shr_record round_nearest_even].
        destruct (Z.ltb_spec (2 * (m mod 2 ^ K + 2 ^ K * 1)) (2 * 2 ^ K)); [lia|].
        destruct (Z.eqb_spec (2 * (m mod 2 ^ K + 2 ^ K * 1)) (2 * 2 ^ K)); [lia|].
        reflexivity.
      * assert (m mod 2 ^ K = 0)%Z by (apply Hs; reflexivity).
        cbn [loc_of_shr_record round_nearest_even].
        destruct (Z.ltb_spec (2 * (m mod 2 ^ K + 2 ^ K * 1)) (2 * 2 ^ K)); [lia|].
        destruct (Z.eqb_spec (2 * (m mod 2 ^ K + 2 ^ K * 1)) (2 * 2 ^ K)); [|lia].
        reflexivity.
    + destruct (Z.ltb_spec (2 * (m mod 2 ^ K + 2 ^ K * 0)) (2 * 2 ^ K)); [|lia].
      destruct sk; reflexivity.
Qed.

Lemma nearest_even_bounds (m n : Z) :
  (m / 2 ^ n <= nearest_even m n <= m / 2 ^ n + 1)%Z.
Proof.
  unfold nearest_even.
  destruct (_ <? _)%Z; [lia|]. destruct (_ =? _)%Z; [|lia].
  destruct (Z.even _); lia.
Qed.

Lemma Zdigits2_unique (m d : Z) :
  (0 < d)%Z -> (2 ^ (d - 1) <= m < 2 ^ d)%Z -> Zdigits2 m = d.
Proof.
  intros Hd [Hl Hu].
  assert (Hm : (0 < m)%Z).
  { pose proof (Z.pow_pos_nonneg 2 (d - 1) ltac:(lia) ltac:(lia)). lia. }
  pose proof (Zdigits2_bounds m Hm) as [Hl' Hu'].
  pose proof (Zdigits2_pos m Hm) as Hp.
  assert (d - 1 < Zdigits2 m)%Z.
  { apply (Z.pow_lt_mono_r_iff 2); lia. }
  assert (Zdigits2 m - 1 < d)%Z.
  { apply (Z.pow_lt_mono_r_iff 2); lia. }
  lia.
Qed.

Lemma Zdigits2_le (m d : Z) :
  (0 <= d)%Z -> (0 < m < 2 ^ d)%Z -> (Zdigits2 m <= d)%Z.
Proof.
  intros Hd [Hm Hu].
  pose proof (Zdigits2_bounds m Hm) as [Hl' Hu'].
  pose proof (Zdigits2_pos m Hm) as Hp.
  assert (Zdigits2 m - 1 < d)%Z.
  { apply (Z.pow_lt_mono_r_iff 2); lia. }
  lia.
Qed.

(** The truncated mantissa has at most 53 bits. *)
Lemma floor_lt_2_53 (m e : Z) :
  (0 < m)%Z ->
  let e' := fexp prec emax (Zdigits2 m + e) in
  (e <= e')%Z -> (m / 2 ^ (e' - e) < 2 ^ 53)%Z.
Proof.
  intros Hm e' He. destruct (Zdigits2_bounds m Hm) as [_ Hu].
  pose proof (Zdigits2_pos m Hm) as Hd.
  assert (Hpow : (0 < 2 ^ (e' - e))%Z) by (apply Z.pow_pos_nonneg; lia).
  apply Z.div_lt_upper_bound; [exact Hpow|].
  rewrite <- Z.pow_add_r by lia.
  eapply Z.lt_le_trans; [exact Hu|].
  apply Z.pow_le_mono_r; [lia|]. subst e'. unfold_fexp. lia.
Qed.

(** What [binary_round_aux] returns on an exact input: the nearest-even
    mantissa at the canonical exponent, renormalised. *)
Lemma binary_round_aux_exact_spec (s : bool) (m e : Z) :
  (0 < m)%Z ->
  let e' := fexp prec emax (Zdigits2 m + e) in
  (e <= e')%Z ->
  let mr := nearest_even m (e' - e) in
  let out := binary_round_aux prec emax s m e loc_Exact in
  (mr = 0%Z /\ out = S754_zero s)
  \/ (0 < mr)%Z
     /\ ((exists p e'', out = S754_finite s p e''
                        /\ F2R (Zpos p) e'' = F2R mr e'
                        /\ SpecFloat.bounded prec emax p e'' = true)
         \/ (out = S754_infinity s /\ (pow2 1024 <= F2R mr e')%R)).
Proof.
  intros Hm e' He mr out. subst out. unfold binary_round_aux, shr_fexp.
  fold e'.
  pose proof (shr_exact_round m e (e' - e) ltac:(lia) ltac:(lia)) as S1.
  destruct (shr (shr_record_of_loc m loc_Exact) e (e' - e)) as [mrs' e1].
  destruct S1 as [He1 Hround]. rewrite Hround. fold mr.
  replace e1 with e' by lia. clear He1 Hround mrs' e1.
  pose proof (nearest_even_bounds m (e' - e)) as Hmr. fold mr in Hmr.
  pose proof (floor_lt_2_53 m e Hm He) as Hq53. fold e' in Hq53.
  pose proof (floor_canonical m e Hm He) as Hq52. fold e' in Hq52.
  assert (Hq0 : (0 <= m / 2 ^ (e' - e))%Z).
  { apply Z.div_pos; [lia|apply Z.pow_pos_nonneg; lia]. }
  assert (He'min : (-1074 <= e')%Z) by (subst e'; unfold_fexp; lia).
  destruct (Z.eq_dec mr 0) as [Hz|Hnz].
  { left. split; [exact Hz|]. rewrite Hz. simpl Zdigits2.
    assert (Hn : (fexp prec emax (0 + e') - e' <= 0)%Z) by (unfold_fexp; lia).
    destruct (fexp prec emax (0 + e') - e')%Z; try lia; reflexivity. }
  right. assert (Hpos : (0 < mr)%Z) by lia. split; [exact Hpos|].
  pose proof (shr_spec mr loc_Exact e' (fexp prec emax (Zdigits2 mr + e') - e')
                ltac:(lia)) as S2.
  destruct (shr (shr_record_of_loc mr loc_Exact) e' _) as [mrs'' e''].
  destruct (Z.eq_dec mr (2 ^ 53)) as [Hcarry|Hnc].
  - (* the rounding carried into a 54th bit *)
    assert (Hd : Zdigits2 mr = 54%Z).
    { apply Zdigits2_unique; [lia|]. rewrite Hcarry. simpl. lia. }
    assert (Hn : (fexp prec emax (Zdigits2 mr + e') - e' = 1)%Z).
    { rewrite Hd. unfold_fexp. lia. }
    rewrite Hn in S2.
    destruct S2 as [(_ & -> & Hq & _)|(Habs & _)]; [|lia].
    rewrite Hq, Hcarry. change (2 ^ 53 / 2 ^ 1)%Z with (Zpos (2 ^ 52)).
    cbv iota.
    assert (Hval : F2R (Zpos (2 ^ 52)) (e' + 1) = F2R (2 ^ 53) e').
    { rewrite (F2R_shift (Zpos (2 ^ 52)) (e' + 1) e') by lia.
      replace (e' + 1 - e')%Z with 1%Z by lia. reflexivity. }
    destruct (Z.leb_spec (e' + 1) (emax - prec)) as [Hle|Hgt].
    + left. exists (2 ^ 52)%positive, (e' + 1)%Z.
      split; [reflexivity|]. split; [exact Hval|].
      unfold SpecFloat.bounded, canonical_mantissa. apply andb_true_iff.
      split; [|apply Z.leb_le; exact Hle].
      apply Z.eqb_eq. change (Zpos (digits2_pos (2 ^ 52))) with 53%Z.
      unfold_fexp. lia.
    + right. split; [reflexivity|].
      apply Rle_trans with (pow2 (53 + e')).
      * apply pow2_le. unfold FloatOps.emax, FloatOps.prec in Hgt. lia.
      * apply F2R_ge_pow2; lia.
  - (* it did not *)
    assert (Hlt : (mr < 2 ^ 53)%Z) by lia.
    assert (Hd : (Zdigits2 mr <= 53)%Z) by (apply Zdigits2_le; lia).
    assert (Hd' : (-1074 < e' -> Zdigits2 mr = 53)%Z).
    { intros Hhigh. apply Zdigits2_unique; [lia|]. specialize (Hq52 Hhigh).
      simpl. simpl in Hlt. lia. }
    pose proof (Zdigits2_pos mr Hpos) as Hdpos.
    assert (Hn : (fexp prec emax (Zdigits2 mr + e') - e' = 0)%Z).
    { destruct (Z.eq_dec e' (-1074)) as [E|E].
      - unfold_fexp. lia.
      - rewrite Hd' by lia. unfold_fexp. lia. }
    rewrite Hn in S2.
    destruct S2 as [(Habs & _)|(_ & -> & Hq & _)]; [lia|].
    rewrite Hq. destruct mr as [|p|p]; try lia.
    destruct (Z.leb_spec e' (emax - prec)) as [Hle|Hgt].
    + left. exists p, e'. split; [reflexivity|]. split; [reflexivity|].
      unfold SpecFloat.bounded, canonical_mantissa. apply andb_true_iff.
      split; [|apply Z.leb_le; exact Hle].
      apply Z.eqb_eq. change (Zpos (digits2_pos p)) with (Zdigits2 (Zpos p)).
      lia.
    + right. split; [reflexivity|].
      assert (Hhigh : (-1074 < e')%Z)
        by (unfold FloatOps.emax, FloatOps.prec in Hgt; lia).
      specialize (Hq52 Hhigh).
      apply Rle_trans with (pow2 (52 + e')).
      * apply pow2_le. unfold FloatOps.emax, FloatOps.prec in Hgt. lia.
      * apply F2R_ge_pow2; lia.
Qed.

Lemma binary_round_aux_rounds (s : bool) (m e : Z) :
  (0 < m)%Z -> (e <= fexp prec emax (Zdigits2 m + e))%Z ->
  SF_rounds s (round_R m e) (binary_round_aux prec emax s m e loc_Exact).
Proof.
  intros Hm He. unfold round_R. rewrite (proj2 (Z.leb_le _ _) He).
  pose proof (binary_round_aux_exact_spec s m e Hm He) as Hspec.
  cbv zeta in Hspec. unfold SF_rounds.
  set (e' := fexp prec emax (Zdigits2 m + e)) in *.
  set (mr := nearest_even m (e' - e)) in *.
  destruct Hspec as [[Hz Ho]|[Hpos Ho]].
  - left. rewrite Hz, F2R_0. auto.
  - right. split; [apply F2R_pos, Hpos|]. exact Ho.
Qed.

Lemma pow2_lt_inv (a b : Z) : (pow2 a < pow2 b)%R -> (a < b)%Z.
Proof.
  intros Hlt. destruct (Z.lt_ge_cases a b) as [|Hge]; [assumption|exfalso].
  pose proof (pow2_le b a ltac:(lia)). lra.
Qed.

Lemma F2R_le_inv (m1 m2 e : Z) : (F2R m1 e <= F2R m2 e)%R -> (m1 <= m2)%Z.
Proof.
  intros Hle. destruct (Z.le_gt_cases m1 m2) as [|Hgt]; [assumption|exfalso].
  pose proof (F2R_lt m2 m1 e ltac:(lia)). lra.
Qed.

Lemma nearest_even_monotone (M1 M2 N : Z) :
  (0 <= N)%Z -> (0 <= M1 <= M2)%Z ->
  (nearest_even M1 N <= nearest_even M2 N)%Z.
Proof.
  intros HN [H1 H12].
  assert (HP : (0 < 2 ^ N)%Z) by (apply Z.pow_pos_nonneg; lia).
  pose proof (Z.div_le_mono M1 M2 (2 ^ N) HP H12) as Hq.
  pose proof (nearest_even_bounds M1 N) as B1.
  pose proof (nearest_even_bounds M2 N) as B2.
  destruct (Z.eq_dec (M1 / 2 ^ N) (M2 / 2 ^ N)) as [E|NE]; [|lia].
  pose proof (Z.div_mod M1 (2 ^ N) ltac:(lia)) as D1.
  pose proof (Z.div_mod M2 (2 ^ N) ltac:(lia)) as D2.
  unfold nearest_even. rewrite <- E in *.
  set (P := (2 ^ N)%Z) in *. set (q := (M1 / P)%Z) in *.
  set (r1 := (M1 mod P)%Z) in *. set (r2 := (M2 mod P)%Z) in *.
  assert (Hr : (r1 <= r2)%Z) by nia.
  destruct (Z.ltb_spec (2 * r1) P), (Z.ltb_spec (2 * r2) P),
           (Z.eqb_spec (2 * r1) P), (Z.eqb_spec (2 * r2) P),
           (Z.even q); lia.
Qed.

Lemma nearest_even_scale (m n a : Z) :
  (0 <= n)%Z -> (0 <= a)%Z ->
  nearest_even (m * 2 ^ a) (n + a) = nearest_even m n.
Proof.
  intros Hn Ha. unfold nearest_even.
  assert (HA : (0 < 2 ^ a)%Z) by (apply Z.pow_pos_nonneg; lia).
  assert (HP : (0 < 2 ^ n)%Z) by (apply Z.pow_pos_nonneg; lia).
  rewrite Z.pow_add_r by lia.
  rewrite Z.div_mul_cancel_r by lia.
  rewrite Z.mul_mod_distr_r by lia.
  set (A := (2 ^ a)%Z) in *. set (P := (2 ^ n)%Z) in *.
  set (r := (m mod P)%Z). set (q := (m / P)%Z).
  destruct (Z.ltb_spec (2 * (r * A)) (P * A)), (Z.ltb_spec (2 * r) P);
    try reflexivity; try nia.
  destruct (Z.eqb_spec (2 * (r * A)) (P * A)), (Z.eqb_spec (2 * r) P);
    try reflexivity; nia.
Qed.

(** The rounded value grows with the value, for values in the range where
    rounding truncates. *)
Lemma rounded_value_monotone (m1 e1 m2 e2 : Z) :
  (0 < m1)%Z -> (0 < m2)%Z ->
  let e1' := fexp prec emax (Zdigits2 m1 + e1) in
  let e2' := fexp prec emax (Zdigits2 m2 + e2) in
  (e1 <= e1')%Z -> (e2 <= e2')%Z ->
  (F2R m1 e1 <= F2R m2 e2)%R ->
  (F2R (nearest_even m1 (e1' - e1)) e1' <= F2R (nearest_even m2 (e2' - e2)) e2')%R.
Proof.
  intros Hm1 Hm2 e1' e2' He1 He2 Hle.
  destruct (Zdigits2_bounds m1 Hm1) as [Hl1 Hu1].
  destruct (Zdigits2_bounds m2 Hm2) as [Hl2 Hu2].
  pose proof (Zdigits2_pos m1 Hm1) as Hd1.
  pose proof (Zdigits2_pos m2 Hm2) as Hd2.
  assert (HE : (Zdigits2 m1 + e1 <= Zdigits2 m2 + e2)%Z).
  { pose proof (F2R_ge_pow2 m1 e1 (Zdigits2 m1 - 1) ltac:(lia) Hl1) as Hlow.
    pose proof (F2R_lt_pow2 m2 e2 (Zdigits2 m2) ltac:(lia) Hu2) as Hupp.
    assert (Hpow : (pow2 (Zdigits2 m1 - 1 + e1) < pow2 (Zdigits2 m2 + e2))%R)
      by lra.
    pose proof (pow2_lt_inv _ _ Hpow). lia. }
  assert (He' : (e1' <= e2')%Z) by (subst e1' e2'; unfold_fexp; lia).
  pose proof (nearest_even_bounds m1 (e1' - e1)) as B1.
  pose proof (nearest_even_bounds m2 (e2' - e2)) as B2.
  destruct (Z.eq_dec e1' e2') as [E|NE].
  - (* the same exponent: compare the mantissas *)
    rewrite <- E in *. set (e0 := Z.min e1 e2).
    rewrite (F2R_shift m1 e1 e0) in Hle by lia.
    rewrite (F2R_shift m2 e2 e0) in Hle by lia.
    apply F2R_le_inv in Hle.
    assert (HM1 : (0 <= m1 * 2 ^ (e1 - e0))%Z).
    { apply Z.mul_nonneg_nonneg; [lia|apply Z.pow_nonneg; lia]. }
    pose proof (nearest_even_monotone _ _ (e1' - e0) ltac:(lia) (conj HM1 Hle))
      as Hmono.
    replace (e1' - e0)%Z with ((e1' - e1) + (e1 - e0))%Z in Hmono at 1 by lia.
    replace (e1' - e0)%Z with ((e1' - e2) + (e2 - e0))%Z in Hmono by lia.
    rewrite !nearest_even_scale in Hmono by lia.
    apply F2R_le, Hmono.
  - (* a larger exponent: a power of two lies between *)
    assert (Hlt : (e1' < e2')%Z) by lia.
    assert (He1min : (-1074 <= e1')%Z) by (subst e1'; unfold_fexp; lia).
    pose proof (floor_canonical m2 e2 Hm2 He2 ltac:(fold e2'; lia)) as Hq2.
    fold e2' in Hq2.
    apply Rle_trans with (pow2 (52 + e2')).
    + set (k := Z.max (Zdigits2 m1 - (e1' - e1)) 0).
      assert (Hq1 : (m1 / 2 ^ (e1' - e1) < 2 ^ k)%Z).
      { assert (HP : (0 < 2 ^ (e1' - e1))%Z) by (apply Z.pow_pos_nonneg; lia).
        apply Z.div_lt_upper_bound; [exact HP|].
        rewrite <- Z.pow_add_r by lia.
        eapply Z.lt_le_trans; [exact Hu1|].
        apply Z.pow_le_mono_r; lia. }
      apply Rle_trans with (F2R (2 ^ k) e1').
      * apply F2R_le. lia.
      * unfold F2R. rewrite <- pow2_IZR by lia. rewrite <- pow2_add.
        apply pow2_le. subst k e1' e2'. unfold_fexp. lia.
    + apply Rle_trans with (F2R (m2 / 2 ^ (e2' - e2)) e2').
      * apply F2R_ge_pow2; lia.
      * apply F2R_le. lia.
Qed.

Lemma Zdigits2_shift (m k : Z) :
  (0 < m)%Z -> (0 <= k)%Z -> Zdigits2 (m * 2 ^ k) = (Zdigits2 m + k)%Z.
Proof.
  intros Hm Hk. destruct (Zdigits2_bounds m Hm) as [Hl Hu].
  pose proof (Zdigits2_pos m Hm) as Hd.
  assert (HK : (0 < 2 ^ k)%Z) by (apply Z.pow_pos_nonneg; lia).
  apply Zdigits2_unique; [lia|].
  replace (Zdigits2 m + k - 1)%Z with ((Zdigits2 m - 1) + k)%Z by lia.
  rewrite !Z.pow_add_r by lia. nia.
Qed.

(** Every value has a representation that rounding truncates. *)
Lemma round_R_normal (m e : Z) :
  (0 < m)%Z ->
  exists m' e0,
    (0 < m')%Z /\ F2R m' e0 = F2R m e
    /\ (e0 <= fexp prec emax (Zdigits2 m' + e0))%Z
    /\ round_R m e = F2R (nearest_even m' (fexp prec emax (Zdigits2 m' + e0) - e0))
                       (fexp prec emax (Zdigits2 m' + e0)).
Proof.
  intros Hm. unfold round_R.
  set (e' := fexp prec emax (Zdigits2 m + e)).
  destruct (Z.leb_spec e e') as [Hle|Hgt].
  - exists m, e. fold e'. repeat split; auto.
  - exists (m * 2 ^ (e - e'))%Z, e'.
    assert (HK : (0 < 2 ^ (e - e'))%Z) by (apply Z.pow_pos_nonneg; lia).
    rewrite Zdigits2_shift by lia.
    replace (Zdigits2 m + (e - e') + e')%Z with (Zdigits2 m + e)%Z by lia.
    fold e'. rewrite Z.sub_diag, nearest_even_0.
    repeat split; try lia.
    + symmetry. apply F2R_shift. lia.
    + apply F2R_shift. lia.
Qed.

Lemma round_R_monotone (m1 e1 m2 e2 : Z) :
  (0 < m1)%Z -> (0 < m2)%Z ->
  (F2R m1 e1 <= F2R m2 e2)%R -> (round_R m1 e1 <= round_R m2 e2)%R.
Proof.
  intros Hm1 Hm2 Hle.
  destruct (round_R_normal m1 e1 Hm1) as (n1 & x1 & Hn1 & Hv1 & Hx1 & ->).
  destruct (round_R_normal m2 e2 Hm2) as (n2 & x2 & Hn2 & Hv2 & Hx2 & ->).
  apply rounded_value_monotone; auto. lra.
Qed.

Lemma round_R_ext (m1 e1 m2 e2 : Z) :
  (0 < m1)%Z -> (0 < m2)%Z ->
  F2R m1 e1 = F2R m2 e2 -> round_R m1 e1 = round_R m2 e2.
Proof.
  intros Hm1 Hm2 Hv. apply Rle_antisym; apply round_R_monotone; auto; lra.
Qed.

Lemma binary_round_rounds (s : bool) (m : positive) (e : Z) :
  SF_rounds s (round_R (Zpos m) e) (binary_round prec emax s m e).
Proof.
  unfold binary_round. pose proof (shl_align_spec m e) as Hal.
  destruct (shl_align m e _) as [mz ez]. destruct Hal as [Hv Hpre].
  rewrite <- (round_R_ext (Zpos mz) ez (Zpos m) e) by (auto; lia).
  apply binary_round_aux_rounds; [lia|exact Hpre].
Qed.

(** The order of two rounded results is the order of what they stand for. *)
Lemma SF_rounds_leb (s1 s2 : bool) (v1 v2 : R) (o1 o2 : spec_float) :
  SF_rounds s1 v1 o1 -> SF_rounds s2 v2 o2 ->
  ((if s1 then - v1 else v1) <= (if s2 then - v2 else v2))%R ->
  SFleb o1 o2 = true.
Proof.
  intros [[Hz1 ->]|[Hp1 [(p1 & x1 & -> & Hv1 & Hb1)|[-> Hi1]]]]
         [[Hz2 ->]|[Hp2 [(p2 & x2 & -> & Hv2 & Hb2)|[-> Hi2]]]] Hle;
    try (destruct s1, s2; try reflexivity; exfalso; lra).
  - (* two finite numbers *)
    apply SFleb_spec; auto.
    destruct s1, s2; simpl; lra.
  - (* a finite number and an infinity *)
    pose proof (bounded_lt_overflow _ _ Hb1).
    destruct s1, s2; try reflexivity; exfalso; lra.
  - pose proof (bounded_lt_overflow _ _ Hb2).
    destruct s1, s2; try reflexivity; exfalso; lra.
Qed.

Lemma round_R_nonneg (m e : Z) : (0 < m)%Z -> (0 <= round_R m e)%R.
Proof.
  intros Hm. unfold round_R. destruct (_ <=? _)%Z eqn:E.
  - apply Z.leb_le in E.
    pose proof (nearest_even_bounds m (fexp prec emax (Zdigits2 m + e) - e)) as B.
    assert (0 <= m / 2 ^ (fexp prec emax (Zdigits2 m + e) - e))%Z
      by (apply Z.div_pos; [lia|apply Z.pow_pos_nonneg; lia]).
    rewrite <- (F2R_0 (fexp prec emax (Zdigits2 m + e))). apply F2R_le. lia.
  - pose proof (F2R_pos m e Hm). lra.
Qed.

Lemma F2R_neg (p : positive) (e : Z) : F2R (Zneg p) e = (- F2R (Zpos p) e)%R.
Proof. change (Zneg p) with (- Zpos p)%Z. apply F2R_opp. Qed.

Lemma binary_normalize_monotone (z1 e1 z2 e2 : Z) :
  (F2R z1 e1 <= F2R z2 e2)%R ->
  SFleb (binary_normalize prec emax z1 e1 false)
        (binary_normalize prec emax z2 e2 false) = true.
Proof.
  intros Hle.
  assert (Hzero : SF_rounds false 0 (S754_zero false)) by (left; auto).
  destruct z1 as [|p1|p1], z2 as [|p2|p2]; simpl binary_normalize;
    rewrite ?F2R_0, ?F2R_neg in Hle;
    try pose proof (F2R_pos (Zpos p1) e1 ltac:(lia)) as Hp1;
    try pose proof (F2R_pos (Zpos p2) e2 ltac:(lia)) as Hp2;
    try pose proof (round_R_nonneg (Zpos p1) e1 ltac:(lia)) as Hr1;
    try pose proof (round_R_nonneg (Zpos p2) e2 ltac:(lia)) as Hr2;
    try (exfalso; lra).
  - reflexivity.
  - apply (SF_rounds_leb false false 0 (round_R (Zpos p2) e2));
      auto using binary_round_rounds.
  - apply (SF_rounds_leb false false (round_R (Zpos p1) e1) (round_R (Zpos p2) e2));
      auto using binary_round_rounds.
    apply round_R_monotone; auto; lia.
  - apply (SF_rounds_leb true false (round_R (Zpos p1) e1) 0);
      auto using binary_round_rounds. lra.
  - apply (SF_rounds_leb true false (round_R (Zpos p1) e1) (round_R (Zpos p2) e2));
      auto using binary_round_rounds. lra.
  - apply (SF_rounds_leb true true (round_R (Zpos p1) e1) (round_R (Zpos p2) e2));
      auto using binary_round_rounds.
    assert (round_R (Zpos p2) e2 <= round_R (Zpos p1) e1)%R; [|lra].
    apply round_R_monotone; auto; try lia. lra.
Qed.

Lemma SFadd_monotone (sk sx sy : bool) (mk mx my : positive) (ek ex ey : Z) :
  (SF2R (S754_finite sx mx ex) <= SF2R (S754_finite sy my ey))%R ->
  SFleb (SFadd prec emax (S754_finite sk mk ek) (S754_finite sx mx ex))
        (SFadd prec emax (S754_finite sk mk ek) (S754_finite sy my ey)) = true.
Proof.
  intros Hle. simpl SFadd. apply binary_normalize_monotone.
  rewrite !F2R_plus, !aligned_value by lia. lra.
Qed.

Lemma SFsub_monotone (sk sx sy : bool) (mk mx my : positive) (ek ex ey : Z) :
  (SF2R (S754_finite sx mx ex) <= SF2R (S754_finite sy my ey))%R ->
  SFleb (SFsub prec emax (S754_finite sx mx ex) (S754_finite sk mk ek))
        (SFsub prec emax (S754_finite sy my ey) (S754_finite sk mk ek)) = true.
Proof.
  intros Hle. simpl SFsub. apply binary_normalize_monotone.
  rewrite !F2R_minus, !aligned_value by lia. lra.
Qed.

Lemma SFmul_exponent (mx my : positive) (ex ey : Z) :
  valid_binary (S754_finite false mx ex) = true ->
  valid_binary (S754_finite false my ey) = true ->
  (ex + ey <= fexp prec emax (Zdigits2 (Zpos (mx * my)) + (ex + ey)))%Z.
Proof.
  intros Vx Vy.
  pose proof (valid_canonical _ _ _ Vx) as Cx.
  pose proof (valid_canonical _ _ _ Vy) as Cy.
  pose proof (canonical_exponent_ge _ _ Cx).
  pose proof (canonical_exponent_ge _ _ Cy).
  destruct (Z.le_gt_cases (ex + ey) (-1074)) as [Hlow|Hhigh].
  - unfold_fexp. lia.
  - assert (Hbig : (2 ^ 52 <= Zpos (mx * my))%Z).
    { rewrite Pos2Z.inj_mul.
      destruct (Z.le_gt_cases ex (-1074)).
      - pose proof (canonical_full _ _ Cy ltac:(lia)). nia.
      - pose proof (canonical_full _ _ Cx ltac:(lia)). nia. }
    pose proof (Zdigits2_ge (Zpos (mx * my)) 52 ltac:(lia) Hbig).
    unfold_fexp. lia.
Qed.

Lemma SFmul_monotone (sx sy : bool) (mk mx my : positive) (ek ex ey : Z) :
  valid_binary (S754_finite false mk ek) = true ->
  valid_binary (S754_finite sx mx ex) = true ->
  valid_binary (S754_finite sy my ey) = true ->
  (SF2R (S754_finite sx mx ex) <= SF2R (S754_finite sy my ey))%R ->
  SFleb (SFmul prec emax (S754_finite false mk ek) (S754_finite sx mx ex))
        (SFmul prec emax (S754_finite false mk ek) (S754_finite sy my ey)) = true.
Proof.
  intros Vk Vx Vy Hle. simpl SFmul.
  pose proof (F2R_pos (Zpos mk) ek ltac:(lia)) as Hk.
  pose proof (F2R_pos (Zpos mx) ex ltac:(lia)) as Hx.
  pose proof (F2R_pos (Zpos my) ey ltac:(lia)) as Hy.
  pose proof (round_R_nonneg (Zpos (mk * mx)) (ek + ex) ltac:(lia)) as Hrx.
  pose proof (round_R_nonneg (Zpos (mk * my)) (ek + ey) ltac:(lia)) as Hry.
  apply (SF_rounds_leb sx sy (round_R (Zpos (mk * mx)) (ek + ex))
           (round_R (Zpos (mk * my)) (ek + ey))).
  - apply binary_round_aux_rounds; [lia|]. apply SFmul_exponent; assumption.
  - apply binary_round_aux_rounds; [lia|]. apply SFmul_exponent; assumption.
  - assert (Hmono : forall a b ea eb,
              (F2R (Zpos a) ea <= F2R (Zpos b) eb)%R ->
              (round_R (Zpos (mk * a)) (ek + ea)
               <= round_R (Zpos (mk * b)) (ek + eb))%R).
    { intros a b ea eb Hab. apply round_R_monotone; try lia.
      rewrite !Pos2Z.inj_mul, !F2R_mult.
      apply Rmult_le_compat_l; lra. }
    destruct sx, sy; simpl in Hle.
    + assert (round_R (Zpos (mk * my)) (ek + ey)
              <= round_R (Zpos (mk * mx)) (ek + ex))%R; [|lra].
      apply Hmono. lra.
    + lra.
    + exfalso. lra.
    + apply Hmono. lra.
Qed.

Lemma SFleb_neg_inf (o : spec_float) :
  SF_number o = true -> SFleb (S754_infinity true) o = true.
Proof. destruct o as [s|[|]| |s m e]; try discriminate; reflexivity. Qed.

Lemma SFleb_pos_inf (o : spec_float) :
  SF_number o = true -> SFleb o (S754_infinity false) = true.
Proof. destruct o as [s|[|]| |[|] m e]; try discriminate; reflexivity. Qed.

Lemma SFleb_refl (o : spec_float) : SF_number o = true -> SFleb o o = true.
Proof.
  unfold SFleb.
  destruct o as [[|]|[|]| |[|] m e]; try discriminate; intros _;
    try reflexivity; simpl; rewrite Z.compare_refl, Pos.compare_cont_refl;
    reflexivity.
Qed.

(** Adding a number to both sides keeps the order. *)
Lemma SFadd_monotone_r (k x y : spec_float) :
  SF_nonzero k = true ->
  valid_binary k = true -> valid_binary x = true -> valid_binary y = true ->
  valid_binary (SFadd prec emax k x) = true ->
  valid_binary (SFadd prec emax k y) = true ->
  SFleb x y = true ->
  SFleb (SFadd prec emax k x) (SFadd prec emax k y) = true.
Proof.
  intros Nk Vk Vx Vy Vkx Vky Hle.
  destruct k as [sk|sk| |sk mk ek]; try discriminate.
  assert (Fk : SF_finite (S754_finite sk mk ek) = true) by reflexivity.
  destruct x as [sx|sx| |sx mx ex], y as [sy|sy| |sy my ey];
    try discriminate Hle.
  - apply SFleb_refl. reflexivity.
  - destruct sy; [discriminate Hle|]. apply SFleb_pos_inf. reflexivity.
  - apply SFleb_of_ge_R; auto.
    apply SFadd_lower; auto.
    apply SFleb_spec in Hle; auto. simpl in Hle |- *. lra.
  - destruct sx.
    + apply SFleb_neg_inf. reflexivity.
    + destruct sy; discriminate Hle.
  - destruct sx.
    + apply SFleb_neg_inf. reflexivity.
    + destruct sy; [discriminate Hle|]. reflexivity.
  - destruct sx; [|destruct sy; discriminate Hle].
    apply SFleb_neg_inf. apply SFadd_number; reflexivity.
  - apply SFleb_of_le_R; auto.
    apply SFadd_upper; auto.
    apply SFleb_spec in Hle; auto. simpl in Hle |- *. lra.
  - destruct sy; [destruct sx; discriminate Hle|].
    apply SFleb_pos_inf. apply SFadd_number; reflexivity.
  - apply SFadd_monotone. apply SFleb_spec in Hle; auto.
Qed.

(** Subtracting a number from both sides keeps the order. *)
Lemma SFsub_monotone_l (k x y : spec_float) :
  SF_nonzero k = true ->
  valid_binary k = true -> valid_binary x = true -> valid_binary y = true ->
  valid_binary (SFsub prec emax x k) = true ->
  valid_binary (SFsub prec emax y k) = true ->
  SFleb x y = true ->
  SFleb (SFsub prec emax x k) (SFsub prec emax y k) = true.
Proof.
  intros Nk Vk Vx Vy Vkx Vky Hle.
  destruct k as [sk|sk| |sk mk ek]; try discriminate.
  assert (Fk : SF_finite (S754_finite sk mk ek) = true) by reflexivity.
  destruct x as [sx|sx| |sx mx ex], y as [sy|sy| |sy my ey];
    try discriminate Hle.
  - apply SFleb_refl. reflexivity.
  - destruct sy; [discriminate Hle|]. apply SFleb_pos_inf. reflexivity.
  - assert (Vf : valid_binary (S754_finite (negb sk) mk ek) = true) by exact Vk.
    change (SFsub prec emax (S754_zero sx) (S754_finite sk mk ek))
      with (S754_finite (negb sk) mk ek).
    apply SFleb_of_ge_R; auto.
    apply SFsub_lower; auto.
    apply SFleb_spec in Hle; auto. simpl in Hle |- *.
    destruct sk; simpl; lra.
  - destruct sx.
    + apply SFleb_neg_inf. reflexivity.
    + destruct sy; discriminate Hle.
  - destruct sx.
    + apply SFleb_neg_inf. reflexivity.
    + destruct sy; [discriminate Hle|]. reflexivity.
  - destruct sx; [|destruct sy; discriminate Hle].
    apply SFleb_neg_inf. apply SFsub_number; reflexivity.
  - assert (Vf : valid_binary (S754_finite (negb sk) mk ek) = true) by exact Vk.
    change (SFsub prec emax (S754_zero sy) (S754_finite sk mk ek))
      with (S754_finite (negb sk) mk ek).
    apply SFleb_of_le_R; auto.
    apply SFsub_upper; auto.
    apply SFleb_spec in Hle; auto. simpl in Hle |- *.
    destruct sk; simpl; lra.
  - destruct sy; [destruct sx; discriminate Hle|].
    apply SFleb_pos_inf. apply SFsub_number; reflexivity.
  - apply SFsub_monotone. apply SFleb_spec in Hle; auto.
Qed.

(** Multiplying both sides by a positive number keeps the order. *)
Lemma SFmul_monotone_r (mk : positive) (ek : Z) (x y : spec_float) :
  let k := S754_finite false mk ek in
  valid_binary k = true -> valid_binary x = true -> valid_binary y = true ->
  valid_binary (SFmul prec emax k x) = true ->
  valid_binary (SFmul prec emax k y) = true ->
  SFleb x y = true ->
  SFleb (SFmul prec emax k x) (SFmul prec emax k y) = true.
Proof.
  intros k Vk Vx Vy Vkx Vky Hle. subst k.
  pose proof (F2R_pos (Zpos mk) ek ltac:(lia)) as Hk.
  destruct x as [sx|sx| |sx mx ex], y as [sy|sy| |sy my ey];
    try discriminate Hle.
  - destruct sx, sy; reflexivity.
  - destruct sy; [discriminate Hle|]. destruct sx; reflexivity.
  - change (SFmul prec emax (S754_finite false mk ek) (S754_zero sx))
      with (S754_zero sx).
    apply SFleb_of_ge_R; auto.
    apply (SFmul_pos_ge_R mk ek _ (S754_zero sx) (SF2R (S754_finite sy my ey)));
      auto.
    + apply SF_ge_R_finite. reflexivity.
    + apply SFleb_spec in Hle; auto. simpl in Hle |- *. nra.
  - destruct sx; [reflexivity|destruct sy; discriminate Hle].
  - destruct sx; [destruct sy; reflexivity|].
    destruct sy; [discriminate Hle|reflexivity].
  - destruct sx; [|destruct sy; discriminate Hle].
    apply SFleb_neg_inf. apply SFmul_number; reflexivity.
  - change (SFmul prec emax (S754_finite false mk ek) (S754_zero sy))
      with (S754_zero sy).
    apply SFleb_of_le_R; auto.
    apply (SFmul_pos_le_R mk ek _ (S754_zero sy) (SF2R (S754_finite sx mx ex)));
      auto.
    + apply SF_le_R_finite. reflexivity.
    + apply SFleb_spec in Hle; auto. simpl in Hle |- *. nra.
  - destruct sy; [destruct sx; discriminate Hle|].
    apply SFleb_pos_inf. apply SFmul_number; reflexivity.
  - apply SFmul_monotone; auto. apply SFleb_spec in Hle; auto.
Qed.

Lemma add_monotone (k x y : float) :
  SF_nonzero (Prim2SF k) = true ->
  (x <=? y) = true -> (k + x <=? k + y) = true.
Proof.
  intros Nk. rewrite !FloatAxioms.leb_spec.
  pose proof (Prim2SF_valid (k + x)) as V1.
  pose proof (Prim2SF_valid (k + y)) as V2.
  rewrite add_spec in V1, V2. rewrite !add_spec.
  apply SFadd_monotone_r; auto using Prim2SF_valid.
Qed.

Lemma sub_monotone (k x y : float) :
  SF_nonzero (Prim2SF k) = true ->
  (x <=? y) = true -> (x - k <=? y - k) = true.
Proof.
  intros Nk. rewrite !FloatAxioms.leb_spec.
  pose proof (Prim2SF_valid (x - k)) as V1.
  pose proof (Prim2SF_valid (y - k)) as V2.
  rewrite sub_spec in V1, V2. rewrite !sub_spec.
  apply SFsub_monotone_l; auto using Prim2SF_valid.
Qed.

Lemma mul_monotone (k x y : float) :
  (0 < B2R k)%R ->
  (x <=? y) = true -> (k * x <=? k * y) = true.
Proof.
  intros Hk. destruct (B2R_pos_inv k Hk) as (mk & ek & Ek).
  rewrite !FloatAxioms.leb_spec.
  pose proof (Prim2SF_valid (k * x)) as V1.
  pose proof (Prim2SF_valid (k * y)) as V2.
  pose proof (Prim2SF_valid k) as Vk.
  rewrite mul_spec in V1, V2. rewrite !mul_spec. rewrite Ek in *.
  apply SFmul_monotone_r; auto using Prim2SF_valid.
Qed.

(** ** The inputs of the application *)

Lemma or_default_falsy (x d : float) : truthy x = false -> or_default x d = d.
Proof. intros Hx. unfold or_default. rewrite Hx. reflexivity. Qed.

Lemma or_default_number (x d : float) :
  is_nan d = false -> is_nan (or_default x d) = false.
Proof.
  intros Hd. unfold or_default. destruct (truthy x) eqn:E; [|exact Hd].
  apply truthy_number, E.
Qed.

(** What holds of the initial state and is kept by every input event holds
    after every sequence of them. *)
Lemma run_invariant (P : AppState -> Prop) :
  P initial_state ->
  (forall s e, P s -> P (onChange s e)) ->
  forall events, P (run events).
Proof.
  intros Hinit Hstep events. unfold run.
  generalize initial_state Hinit. induction events as [|e events IH]; simpl.
  - auto.
  - intros s Hs. apply IH, Hstep, Hs.
Qed.

(** No input event writes the load, the elastic modulus or the length, and
    the soil types on offer do not include [Other]. *)
Lemma run_fixed (events : list Event) :
  load (run events) = initial_load
  /\ Es (soil (run events)) = Some 20000
  /\ L (foundation (run events)) = 2.0
  /\ type (soil (run events)) <> Other.
Proof.
  apply (run_invariant (fun s => load s = initial_load
                                 /\ Es (soil s) = Some 20000
                                 /\ L (foundation s) = 2.0
                                 /\ type (soil s) <> Other)).
  - repeat split. discriminate.
  - intros s e (Hl & HE & HL & Ht).
    destruct e; cbn; repeat split; try assumption.
    destruct o; discriminate.
Qed.


(** * The specification's worked examples

    The three examples of the specification's testable properties, on every
    host. *)

(** Water table at 5 m, below the zone of influence (5 >= 1.5 + 2.0). *)
Example example_deep_water_table `{HostMath} :
  let r := calculateBearingCapacity initial_soil initial_foundation initial_load
             (Some 5) 3.0 in
  W_prime r = 1.0 /\ ex r = 0 /\ ey r = 0 /\ B_prime r = 2.0
  /\ qa_spt r = 150
  /\ recommended_sbc r = Math_min (qs r) 150.
Proof.
  cbv zeta.
  rewrite recommended_sbc_field, qa_spt_field, W_prime_field, B_prime_field,
    ey_field, ex_field.
  repeat split; reflexivity.
Qed.

(** Water table at 1.0 m, above the base: the surcharge takes the submerged
    weight between 1.0 m and 1.5 m, 18 x 1.0 + 10 x 0.5. *)
Example example_shallow_water_table :
  water_table_correction initial_soil 1.5 2.0 (Some 1.0) = (23, 0.5).
Proof. reflexivity. Qed.

(** A moment of 600 on a load of 500: the eccentricity 1.2 exceeds a sixth
    of the width, and the effective width is floored. *)
Example example_high_eccentricity `{HostMath} :
  let load := {| V := 500; H := 0; Mx := 0; My := 600 |} in
  let r := calculateBearingCapacity initial_soil initial_foundation load
             (Some 5) 3.0 in
  ex r = 1.2 /\ (ex r / 2.0 >? 1 / 6) = true /\ B_prime r = 0.1.
Proof.
  cbv zeta. rewrite B_prime_field, ex_field.
  repeat split; reflexivity.
Qed.

(** * Further properties of the engine *)

(** The effective dimensions are never below the floor: each is at least
    0.1, unless the inputs make it NaN. *)
Theorem effective_dimensions_floored `{HostMath}
    (soil : SoilProperties) (foundation : FoundationProperties)
    (load : LoadingConditions) (water_table_depth : option float) (FOS : float) :
  let r := calculateBearingCapacity soil foundation load water_table_depth FOS in
  (is_nan (B_prime r) = true \/ (0.1 <=? B_prime r) = true)
  /\ (is_nan (L_prime r) = true \/ (0.1 <=? L_prime r) = true).
Proof.
  intros r. subst r. rewrite B_prime_field, L_prime_field. split.
  - match goal with |- context [Math_max ?x 0.1] => destruct (is_nan x) eqn:E end;
      [left; apply Math_max_nan, E|right; apply Math_max_ge_floor, E].
  - match goal with |- context [Math_max ?x 0.1] => destruct (is_nan x) eqn:E end;
      [left; apply Math_max_nan, E|right; apply Math_max_ge_floor, E].
Qed.

(** The empirical pressure is the not-applicable marker NaN exactly when no
    usable count is supplied: the count is absent, zero or NaN. *)
Theorem empirical_pressure_marker `{HostMath}
    (soil : SoilProperties) (foundation : FoundationProperties)
    (load : LoadingConditions) (water_table_depth : option float) (FOS : float) :
  let r := calculateBearingCapacity soil foundation load water_table_depth FOS in
  isNaN (qa_spt r) =
  match spt_n soil with
  | Some N => (N =? 0) || is_nan N
  | None => true
  end.
Proof.
  intros r. subst r. rewrite qa_spt_field.
  destruct (spt_n soil) as [N|]; [|reflexivity].
  unfold truthy, isNaN. destruct ((N =? 0) || is_nan N) eqn:E; cbn [negb].
  - reflexivity.
  - apply allowablePressureSPT_number. apply orb_false_iff in E. tauto.
Qed.

(** The settlement is the elastic estimate when a modulus above zero is
    supplied, and the empirical one of the soil class otherwise. *)
Theorem settlement_method `{HostMath}
    (soil : SoilProperties) (foundation : FoundationProperties)
    (load : LoadingConditions) (water_table_depth : option float) (FOS : float) :
  let r := calculateBearingCapacity soil foundation load water_table_depth FOS in
  let empirical :=
    match type soil with
    | Cohesive_Clay => (qs r / 50) * 25
    | _ => (qs r / 100) * 15
    end in
  settlement r =
  match Es soil with
  | Some E =>
      if E >? 0 then
        (qs r * B foundation * (1 - Math_pow 0.3 2) * 0.82) / E * 1000
      else empirical
  | None => empirical
  end.
Proof.
  intros r empirical.
  pose proof (settlement_field soil foundation load water_table_depth FOS) as Hs.
  cbv zeta in Hs. fold r in Hs.
  rewrite Hs. subst empirical.
  assert (Hemp : (if SoilType_eqb (type soil) Cohesive_Clay
                  then (qs r / 50) * 25 else (qs r / 100) * 15)
                 = match type soil with
                   | Cohesive_Clay => (qs r / 50) * 25
                   | _ => (qs r / 100) * 15
                   end) by (destruct (type soil); reflexivity).
  rewrite Hemp. destruct (Es soil) as [E|]; [|reflexivity].
  destruct (E >? 0) eqn:Hpos; [|rewrite andb_false_r; reflexivity].
  assert (Ht : truthy E = true).
  { unfold truthy. apply negb_true_iff, orb_false_iff. split.
    - destruct (E =? 0) eqn:Hz; [|reflexivity].
      rewrite (eqb_true_ltb_false _ _ Hz) in Hpos. discriminate.
    - rewrite FloatAxioms.ltb_spec in Hpos. rewrite is_nan_spec.
      unfold SFltb in Hpos. destruct (Prim2SF E); try reflexivity.
      destruct (Prim2SF 0); discriminate. }
  rewrite Ht. reflexivity.
Qed.

(** ** Moments and eccentricity *)

(** Only the magnitudes of the moments count: with the sign of both moments
    reversed, the engine returns the same record. *)
Theorem moment_sign_irrelevant `{HostMath}
    (soil : SoilProperties) (foundation : FoundationProperties)
    (V H Mx My : float) (water_table_depth : option float) (FOS : float) :
  calculateBearingCapacity soil foundation
    {| V := V; H := H; Mx := - Mx; My := - My |} water_table_depth FOS
  = calculateBearingCapacity soil foundation
      {| V := V; H := H; Mx := Mx; My := My |} water_table_depth FOS.
Proof.
  destruct foundation as [sh b l d].
  unfold calculateBearingCapacity. cbv beta iota zeta.
  rewrite !abs_div_opp. reflexivity.
Qed.

(** The eccentricity only ever reduces a dimension: each effective dimension
    is at most the raw one (or the floor 0.1, for a raw dimension below it),
    unless the inputs make it NaN. *)
Theorem effective_dimensions_within_raw `{HostMath}
    (soil : SoilProperties) (foundation : FoundationProperties)
    (load : LoadingConditions) (water_table_depth : option float) (FOS : float) :
  let r := calculateBearingCapacity soil foundation load water_table_depth FOS in
  (is_nan (B_prime r) = true
   \/ (B_prime r <=? Math_max (B foundation) 0.1) = true)
  /\ (is_nan (L_prime r) = true
      \/ (L_prime r <=? Math_max (L foundation) 0.1) = true).
Proof.
  intros r. subst r. rewrite B_prime_field, L_prime_field, ex_field, ey_field.
  split.
  - match goal with |- context [Math_max ?x 0.1] => destruct (is_nan x) eqn:E end;
      [left; apply Math_max_nan, E|right].
    apply Math_max_monotone; [reflexivity|].
    apply sub_nonneg_le; [exact E|]. apply eccentricity_signed.
  - match goal with |- context [Math_max ?x 0.1] => destruct (is_nan x) eqn:E end;
      [left; apply Math_max_nan, E|right].
    apply Math_max_monotone; [reflexivity|].
    apply sub_nonneg_le; [exact E|]. apply eccentricity_signed.
Qed.

(** Without a vertical load, or without moments, the eccentricity check does
    not fire and the status is not HIGH ECCENTRICITY, whatever the
    dimensions (zero included). *)
Theorem no_moment_no_eccentricity `{HostMath}
    (soil : SoilProperties) (foundation : FoundationProperties)
    (load : LoadingConditions) (water_table_depth : option float) (FOS : float) :
  let r := calculateBearingCapacity soil foundation load water_table_depth FOS in
  (V load =? 0) = true \/ ((Mx load =? 0) = true /\ (My load =? 0) = true) ->
  eccentricity_check r = false /\ status r <> HIGH_ECCENTRICITY.
Proof.
  intros r Hload.
  pose proof (status_field soil foundation load water_table_depth FOS) as Hst.
  fold r in Hst.
  assert (Hc : eccentricity_check r = false).
  { subst r. rewrite eccentricity_check_field, ex_field, ey_field.
    unfold strict_neq. apply orb_false_iff.
    destruct Hload as [HV|[HMx HMy]].
    - rewrite HV. cbn [negb].
      split; apply zero_ratio_not_above_sixth; left; reflexivity.
    - destruct (negb (V load =? 0)).
      + split; apply zero_ratio_not_above_sixth, abs_zero_ratio; assumption.
      + split; apply zero_ratio_not_above_sixth; left; reflexivity. }
  split; [exact Hc|]. rewrite Hst, Hc.
  destruct (settlement r >? 25); discriminate.
Qed.

Lemma no_moment_no_eccentricity_witness :
  let r := @calculateBearingCapacity ReferenceHost.host initial_soil
             initial_foundation initial_load initial_waterTable initial_fos in
  (Mx initial_load =? 0) = true /\ (My initial_load =? 0) = true
  /\ eccentricity_check r = false /\ status r <> HIGH_ECCENTRICITY.
Proof.
  split; [reflexivity|]. split; [reflexivity|].
  apply (@no_moment_no_eccentricity ReferenceHost.host initial_soil
           initial_foundation initial_load initial_waterTable initial_fos).
  right. split; reflexivity.
Defined.

(** ** The water table *)

(** A water table below the zone of influence ([Dw > Df] and [Dw >= Df + B])
    gives the record that no water table ([null]) gives. *)
Theorem water_table_below_influence_zone `{HostMath}
    (soil : SoilProperties) (foundation : FoundationProperties)
    (load : LoadingConditions) (Dw FOS : float) :
  (Dw <=? Df foundation) = false ->
  (Dw >=? Df foundation + B foundation) = true ->
  calculateBearingCapacity soil foundation load (Some Dw) FOS
  = calculateBearingCapacity soil foundation load None FOS.
Proof.
  intros Hbase Hdeep. destruct foundation as [sh b l d], load as [v h mx my].
  cbn [Df B] in *.
  unfold calculateBearingCapacity, water_table_correction.
  rewrite Hbase, Hdeep. reflexivity.
Qed.

Lemma water_table_below_influence_zone_witness :
  (5 <=? Df initial_foundation) = false
  /\ (5 >=? Df initial_foundation + B initial_foundation) = true
  /\ @calculateBearingCapacity ReferenceHost.host initial_soil
       initial_foundation initial_load (Some 5) initial_fos
     = @calculateBearingCapacity ReferenceHost.host initial_soil
         initial_foundation initial_load None initial_fos.
Proof.
  split; [reflexivity|]. split; [reflexivity|].
  apply (@water_table_below_influence_zone ReferenceHost.host initial_soil
           initial_foundation initial_load 5 initial_fos); reflexivity.
Defined.

(** The surcharge correction is continuous at the base: with the water table
    at the foundation level the corrected surcharge equals the uncorrected
    [gamma * Df], for finite weights and depth. *)
Theorem surcharge_continuous_at_base (soil : SoilProperties) (Df B : float) :
  is_finite (gamma soil) = true -> is_finite (gamma_sub soil) = true ->
  is_finite Df = true ->
  let q := fst (water_table_correction soil Df B (Some Df)) in
  (q =? gamma soil * Df) = true.
Proof.
  intros Fg Fs Fd q. subst q. unfold water_table_correction. cbn [fst].
  rewrite (leb_refl Df).
  2:{ rewrite is_finite_spec in Fd. rewrite is_nan_spec.
      destruct (Prim2SF Df); try discriminate; reflexivity. }
  rewrite is_finite_spec in Fg, Fs, Fd.
  rewrite FloatAxioms.eqb_spec, add_spec, (mul_spec (gamma_sub soil)), sub_spec.
  unfold SF64add, SF64mul, SF64sub.
  destruct (SFsub_diag _ Fd) as [sz ->].
  assert (Hnum : SF_number (Prim2SF (gamma soil * Df)) = true).
  { rewrite mul_spec.
    destruct (Prim2SF (gamma soil)) as [sg|sg| |sg mg eg] eqn:Eg;
      try discriminate.
    - destruct (Prim2SF Df); try discriminate; reflexivity.
    - apply SFmul_number; [reflexivity|].
      destruct (Prim2SF Df); try discriminate; reflexivity. }
  assert (Hz : exists s', SFmul prec emax (Prim2SF (gamma_sub soil))
                            (S754_zero sz) = S754_zero s').
  { destruct (Prim2SF (gamma_sub soil)); try discriminate;
      eexists; reflexivity. }
  destruct Hz as [s' ->].
  pose proof (SFeqb_refl _ Hnum) as Hrefl.
  destruct (Prim2SF (gamma soil * Df)) as [[|]|[|]| |sp mp ep];
    try discriminate; destruct s'; try reflexivity; exact Hrefl.
Qed.

Lemma surcharge_continuous_at_base_witness :
  is_finite (gamma initial_soil) = true
  /\ is_finite (gamma_sub initial_soil) = true
  /\ is_finite 1.5 = true
  /\ (fst (water_table_correction initial_soil 1.5 2 (Some 1.5))
      =? gamma initial_soil * 1.5) = true.
Proof.
  repeat (split; [reflexivity|]).
  apply (surcharge_continuous_at_base initial_soil 1.5 2); reflexivity.
Defined.

(** ** The shape factors *)

(** Whatever the shape, [sc] is at least 1 and [sgamma] at most 1, unless the
    inputs make them NaN. *)
Theorem shape_factor_ranges `{HostMath}
    (soil : SoilProperties) (foundation : FoundationProperties)
    (load : LoadingConditions) (water_table_depth : option float) (FOS : float) :
  let r := calculateBearingCapacity soil foundation load water_table_depth FOS in
  (is_nan (sc r) = true \/ (1 <=? sc r) = true)
  /\ (is_nan (sgamma r) = true \/ (sgamma r <=? 1) = true).
Proof.
  intros r.
  pose proof (shape_factors_field soil foundation load water_table_depth FOS)
    as HS.
  pose proof (effective_ratio_ge_R soil foundation load water_table_depth FOS)
    as HR.
  cbv zeta in HS, HR. fold r in HS, HR.
  destruct (is_nan (B_prime r / L_prime r)) eqn:Hn.
  - assert (N1 : is_nan (1 + 0.2 * (B_prime r / L_prime r)) = true)
      by (apply add_nan_r, mul_nan_r, Hn).
    assert (N2 : is_nan (1 - 0.4 * (B_prime r / L_prime r)) = true)
      by (apply sub_nan_r, mul_nan_r, Hn).
    destruct (shape foundation); [| destruct (phi soil >? 0) | |];
      injection HS as -> _ ->; split; auto; right; reflexivity.
  - specialize (HR eq_refl).
    pose proof (shape_sc_ge _ HR) as H1. pose proof (shape_sgamma_le _ HR) as H2.
    destruct (shape foundation); [| destruct (phi soil >? 0) | |];
      injection HS as -> _ ->; split; auto; right; reflexivity.
Qed.

(** The engine does not order the sides of a rectangle: when the effective
    width is three times the effective length or more, [sgamma] is
    negative. *)
Theorem rectangular_sgamma_negative `{HostMath}
    (soil : SoilProperties) (foundation : FoundationProperties)
    (load : LoadingConditions) (water_table_depth : option float) (FOS : float) :
  let r := calculateBearingCapacity soil foundation load water_table_depth FOS in
  shape foundation = Rectangular ->
  (B_prime r / L_prime r >=? 3) = true ->
  (sgamma r <? 0) = true.
Proof.
  intros r Hsh Hratio.
  pose proof (shape_factors_field soil foundation load water_table_depth FOS)
    as HS.
  cbv zeta in HS. fold r in HS. rewrite Hsh in HS.
  injection HS as _ _ ->. apply shape_sgamma_negative, Hratio.
Qed.

Lemma rectangular_sgamma_negative_witness :
  let foundation := {| shape := Rectangular; B := 6; L := 1; Df := 1.5 |} in
  let r := @calculateBearingCapacity ReferenceHost.host initial_soil foundation
             initial_load initial_waterTable initial_fos in
  (B_prime r / L_prime r >=? 3) = true /\ (sgamma r <? 0) = true.
Proof.
  split; [vm_compute; reflexivity|].
  apply (@rectangular_sgamma_negative ReferenceHost.host initial_soil
           {| shape := Rectangular; B := 6; L := 1; Df := 1.5 |}
           initial_load initial_waterTable initial_fos);
    [reflexivity|vm_compute; reflexivity].
Defined.

(** ** Terms that vanish *)

(** Without cohesion the first term is zero, unless a factor makes it NaN. *)
Theorem cohesionless_soil_has_no_cohesion_term `{HostMath}
    (soil : SoilProperties) (foundation : FoundationProperties)
    (load : LoadingConditions) (water_table_depth : option float) (FOS : float) :
  let r := calculateBearingCapacity soil foundation load water_table_depth FOS in
  (c soil =? 0) = true ->
  (term1 r =? 0) = true \/ is_nan (term1 r) = true.
Proof.
  intros r Hc. apply falsy_zero_or_nan. subst r. rewrite term1_field.
  do 4 apply falsy_mul_l. unfold truthy. rewrite Hc. reflexivity.
Qed.

Lemma cohesionless_soil_has_no_cohesion_term_witness :
  let r := @calculateBearingCapacity ReferenceHost.host initial_soil
             initial_foundation initial_load initial_waterTable initial_fos in
  (c initial_soil =? 0) = true
  /\ ((term1 r =? 0) = true \/ is_nan (term1 r) = true).
Proof.
  split; [reflexivity|].
  apply (@cohesionless_soil_has_no_cohesion_term ReferenceHost.host initial_soil
           initial_foundation initial_load initial_waterTable initial_fos).
  reflexivity.
Defined.

(** Without friction ([phi > 0] does not hold: zero, negative or NaN) the
    third term is zero, unless a factor makes it NaN. *)
Theorem frictionless_soil_has_no_weight_term `{HostMath}
    (soil : SoilProperties) (foundation : FoundationProperties)
    (load : LoadingConditions) (water_table_depth : option float) (FOS : float) :
  let r := calculateBearingCapacity soil foundation load water_table_depth FOS in
  (phi soil >? 0) = false ->
  (term3 r =? 0) = true \/ is_nan (term3 r) = true.
Proof.
  intros r Hphi. apply falsy_zero_or_nan.
  pose proof (factors_field soil foundation load water_table_depth FOS) as HF.
  fold r in HF. rewrite Hphi in HF. injection HF as _ _ HN.
  subst r. rewrite term3_field, HN.
  do 3 apply falsy_mul_l. apply falsy_mul_r. reflexivity.
Qed.

Lemma frictionless_soil_has_no_weight_term_witness :
  let soil := {| type := Cohesive_Clay; c := 40; phi := 0; gamma := 17;
                 gamma_sub := 8; spt_n := None; Es := None |} in
  let r := @calculateBearingCapacity ReferenceHost.host soil initial_foundation
             initial_load initial_waterTable initial_fos in
  (phi soil >? 0) = false
  /\ ((term3 r =? 0) = true \/ is_nan (term3 r) = true).
Proof.
  split; [reflexivity|].
  apply (@frictionless_soil_has_no_weight_term ReferenceHost.host
           {| type := Cohesive_Clay; c := 40; phi := 0; gamma := 17;
              gamma_sub := 8; spt_n := None; Es := None |}
           initial_foundation initial_load initial_waterTable initial_fos).
  reflexivity.
Defined.

(** ** The recommended pressure *)

(** The recommended pressure never exceeds the safe capacity, nor the
    empirical pressure when there is one; [qs] being a number. *)
Theorem recommended_pressure_is_a_minimum `{HostMath}
    (soil : SoilProperties) (foundation : FoundationProperties)
    (load : LoadingConditions) (water_table_depth : option float) (FOS : float) :
  let r := calculateBearingCapacity soil foundation load water_table_depth FOS in
  is_nan (qs r) = false ->
  (recommended_sbc r <=? qs r) = true
  /\ (is_nan (qa_spt r) = false -> (recommended_sbc r <=? qa_spt r) = true).
Proof.
  intros r Hqs.
  pose proof (recommended_sbc_field soil foundation load water_table_depth FOS)
    as Hrec. fold r in Hrec. rewrite Hrec. unfold isNaN.
  destruct (is_nan (qa_spt r)) eqn:Hqa; cbn [negb].
  - split; [apply leb_refl, Hqs|discriminate].
  - destruct (Math_min_le (qs r) (qa_spt r) Hqs Hqa). split; auto.
Qed.

Lemma recommended_pressure_is_a_minimum_witness :
  let r := @calculateBearingCapacity ReferenceHost.host initial_soil
             initial_foundation initial_load initial_waterTable initial_fos in
  is_nan (qs r) = false
  /\ (recommended_sbc r <=? qs r) = true
  /\ (is_nan (qa_spt r) = false -> (recommended_sbc r <=? qa_spt r) = true).
Proof.
  split; [vm_compute; reflexivity|].
  apply (@recommended_pressure_is_a_minimum ReferenceHost.host initial_soil
           initial_foundation initial_load initial_waterTable initial_fos).
  vm_compute. reflexivity.
Defined.

(** A safe capacity that is NaN is not reported as a failure: the recommended
    pressure and the settlement are NaN, and the status is SAFE unless the
    eccentricity check fires. *)
Theorem nan_capacity_is_not_flagged `{HostMath}
    (soil : SoilProperties) (foundation : FoundationProperties)
    (load : LoadingConditions) (water_table_depth : option float) (FOS : float) :
  let r := calculateBearingCapacity soil foundation load water_table_depth FOS in
  is_nan (qs r) = true ->
  is_nan (recommended_sbc r) = true
  /\ is_nan (settlement r) = true
  /\ status r = if eccentricity_check r then HIGH_ECCENTRICITY else SAFE.
Proof.
  intros r Hqs.
  pose proof (recommended_sbc_field soil foundation load water_table_depth FOS)
    as Hrec.
  pose proof (settlement_field soil foundation load water_table_depth FOS)
    as Hset.
  pose proof (status_field soil foundation load water_table_depth FOS) as Hst.
  cbv zeta in Hset. fold r in Hrec, Hset, Hst.
  assert (Hs : is_nan (settlement r) = true).
  { rewrite Hset.
    assert (He : is_nan (if SoilType_eqb (type soil) Cohesive_Clay
                         then qs r / 50 * 25 else qs r / 100 * 15) = true)
      by (destruct (SoilType_eqb _ _); apply mul_nan_l, div_nan_l, Hqs).
    destruct (Es soil) as [E|]; [|exact He].
    destruct (truthy E && (E >? 0)); [|exact He].
    apply mul_nan_l, div_nan_l, mul_nan_l, mul_nan_l, mul_nan_l, Hqs. }
  repeat split.
  - rewrite Hrec. destruct (negb (isNaN (qa_spt r))); [|exact Hqs].
    unfold Math_min. rewrite Hqs. reflexivity.
  - exact Hs.
  - rewrite Hst. rewrite (ltb_nan_r 25 _ Hs). reflexivity.
Qed.

Lemma nan_capacity_is_not_flagged_witness :
  let r := @calculateBearingCapacity ReferenceHost.host initial_soil
             initial_foundation initial_load initial_waterTable nan in
  is_nan (qs r) = true
  /\ is_nan (recommended_sbc r) = true
  /\ is_nan (settlement r) = true
  /\ status r = SAFE.
Proof.
  split; [vm_compute; reflexivity|].
  apply (@nan_capacity_is_not_flagged ReferenceHost.host initial_soil
           initial_foundation initial_load initial_waterTable nan).
  vm_compute. reflexivity.
Defined.

(** A negative count is not rejected: for sand and c-phi soil a count of -10
    or less gives an empirical pressure of zero or less, and with it a
    recommended pressure of zero or less. *)
Theorem negative_count_is_not_rejected `{HostMath}
    (soil : SoilProperties) (foundation : FoundationProperties)
    (load : LoadingConditions) (water_table_depth : option float) (FOS N : float) :
  type soil = Cohesionless_Sand \/ type soil = c_phi_Soil ->
  spt_n soil = Some N ->
  (N <=? -10) = true ->
  let r := calculateBearingCapacity soil foundation load water_table_depth FOS in
  (qa_spt r <=? 0) = true
  /\ (is_nan (qs r) = false -> (recommended_sbc r <=? 0) = true).
Proof.
  intros Ht HN Hneg r.
  pose proof (recommended_sbc_field soil foundation load water_table_depth FOS)
    as Hrec.
  pose proof (qa_spt_field soil foundation load water_table_depth FOS) as Hqa.
  fold r in Hrec, Hqa. rewrite HN in Hqa.
  rewrite (leb_truthy N (-10) Hneg eq_refl) in Hqa.
  assert (Hq : (qa_spt r <=? 0) = true).
  { rewrite Hqa. unfold allowablePressureSPT.
    destruct Ht as [-> | ->].
    - rewrite (leb_ltb_trans N (-10) 10 Hneg eq_refl).
      apply (sand_first_row_le N (-10) (-15) (-75) 0); auto;
        autorewrite with constants in *; lra.
    - apply (c_phi_row_le N (-10) (-100) 0); auto; autorewrite with constants in *; lra. }
  split; [exact Hq|]. intros Nqs.
  destruct (leb_true_not_nan _ _ Hq) as [Nqa _].
  rewrite Hrec. unfold isNaN. rewrite Nqa. cbn [negb].
  apply (leb_trans _ (qa_spt r)); [|exact Hq].
  apply Math_min_le; assumption.
Qed.

Lemma negative_count_is_not_rejected_witness :
  let soil := {| type := Cohesionless_Sand; c := 0; phi := 30; gamma := 18;
                 gamma_sub := 10; spt_n := Some (-12); Es := Some 20000 |} in
  let r := @calculateBearingCapacity ReferenceHost.host soil initial_foundation
             initial_load initial_waterTable initial_fos in
  (-12 <=? -10) = true
  /\ (qa_spt r <=? 0) = true
  /\ (is_nan (qs r) = false -> (recommended_sbc r <=? 0) = true).
Proof.
  split; [reflexivity|].
  apply (@negative_count_is_not_rejected ReferenceHost.host
           {| type := Cohesionless_Sand; c := 0; phi := 30; gamma := 18;
              gamma_sub := 10; spt_n := Some (-12); Es := Some 20000 |}
           initial_foundation initial_load initial_waterTable initial_fos (-12));
    [left|..]; reflexivity.
Defined.

(** * The empirical table *)

(** The range of the table, for a count that is not negative: 25 to 300 for
    sand, 50 to 200 for clay, at least 100 for c-phi soil, 500 for rock and
    150 otherwise. *)
Theorem allowablePressureSPT_range (soilType : SoilType) (N : float) :
  (0 <=? N) = true ->
  let q := allowablePressureSPT soilType N in
  match soilType with
  | Cohesionless_Sand => (25 <=? q) = true /\ (q <=? 300) = true
  | Cohesive_Clay => (50 <=? q) = true /\ (q <=? 200) = true
  | c_phi_Soil => (100 <=? q) = true
  | Rock => q = 500
  | Other => q = 150
  end.
Proof.
  intros H0 q. subst q. destruct (leb_true_not_nan _ _ H0) as [_ NN].
  destruct soilType; unfold allowablePressureSPT; try reflexivity.
  - destruct (N <? 10) eqn:H10.
    { split.
      - apply (sand_first_row_ge N 0 (-5) (-25) 25); auto; autorewrite with constants in *; lra.
      - apply (sand_first_row_le N 10 5 25 300); auto using ltb_true_leb;
          autorewrite with constants in *; lra. }
    destruct (N <? 30) eqn:H30; [|split; reflexivity].
    pose proof (ltb_false_leb N 10 NN eq_refl H10) as Hge.
    split.
    + apply (leb_trans _ 100); [reflexivity|].
      apply (sand_second_row_ge N 10 0 0 100); auto; autorewrite with constants in *; lra.
    + apply (sand_second_row_le N 30 20 200 300); auto using ltb_true_leb;
        autorewrite with constants in *; lra.
  - destruct (N <? 4); [split; reflexivity|].
    destruct (N <? 8); [split; reflexivity|].
    destruct (N <? 15); split; reflexivity.
  - apply (c_phi_row_ge N 0 0 100); auto; autorewrite with constants in *; lra.
Qed.

Lemma allowablePressureSPT_range_witness :
  (0 <=? 15) = true
  /\ (25 <=? allowablePressureSPT Cohesionless_Sand 15) = true
  /\ (allowablePressureSPT Cohesionless_Sand 15 <=? 300) = true.
Proof.
  split; [reflexivity|].
  apply (allowablePressureSPT_range Cohesionless_Sand 15). reflexivity.
Defined.

(** The rows of sand do not meet at a count of 10: below it the pressure is
    at most 75, from it on at least 100. *)
Theorem sand_table_jumps_at_ten (N : float) :
  let q := allowablePressureSPT Cohesionless_Sand N in
  if N <? 10 then (q <=? 75) = true else (100 <=? q) = true.
Proof.
  intros q. subst q. unfold allowablePressureSPT.
  destruct (N <? 10) eqn:H10.
  - apply (sand_first_row_le N 10 5 25 75); auto using ltb_true_leb;
      autorewrite with constants in *; lra.
  - destruct (N <? 30) eqn:H30; [|reflexivity].
    destruct (ltb_not_nan _ _ H30) as [NN _].
    pose proof (ltb_false_leb N 10 NN eq_refl H10) as Hge.
    apply (sand_second_row_ge N 10 0 0 100); auto; autorewrite with constants in *; lra.
Qed.

(** The table is monotone: a larger count never gives a smaller pressure,
    whatever the soil type; rounding included. *)
Theorem allowablePressureSPT_monotone (soilType : SoilType) (N1 N2 : float) :
  (N1 <=? N2) = true ->
  (allowablePressureSPT soilType N1 <=? allowablePressureSPT soilType N2) = true.
Proof.
  intros Hle. destruct (leb_true_not_nan _ _ Hle) as [NN1 NN2].
  assert (Hcut : forall c, (N2 <? c) = true -> (N1 <? c) = true)
    by (intros c Hc; apply (leb_ltb_trans _ N2); assumption).
  assert (P5 : (0 < B2R 5)%R) by (autorewrite with constants; lra).
  assert (P10 : (0 < B2R 10)%R) by (autorewrite with constants; lra).
  unfold allowablePressureSPT. destruct soilType; try reflexivity.
  - destruct (N1 <? 10) eqn:A1, (N2 <? 10) eqn:A2.
    + apply add_monotone; [reflexivity|].
      apply mul_monotone; [exact P5|]. apply sub_monotone; [reflexivity|exact Hle].
    + apply (leb_trans _ 75).
      { apply (sand_first_row_le N1 10 5 25 75); auto using ltb_true_leb;
          autorewrite with constants in *; lra. }
      destruct (N2 <? 30) eqn:B2; [|reflexivity].
      apply (leb_trans _ 100); [reflexivity|].
      apply (sand_second_row_ge N2 10 0 0 100); auto;
        [autorewrite with constants; lra..|].
      apply ltb_false_leb; auto.
    + rewrite (Hcut 10 A2) in A1. discriminate.
    + destruct (N1 <? 30) eqn:B1, (N2 <? 30) eqn:B2.
      * apply add_monotone; [reflexivity|].
        apply mul_monotone; [exact P10|].
        apply sub_monotone; [reflexivity|exact Hle].
      * apply (sand_second_row_le N1 30 20 200 300); auto using ltb_true_leb;
          autorewrite with constants; lra.
      * rewrite (Hcut 30 B2) in B1. discriminate.
      * reflexivity.
  - destruct (N2 <? 4) eqn:A2; [rewrite (Hcut 4 A2); reflexivity|].
    destruct (N2 <? 8) eqn:B2.
    { rewrite (Hcut 8 B2). destruct (N1 <? 4); reflexivity. }
    destruct (N2 <? 15) eqn:C2.
    { rewrite (Hcut 15 C2). destruct (N1 <? 4); [reflexivity|].
      destruct (N1 <? 8); reflexivity. }
    destruct (N1 <? 4); [reflexivity|]. destruct (N1 <? 8); [reflexivity|].
    destruct (N1 <? 15); reflexivity.
  - apply add_monotone; [reflexivity|]. apply mul_monotone; [exact P10|exact Hle].
Qed.

Lemma allowablePressureSPT_monotone_witness :
  (12 <=? 18) = true
  /\ (allowablePressureSPT Cohesionless_Sand 12
      <=? allowablePressureSPT Cohesionless_Sand 18) = true.
Proof.
  split; [reflexivity|].
  apply (allowablePressureSPT_monotone Cohesionless_Sand 12 18). reflexivity.
Defined.

(** * The application *)

(** ** What it shows beside the results *)

(** The line under the recommended pressure names the criterion that gave
    it: "SPT Values" when the recommended pressure is the empirical one,
    "Shear Failure" when it is the safe capacity. *)
Theorem governed_by_names_the_minimum `{HostMath}
    (soil : SoilProperties) (foundation : FoundationProperties)
    (load : LoadingConditions) (water_table_depth : option float) (FOS : float) :
  let r := calculateBearingCapacity soil foundation load water_table_depth FOS in
  (governed_by r = "SPT Values"%string /\ recommended_sbc r = qa_spt r)
  \/ (governed_by r = "Shear Failure"%string /\ recommended_sbc r = qs r).
Proof.
  intros r.
  pose proof (recommended_sbc_field soil foundation load water_table_depth FOS)
    as Hrec.
  pose proof (qa_spt_field soil foundation load water_table_depth FOS) as Hqa.
  fold r in Hrec, Hqa. unfold governed_by, isNaN in *.
  destruct (qa_spt r <? qs r) eqn:Hlt.
  - left. split; [reflexivity|]. rewrite Hrec.
    destruct (ltb_not_nan _ _ Hlt) as [Na Ns]. rewrite Na. cbn [negb].
    unfold Math_min. rewrite Na, Ns. cbn [orb].
    rewrite (leb_true_ltb_false _ _ (ltb_true_leb _ _ Hlt)), Hlt. reflexivity.
  - right. split; [reflexivity|]. rewrite Hrec.
    destruct (is_nan (qa_spt r)) eqn:Na; [reflexivity|]. cbn [negb].
    unfold Math_min. rewrite Na.
    destruct (is_nan (qs r)) eqn:Ns; cbn [orb].
    { apply nan_unique; [reflexivity|exact Ns]. }
    rewrite Hlt. destruct (qs r <? qa_spt r) eqn:Hlt'; [reflexivity|].
    destruct (get_sign (qs r)) eqn:Hsign; [reflexivity|].
    pose proof (ltb_false_leb _ _ Ns Na Hlt') as Hle.
    pose proof (ltb_false_leb _ _ Na Ns Hlt) as Hge.
    rewrite (leb_antisym_eqb _ _ Hle) in Hge.
    destruct (eqb_identity _ _ Hge) as [E|(s & s' & E1 & E2)]; [exact E|].
    apply Prim2SF_inj. rewrite E1, E2.
    assert (s' = false).
    { rewrite get_sign_spec, E2 in Hsign. exact Hsign. }
    assert (s = false).
    { destruct s; [|reflexivity]. exfalso. revert E1. rewrite Hqa.
      destruct (spt_n soil) as [N|]; [|discriminate].
      destruct (truthy N); [|discriminate].
      apply allowablePressureSPT_not_neg_zero. }
    congruence.
Qed.

(** The badge beside the slider against the correction the engine applies:
    "Surcharge Correction Active" with a factor of 0.5; "Self-Weight
    Correction Active" with the interpolated factor, except that at
    [Dw = Df + B] the factor is already 1; "No Correction (Dry)" with a
    factor of 1, or NaN when the depths are not numbers. *)
Theorem water_table_badge `{HostMath} (s : AppState) :
  let Dw := waterTable s in
  let Df := Df (foundation s) in
  let B := B (foundation s) in
  let W := W_prime (results s) in
  let badge := label (getWaterTableStatus s) in
  (badge = "Surcharge Correction Active"%string -> W = 0.5)
  /\ (badge = "Self-Weight Correction Active"%string ->
      W = if Dw =? Df + B then 1 else 0.5 * (1 + (Dw - Df) / B))
  /\ (badge = "No Correction (Dry)"%string -> W = 1 \/ is_nan W = true).
Proof.
  intros Dw Df0 B0 W badge. subst W badge. unfold results.
  rewrite W_prime_field. unfold getWaterTableStatus, water_table_correction.
  fold Dw Df0 B0. cbn [snd].
  destruct (Dw <=? Df0) eqn:H1; cbn [label].
  { repeat split; try discriminate. }
  destruct (Dw <=? Df0 + B0) eqn:H2; cbn [label].
  - repeat split; try discriminate. intros _.
    rewrite (leb_antisym_eqb _ _ H2). reflexivity.
  - repeat split; try discriminate. intros _.
    destruct (is_nan Dw) eqn:Nw.
    { right. destruct (Df0 + B0 <=? Dw) eqn:Hge.
      - destruct (leb_true_not_nan _ _ Hge). congruence.
      - apply interpolation_nan; auto. }
    destruct (is_nan (Df0 + B0)) eqn:Ns.
    { right. destruct (Df0 + B0 <=? Dw) eqn:Hge.
      - destruct (leb_true_not_nan _ _ Hge). congruence.
      - apply interpolation_nan; auto. }
    left. rewrite (leb_false_leb _ _ Nw Ns H2). reflexivity.
Qed.

(** ** Fields that do not parse *)

(** A count field that is empty, zero or not a number stores 0: there is
    then no empirical pressure, the recommended pressure is the safe
    capacity and the line reads "Shear Failure". *)
Theorem clearing_the_count `{HostMath} (s : AppState) (parsed : float) :
  truthy parsed = false ->
  let r := results (onChange s (change_spt_n parsed)) in
  is_nan (qa_spt r) = true
  /\ recommended_sbc r = qs r
  /\ governed_by r = "Shear Failure"%string.
Proof.
  intros Hp r.
  assert (Hqa : qa_spt r = nan).
  { subst r. unfold results. rewrite qa_spt_field.
    cbn [onChange handleSoilChange soil spt_n].
    rewrite (or_default_falsy _ _ Hp). reflexivity. }
  assert (Hrec : recommended_sbc r = qs r).
  { subst r. unfold results in *. rewrite recommended_sbc_field, Hqa.
    reflexivity. }
  unfold governed_by. rewrite Hqa, (ltb_nan_l nan _ eq_refl).
  repeat split. exact Hrec.
Qed.

Lemma clearing_the_count_witness :
  let r := @results ReferenceHost.host (onChange initial_state (change_spt_n nan)) in
  truthy nan = false
  /\ is_nan (qa_spt r) = true
  /\ recommended_sbc r = qs r
  /\ governed_by r = "Shear Failure"%string.
Proof.
  split; [reflexivity|].
  apply (@clearing_the_count ReferenceHost.host initial_state nan). reflexivity.
Defined.

(** A factor of safety that is empty, zero or not a number stores 1: the net
    safe capacity is then the net ultimate capacity itself. *)
Theorem clearing_the_factor_of_safety `{HostMath} (s : AppState) (parsed : float) :
  truthy parsed = false ->
  let r := results (onChange s (change_fos parsed)) in
  FOS r = 1 /\ qns r = qnu r.
Proof.
  intros Hp r. subst r. unfold results.
  destruct (capacities_field (soil (onChange s (change_fos parsed)))
              (foundation (onChange s (change_fos parsed)))
              (load (onChange s (change_fos parsed)))
              (Some (waterTable (onChange s (change_fos parsed))))
              (fos (onChange s (change_fos parsed)))) as (_ & _ & Hqns & _).
  rewrite Hqns, FOS_field. cbn [onChange setFos fos].
  rewrite (or_default_falsy _ _ Hp). split; [reflexivity|apply div_one].
Qed.

Lemma clearing_the_factor_of_safety_witness :
  let r := @results ReferenceHost.host (onChange initial_state (change_fos nan)) in
  truthy nan = false /\ FOS r = 1 /\ qns r = qnu r.
Proof.
  split; [reflexivity|].
  apply (@clearing_the_factor_of_safety ReferenceHost.host initial_state nan).
  reflexivity.
Defined.

(** ** The chart data *)

(** The loop makes eleven points, for the widths 1, 1.5, ..., 6: the steps
    of 0.5 add up exactly, and the loop ends by its own test. *)
Theorem sensitivityData_widths `{HostMath} `{HostText} (s : AppState) :
  sensitivityData s
  = map (sensitivity_point s) [1; 1.5; 2; 2.5; 3; 3.5; 4; 4.5; 5; 5.5; 6]
  /\ forall more : nat,
       sensitivity_loop (12 + more) 1 (sensitivity_point s) = sensitivityData s.
Proof. split; [|intros more]; reflexivity. Qed.

(** The chart does not depend on the width the user entered. *)
Theorem sensitivityData_ignores_the_width `{HostMath} `{HostText}
    (s : AppState) (value : float) :
  sensitivityData (handleFoundationChange (field_B value) s) = sensitivityData s.
Proof. reflexivity. Qed.

(** At the design width the chart evaluates the engine on the foundation
    itself, provided a square foundation has its length equal to its
    width. *)
Theorem sensitivity_at_the_design_width `{HostMath}
    (soil : SoilProperties) (foundation : FoundationProperties)
    (load : LoadingConditions) (water_table_depth : option float) (FOS : float) :
  (shape foundation = Square -> L foundation = B foundation) ->
  calculateBearingCapacity soil (tempFoundation foundation (B foundation)) load
    water_table_depth FOS
  = calculateBearingCapacity soil foundation load water_table_depth FOS.
Proof.
  intros HL. f_equal. destruct foundation as [sh b l d]. unfold tempFoundation.
  cbn [shape B L Df] in *. destruct sh; try reflexivity.
  rewrite (HL eq_refl). reflexivity.
Qed.

Lemma sensitivity_at_the_design_width_witness :
  (shape initial_foundation = Square ->
   L initial_foundation = B initial_foundation)
  /\ @calculateBearingCapacity ReferenceHost.host initial_soil
       (tempFoundation initial_foundation (B initial_foundation)) initial_load
       initial_waterTable initial_fos
     = @calculateBearingCapacity ReferenceHost.host initial_soil
         initial_foundation initial_load initial_waterTable initial_fos.
Proof.
  split; [reflexivity|].
  apply (@sensitivity_at_the_design_width ReferenceHost.host initial_soil
           initial_foundation initial_load initial_waterTable initial_fos).
  reflexivity.
Defined.

(** ** What the inputs can reach *)

(** After every sequence of input events the load, the elastic modulus and
    the length are the initial ones (no input writes them), and the soil
    type is one of the four on offer. *)
Theorem app_fixed_inputs (events : list Event) :
  let s := run events in
  load s = initial_load
  /\ Es (soil s) = Some 20000
  /\ L (foundation s) = 2.0
  /\ type (soil s) <> Other.
Proof. exact (run_fixed events). Qed.

(** After every sequence of input events the numbers that reach the engine
    are numbers: no input stores NaN, a count is always present, and the
    factor of safety is neither zero nor NaN. *)
Theorem app_inputs_are_numbers (events : list Event) :
  let s := run events in
  is_nan (c (soil s)) = false
  /\ is_nan (phi (soil s)) = false
  /\ is_nan (gamma (soil s)) = false
  /\ is_nan (gamma_sub (soil s)) = false
  /\ (exists N, spt_n (soil s) = Some N /\ is_nan N = false)
  /\ is_nan (B (foundation s)) = false
  /\ is_nan (Df (foundation s)) = false
  /\ is_nan (waterTable s) = false
  /\ truthy (fos s) = true.
Proof.
  cbv zeta.
  apply (run_invariant (fun s =>
    is_nan (c (soil s)) = false
    /\ is_nan (phi (soil s)) = false
    /\ is_nan (gamma (soil s)) = false
    /\ is_nan (gamma_sub (soil s)) = false
    /\ (exists N, spt_n (soil s) = Some N /\ is_nan N = false)
    /\ is_nan (B (foundation s)) = false
    /\ is_nan (Df (foundation s)) = false
    /\ is_nan (waterTable s) = false
    /\ truthy (fos s) = true)).
  - repeat split. exists 15. split; reflexivity.
  - intros s e (Hc & Hphi & Hg & Hgs & HN & HB & HDf & Hw & Hf).
    destruct e; cbn; repeat split; try assumption;
      try (apply or_default_number; reflexivity).
    + eexists. split; [reflexivity|]. apply or_default_number. reflexivity.
    + unfold or_default. destruct (truthy parsed) eqn:E; [exact E|reflexivity].
Qed.

(** The application never reports HIGH ECCENTRICITY: the load it evaluates
    has no moment, the eccentricities are zero, and the status is decided by
    the settlement alone. *)
Theorem app_never_reports_high_eccentricity `{HostMath} (events : list Event) :
  let r := results (run events) in
  ex r = 0 /\ ey r = 0
  /\ eccentricity_check r = false
  /\ status r = if settlement r >? 25 then SETTLEMENT_GOVERNING else SAFE.
Proof.
  intros r. destruct (run_fixed events) as (Hl & _).
  subst r. unfold results.
  rewrite status_field, eccentricity_check_field, ex_field, ey_field, Hl.
  cbn [V Mx My initial_load].
  change (strict_neq 500 0) with true. cbv iota.
  change (Math_abs (0 / 500)) with 0.
  assert (Hz : forall b, (0 / b >? 1 / 6) = false)
    by (intros b; apply zero_ratio_not_above_sixth; left; reflexivity).
  rewrite !Hz. repeat split.
Qed.

(** The application always estimates the settlement by the elastic formula,
    with the initial modulus of 20000 kPa. *)
Theorem app_settlement_is_elastic `{HostMath} (events : list Event) :
  let s := run events in
  let r := results s in
  settlement r
  = (qs r * B (foundation s) * (1 - Math_pow 0.3 2) * 0.82) / 20000 * 1000.
Proof.
  intros s r. destruct (run_fixed events) as (_ & HE & _).
  fold s in HE. subst r. unfold results.
  rewrite settlement_field. cbv zeta. rewrite HE. reflexivity.
Qed.

(** * The specification's claims *)

(** ** C1: a non-positive factor of safety *)

(** C1, as stated, fails: with the application's initial inputs and a factor
    of safety of 0, or of -3, both non-positive, the call completes
    normally; the record it returns holds [qns = qnu / 0 = Infinity] in the
    first case and a negative [qns] in the second. *)
Lemma nonpositive_FOS_is_not_rejected :
  (0 <=? 0) = true /\ (-3 <=? 0) = true
  /\ (exists r,
        @evaluate ReferenceHost.host initial_soil initial_foundation initial_load
          initial_waterTable 0 = Returns r
        /\ qns r = infinity)
  /\ (exists r,
        @evaluate ReferenceHost.host initial_soil initial_foundation initial_load
          initial_waterTable (-3) = Returns r
        /\ (qns r <? 0) = true).
Proof.
  split; [reflexivity|]. split; [reflexivity|].
  split; eexists; (split; [reflexivity|]); vm_compute; reflexivity.
Qed.

(** C1, amended: for every input, whatever the factor of safety, evaluate
    completes normally with the full record, never with the
    invalid-configuration condition; the record's net safe capacity is
    [qnu / FOS] as computed, which for a factor of safety of zero is an
    infinity or NaN. *)
Theorem evaluate_always_returns `{HostMath}
    (soil : SoilProperties) (foundation : FoundationProperties)
    (load : LoadingConditions) (water_table_depth : option float) (FOS : float) :
  exists r,
    evaluate soil foundation load water_table_depth FOS = Returns r
    /\ r = calculateBearingCapacity soil foundation load water_table_depth FOS
    /\ qns r = qnu r / FOS
    /\ ((FOS =? 0) = true -> is_finite (qns r) = false).
Proof.
  eexists. split; [reflexivity|]. split; [reflexivity|].
  destruct (capacities_field soil foundation load water_table_depth FOS)
    as (_ & _ & Hqns & _).
  split; [exact Hqns|].
  intros Hz. rewrite Hqns. apply div_zero_not_finite, Hz.
Qed.

(** ** C2: no vertical load *)

(** C2, as stated, fails: with no vertical load and a footing 0.05 m wide,
    the effective width is the floor 0.1, not the width. *)
Lemma zero_load_width_is_floored :
  let foundation := {| shape := Square; B := 0.05; L := 2.0; Df := 1.5 |} in
  let load := {| V := 0; H := 0; Mx := 0; My := 0 |} in
  let r := @calculateBearingCapacity ReferenceHost.host initial_soil foundation
             load initial_waterTable initial_fos in
  (V load =? 0) = true
  /\ B_prime r = 0.1
  /\ (B_prime r =? B foundation) = false.
Proof. vm_compute. repeat split. Qed.

(** C2, amended: for every input with vertical load V = 0, ex = 0 and ey = 0
    exactly, and the effective dimensions are the raw ones floored at 0.1:
    B_prime = max(B, 0.1) and L_prime = max(L, 0.1); so B_prime = B when
    B >= 0.1 and L_prime = L when L >= 0.1. *)
Theorem zero_load_eccentricity `{HostMath}
    (soil : SoilProperties) (foundation : FoundationProperties)
    (load : LoadingConditions) (water_table_depth : option float) (FOS : float) :
  (V load =? 0) = true ->
  let r := calculateBearingCapacity soil foundation load water_table_depth FOS in
  ex r = 0 /\ ey r = 0
  /\ B_prime r = Math_max (B foundation) 0.1
  /\ L_prime r = Math_max (L foundation) 0.1
  /\ ((B foundation >=? 0.1) = true -> B_prime r = B foundation)
  /\ ((L foundation >=? 0.1) = true -> L_prime r = L foundation).
Proof.
  intros HV r.
  pose proof (ex_field soil foundation load water_table_depth FOS) as Hex.
  pose proof (ey_field soil foundation load water_table_depth FOS) as Hey.
  pose proof (B_prime_field soil foundation load water_table_depth FOS) as HB.
  pose proof (L_prime_field soil foundation load water_table_depth FOS) as HL.
  cbv zeta in Hex, Hey, HB, HL. fold r in Hex, Hey, HB, HL.
  unfold strict_neq in Hex, Hey. rewrite HV in Hex, Hey. simpl in Hex, Hey.
  rewrite Hex in HB. rewrite Hey in HL.
  change (2 * 0) with 0 in HB, HL. rewrite sub_zero_r in HB, HL.
  repeat split; auto.
  - intros Hge. rewrite HB. apply Math_max_floor, Hge.
  - intros Hge. rewrite HL. apply Math_max_floor, Hge.
Qed.

Lemma zero_load_eccentricity_witness :
  let load := {| V := 0; H := 0; Mx := 40; My := 25 |} in
  let r := @calculateBearingCapacity ReferenceHost.host initial_soil
             initial_foundation load initial_waterTable initial_fos in
  (V load =? 0) = true
  /\ ex r = 0 /\ ey r = 0
  /\ B_prime r = Math_max 2.0 0.1
  /\ L_prime r = Math_max 2.0 0.1
  /\ ((2.0 >=? 0.1) = true -> B_prime r = 2.0)
  /\ ((2.0 >=? 0.1) = true -> L_prime r = 2.0).
Proof.
  split; [reflexivity|].
  apply (@zero_load_eccentricity ReferenceHost.host initial_soil
           initial_foundation {| V := 0; H := 0; Mx := 40; My := 25 |}
           initial_waterTable initial_fos).
  reflexivity.
Defined.

(** ** C3: a purely cohesive soil *)

(** C3: for every input with friction angle phi = 0, the bearing-capacity
    factors are Nc = 5.14, Nq = 1 and Ngamma = 0, whatever the soil type,
    cohesion, geometry, loads, water table and factor of safety. *)
Theorem zero_friction_factors `{HostMath}
    (soil : SoilProperties) (foundation : FoundationProperties)
    (load : LoadingConditions) (water_table_depth : option float) (FOS : float) :
  (phi soil =? 0) = true ->
  let r := calculateBearingCapacity soil foundation load water_table_depth FOS in
  Nc r = 5.14 /\ Nq r = 1 /\ Ngamma r = 0.
Proof.
  intros Hphi r.
  pose proof (factors_field soil foundation load water_table_depth FOS) as HF.
  fold r in HF. rewrite (eqb_true_ltb_false _ _ Hphi) in HF.
  injection HF as -> -> ->. auto.
Qed.

Lemma zero_friction_factors_witness :
  let soil := {| type := Cohesive_Clay; c := 40; phi := 0; gamma := 17;
                 gamma_sub := 8; spt_n := None; Es := None |} in
  let r := @calculateBearingCapacity ReferenceHost.host soil initial_foundation
             initial_load initial_waterTable initial_fos in
  (phi soil =? 0) = true /\ Nc r = 5.14 /\ Nq r = 1 /\ Ngamma r = 0.
Proof.
  split; [reflexivity|].
  apply (@zero_friction_factors ReferenceHost.host
           {| type := Cohesive_Clay; c := 40; phi := 0; gamma := 17;
              gamma_sub := 8; spt_n := None; Es := None |}
           initial_foundation initial_load initial_waterTable initial_fos).
  reflexivity.
Defined.

(** ** C4: the water-table correction *)

(** C4, as stated, fails: for a footing of width 0 with the water table at
    its base (Dw = Df = 1.5), Dw >= Df + B holds and Dw = Df + B, and
    W_prime is 0.5, not 1.  A width too small to move Df in binary64 (here
    1e-17 against 1.5) does the same. *)
Lemma water_table_at_base_of_zero_width :
  let foundation := {| shape := Square; B := 0; L := 2.0; Df := 1.5 |} in
  let foundation' := {| shape := Square; B := 1e-17; L := 2.0; Df := 1.5 |} in
  let Dw := 1.5 in
  let r := @calculateBearingCapacity ReferenceHost.host initial_soil foundation
             initial_load (Some Dw) initial_fos in
  let r' := @calculateBearingCapacity ReferenceHost.host initial_soil foundation'
              initial_load (Some Dw) initial_fos in
  ((Dw >=? Df foundation + B foundation) = true
   /\ (Dw =? Df foundation + B foundation) = true
   /\ W_prime r = 0.5
   /\ (W_prime r =? 1) = false)
  /\ ((Dw >=? Df foundation' + B foundation') = true
      /\ (Dw =? Df foundation' + B foundation') = true
      /\ W_prime r' = 0.5).
Proof. vm_compute. repeat split. Qed.

(** C4, amended: the cases are taken in order.  With no water-table depth,
    W_prime = 1 and the surcharge is gamma Df.  With Dw <= Df, W_prime = 0.5
    and the surcharge is gamma Dw + gamma_sub (Df - Dw).  Otherwise, with
    Dw >= Df + B, W_prime = 1; otherwise W_prime = 0.5 (1 + (Dw - Df)/B).
    At Dw = Df the value is 0.5; at Dw = Df + B it is 1 provided Dw <= Df
    does not hold there, which a width of zero does not give. *)
Theorem water_table_piecewise `{HostMath}
    (soil : SoilProperties) (foundation : FoundationProperties)
    (load : LoadingConditions) (water_table_depth : option float) (FOS : float) :
  let r := calculateBearingCapacity soil foundation load water_table_depth FOS in
  let q_surcharge :=
    fst (water_table_correction soil (Df foundation) (B foundation)
           water_table_depth) in
  let Df := Df foundation in
  let B := B foundation in
  match water_table_depth with
  | None => W_prime r = 1 /\ q_surcharge = gamma soil * Df
  | Some Dw =>
      ((Dw <=? Df) = true ->
         W_prime r = 0.5
         /\ q_surcharge = gamma soil * Dw + gamma_sub soil * (Df - Dw))
      /\ ((Dw <=? Df) = false -> (Dw >=? Df + B) = true -> W_prime r = 1)
      /\ ((Dw <=? Df) = false -> (Dw >=? Df + B) = false ->
            W_prime r = 0.5 * (1 + (Dw - Df) / B))
      /\ ((Dw =? Df) = true -> W_prime r = 0.5)
      /\ ((Dw =? Df + B) = true -> (Dw <=? Df) = false -> W_prime r = 1)
  end.
Proof.
  intros r q_surcharge Df0 B0.
  pose proof (W_prime_field soil foundation load water_table_depth FOS) as HW.
  cbv zeta in HW. fold r Df0 B0 in HW. subst q_surcharge. fold Df0 B0.
  destruct water_table_depth as [Dw|]; [|split; [exact HW|reflexivity]].
  unfold water_table_correction in *. cbn [fst snd] in *.
  split; [intros Hle; rewrite HW, Hle; split; reflexivity|].
  split; [intros Hle Hge; rewrite HW, Hle, Hge; reflexivity|].
  split; [intros Hle Hge; rewrite HW, Hle, Hge; reflexivity|].
  split.
  - intros Heq. destruct (eqb_true_leb _ _ Heq) as [Hle _].
    rewrite HW, Hle. reflexivity.
  - intros Heq Hle. destruct (eqb_true_leb _ _ Heq) as [_ Hge].
    rewrite HW, Hle, Hge. reflexivity.
Qed.

(** ** C5: the capacities *)

(** C5: for every input, qu = term1 + term2 + term3, qnu = qu - q_surcharge
    and qs = qns + q_surcharge, where q_surcharge is the surcharge of the
    water-table step. *)
Theorem capacity_identities `{HostMath}
    (soil : SoilProperties) (foundation : FoundationProperties)
    (load : LoadingConditions) (water_table_depth : option float) (FOS : float) :
  let r := calculateBearingCapacity soil foundation load water_table_depth FOS in
  let q_surcharge :=
    fst (water_table_correction soil (Df foundation) (B foundation)
           water_table_depth) in
  qu r = term1 r + term2 r + term3 r
  /\ qnu r = qu r - q_surcharge
  /\ qs r = qns r + q_surcharge.
Proof.
  intros r q_surcharge.
  destruct (capacities_field soil foundation load water_table_depth FOS)
    as (Hqu & Hqnu & _ & Hqs).
  auto.
Qed.

(** ** C6: the status *)

(** C6: for every input, the status is SETTLEMENT GOVERNING whenever the
    settlement exceeds 25, whatever the eccentricity flag; otherwise HIGH
    ECCENTRICITY whenever the flag is true; otherwise SAFE. *)
Theorem status_priority `{HostMath}
    (soil : SoilProperties) (foundation : FoundationProperties)
    (load : LoadingConditions) (water_table_depth : option float) (FOS : float) :
  let r := calculateBearingCapacity soil foundation load water_table_depth FOS in
  ((settlement r >? 25) = true -> status r = SETTLEMENT_GOVERNING)
  /\ ((settlement r >? 25) = false -> eccentricity_check r = true ->
        status r = HIGH_ECCENTRICITY)
  /\ ((settlement r >? 25) = false -> eccentricity_check r = false ->
        status r = SAFE).
Proof.
  intros r.
  pose proof (status_field soil foundation load water_table_depth FOS) as HS.
  cbv zeta in HS. fold r in HS.
  split; [intros Hs; rewrite HS, Hs; reflexivity|].
  split; intros Hs He; rewrite HS, Hs, He; reflexivity.
Qed.

(** ** C7: the recommended pressure *)

(** C7, as stated, fails: with a supplied count of exactly zero the
    recommended pressure is qs, as for an absent count, and not
    min(qs, table value at 0), which for sand is 25. *)
Lemma zero_count_is_as_absent :
  let soil := {| type := Cohesionless_Sand; c := 0; phi := 30; gamma := 18;
                 gamma_sub := 10; spt_n := Some 0; Es := Some 20000 |} in
  let r := @calculateBearingCapacity ReferenceHost.host soil initial_foundation
             initial_load initial_waterTable initial_fos in
  allowablePressureSPT (type soil) 0 = 25
  /\ recommended_sbc r = qs r
  /\ (recommended_sbc r =? Math_min (qs r) (allowablePressureSPT (type soil) 0))
     = false.
Proof. vm_compute. repeat split. Qed.

(** C7, amended: for every input in which a penetration count other than
    zero (and not NaN) is supplied, the recommended pressure is
    min(qs, table value at that count); when the count is absent, zero or
    NaN, it is qs alone. *)
Theorem recommended_pressure `{HostMath}
    (soil : SoilProperties) (foundation : FoundationProperties)
    (load : LoadingConditions) (water_table_depth : option float) (FOS : float) :
  let r := calculateBearingCapacity soil foundation load water_table_depth FOS in
  match spt_n soil with
  | Some N =>
      ((N =? 0) || is_nan N = false ->
         recommended_sbc r = Math_min (qs r) (allowablePressureSPT (type soil) N))
      /\ ((N =? 0) || is_nan N = true -> recommended_sbc r = qs r)
  | None => recommended_sbc r = qs r
  end.
Proof.
  intros r.
  pose proof (recommended_sbc_field soil foundation load water_table_depth FOS) as HR.
  pose proof (qa_spt_field soil foundation load water_table_depth FOS) as HQ.
  cbv zeta in HR, HQ. fold r in HR, HQ. rewrite HQ in HR.
  destruct (spt_n soil) as [N|]; [|exact HR].
  unfold truthy in HR. split; intros HN; rewrite HN in HR; [|exact HR].
  cbn [negb] in HR. unfold isNaN in HR.
  rewrite allowablePressureSPT_number in HR; [exact HR|].
  apply orb_false_iff in HN. tauto.
Qed.

(** ** C8: the inclination factors *)

(** C8, as stated, fails: for an uplift of V = -500 with H = 500, V is not
    0, the angle the engine uses is 0 and ic = 1, while atan(H/V) in degrees
    is -45 and (1 - alpha/90)^2 is 2.25. *)
Lemma negative_load_has_zero_inclination :
  let load := {| V := -500; H := 500; Mx := 0; My := 0 |} in
  let r := @calculateBearingCapacity ReferenceHost.host initial_soil
             initial_foundation load initial_waterTable initial_fos in
  let alpha := rad2deg (@Math_atan ReferenceHost.host (H load / V load)) in
  (V load =? 0) = false
  /\ alpha = -45
  /\ @Math_pow ReferenceHost.host (1 - alpha / 90) 2 = 2.25
  /\ ic r = 1.
Proof. vm_compute. repeat split. Qed.

(** C8, amended: for every input, ic = iq = (1 - alpha/90)^2 and
    igamma = (1 - alpha/phi')^2, where alpha = atan(H/V) in degrees when
    V > 0 and alpha = 0 otherwise (so for V = 0, and for V < 0), and phi' is
    phi, or 0.001 when phi = 0; phi' is never zero. *)
Theorem inclination_factors `{HostMath}
    (soil : SoilProperties) (foundation : FoundationProperties)
    (load : LoadingConditions) (water_table_depth : option float) (FOS : float) :
  let r := calculateBearingCapacity soil foundation load water_table_depth FOS in
  let alpha :=
    if V load >? 0 then rad2deg (Math_atan (H load / V load)) else 0 in
  let phi' := if phi soil =? 0 then 0.001 else phi soil in
  ic r = Math_pow (1 - alpha / 90) 2
  /\ iq r = ic r
  /\ igamma r = Math_pow (1 - alpha / phi') 2
  /\ (phi' =? 0) = false
  /\ ((V load =? 0) = true -> alpha = 0).
Proof.
  intros r alpha phi'.
  destruct (inclination_field soil foundation load water_table_depth FOS)
    as (Hic & Hiq & Hig).
  split; [exact Hic|]. split; [exact Hiq|]. split; [exact Hig|]. split.
  - subst phi'. destruct (phi soil =? 0) eqn:E; [reflexivity|exact E].
  - intros HV. subst alpha. rewrite (eqb_true_ltb_false _ _ HV). reflexivity.
Qed.

(** ** C9: determinism and effects *)

(** The computations that only read: a returned value, a property read
    through a reference that holds an object of the type, a sequence or a
    choice of such computations. *)
Lemma reads_ret {A : Type} (heap : Heap) (a : A) : reads heap (ret a) a.
Proof. reflexivity. Qed.

Lemma reads_bind {A B : Type} (heap : Heap) (m : Call A) (k : A -> Call B)
    (a : A) (b : B) :
  reads heap m a -> reads heap (k a) b -> reads heap (bind m k) b.
Proof. unfold reads, bind. intros -> Hk. exact Hk. Qed.

Lemma reads_if {A : Type} (heap : Heap) (b : bool) (m1 m2 : Call A) (a1 a2 : A) :
  reads heap m1 a1 -> reads heap m2 a2 ->
  reads heap (if b then m1 else m2) (if b then a1 else a2).
Proof. destruct b; intros H1 H2; assumption. Qed.

Lemma reads_get_soil {A : Type} (heap : Heap) (soil : Ref) (o : SoilProperties)
    (property : SoilProperties -> A) :
  nth_error heap soil = Some (soil_object o) ->
  reads heap (get_soil soil property) (property o).
Proof. unfold reads, get_soil. intros ->. reflexivity. Qed.

Lemma reads_get_foundation {A : Type} (heap : Heap) (foundation : Ref)
    (o : FoundationProperties) (property : FoundationProperties -> A) :
  nth_error heap foundation = Some (foundation_object o) ->
  reads heap (get_foundation foundation property) (property o).
Proof. unfold reads, get_foundation. intros ->. reflexivity. Qed.

Lemma reads_get_load {A : Type} (heap : Heap) (load : Ref)
    (o : LoadingConditions) (property : LoadingConditions -> A) :
  nth_error heap load = Some (load_object o) ->
  reads heap (get_load load property) (property o).
Proof. unfold reads, get_load. intros ->. reflexivity. Qed.

#[local] Hint Resolve reads_ret reads_bind reads_if reads_get_soil
  reads_get_foundation reads_get_load : reads.

(** Step 2 only reads, and gives the corrections of
    [water_table_correction]. *)
Lemma water_table_correction_reads (heap : Heap) (soil : Ref)
    (o : SoilProperties) (Df B : float) (water_table_depth : option float) :
  nth_error heap soil = Some (soil_object o) ->
  reads heap (water_table_correction_call soil Df B water_table_depth)
    (water_table_correction o Df B water_table_depth).
Proof.
  intros Hsoil. unfold water_table_correction_call.
  destruct water_table_depth as [Dw|]; eauto 12 with reads nocore.
Qed.

#[local] Hint Resolve water_table_correction_reads : reads.

(** One call, through references that hold objects of the declared types:
    it returns a reference not in use, and leaves the heap with one object
    more, the record that [calculateBearingCapacity] computes from the
    three objects. *)
Lemma calculateBearingCapacity_call_returns `{HostMath} (heap : Heap)
    (soil foundation load : Ref) (soil_o : SoilProperties)
    (foundation_o : FoundationProperties) (load_o : LoadingConditions)
    (water_table_depth : option float) (FOS : float) :
  nth_error heap soil = Some (soil_object soil_o) ->
  nth_error heap foundation = Some (foundation_object foundation_o) ->
  nth_error heap load = Some (load_object load_o) ->
  calculateBearingCapacity_call soil foundation load water_table_depth FOS heap
  = Some (List.length heap,
          (heap ++ [results_object
                      (calculateBearingCapacity soil_o foundation_o load_o
                         water_table_depth FOS)])%list).
Proof.
  intros Hsoil Hfoundation Hload.
  destruct foundation_o as [shape0 B0 L0 Df0], load_o as [V0 Hl0 Mx0 My0].
  unfold calculateBearingCapacity_call, calculateBearingCapacity.
  do 10 call_step.
  cbn [shape B L Df V H Mx My].
  destruct (water_table_correction soil_o Df0 B0 water_table_depth)
    as [q W].
  do 2 call_step.
  destruct (phi soil_o >? 0) eqn:Hphi; destruct shape0;
    do 15 call_step; cbv beta iota zeta; unfold new_object;
    destruct (spt_n soil_o), (Es soil_o); reflexivity.
Qed.

(** A call leaves what a reference holds as it is. *)
Lemma nth_error_new_object (heap : Heap) (r : Ref) (o new : Object) :
  nth_error heap r = Some o -> nth_error (heap ++ [new])%list r = Some o.
Proof.
  intros Hr. rewrite nth_error_app1; [exact Hr|].
  apply nth_error_Some. rewrite Hr. discriminate.
Qed.

(** C9: the engine as a call, on objects in a heap that it receives by
    reference.  A call returns, whatever else the heap holds, and its only
    effect is the new object it returns: it appends the record to the heap
    and leaves every object there was, its arguments included, as it was.
    The record depends on nothing but the properties of the three argument
    objects, the depth and the factor of safety: it is the record that
    [calculateBearingCapacity] computes from them.  So two calls with
    identical inputs, in different heaps and through different references,
    return records that are identical in every field; and so do two calls
    one after the other, the second finding the heap the first has left. *)
Theorem calculateBearingCapacity_deterministic `{HostMath}
    (heap1 heap2 : Heap)
    (soil1 foundation1 load1 soil2 foundation2 load2 : Ref)
    (soil : SoilProperties) (foundation : FoundationProperties)
    (load : LoadingConditions) (water_table_depth : option float) (FOS : float) :
  nth_error heap1 soil1 = Some (soil_object soil) ->
  nth_error heap1 foundation1 = Some (foundation_object foundation) ->
  nth_error heap1 load1 = Some (load_object load) ->
  nth_error heap2 soil2 = Some (soil_object soil) ->
  nth_error heap2 foundation2 = Some (foundation_object foundation) ->
  nth_error heap2 load2 = Some (load_object load) ->
  let results :=
    calculateBearingCapacity soil foundation load water_table_depth FOS in
  calculateBearingCapacity_call soil1 foundation1 load1 water_table_depth FOS
    heap1
  = Some (List.length heap1, (heap1 ++ [results_object results])%list)
  /\ calculateBearingCapacity_call soil2 foundation2 load2 water_table_depth
       FOS heap2
     = Some (List.length heap2, (heap2 ++ [results_object results])%list)
  /\ (first <- calculateBearingCapacity_call soil1 foundation1 load1
                 water_table_depth FOS ;;
      second <- calculateBearingCapacity_call soil1 foundation1 load1
                  water_table_depth FOS ;;
      ret (first, second)) heap1
     = Some ((List.length heap1, S (List.length heap1)),
             (heap1 ++ [results_object results; results_object results])%list).
Proof.
  intros Hsoil1 Hfoundation1 Hload1 Hsoil2 Hfoundation2 Hload2 results.
  pose proof (calculateBearingCapacity_call_returns heap1 soil1 foundation1
                load1 soil foundation load water_table_depth FOS
                Hsoil1 Hfoundation1 Hload1) as Hfirst.
  fold results in Hfirst.
  split; [exact Hfirst|]. split.
  - apply calculateBearingCapacity_call_returns; assumption.
  - unfold bind at 1. rewrite Hfirst.
    unfold bind at 1.
    rewrite (calculateBearingCapacity_call_returns
               (heap1 ++ [results_object results])%list soil1 foundation1
               load1 soil foundation load water_table_depth FOS
               (nth_error_new_object _ _ _ _ Hsoil1)
               (nth_error_new_object _ _ _ _ Hfoundation1)
               (nth_error_new_object _ _ _ _ Hload1)).
    fold results. unfold ret.
    rewrite length_app, <- app_assoc. cbn [List.length app].
    rewrite Nat.add_1_r. reflexivity.
Qed.

Lemma calculateBearingCapacity_deterministic_witness :
  let results :=
    @calculateBearingCapacity ReferenceHost.host initial_soil
      initial_foundation initial_load initial_waterTable initial_fos in
  let heap1 :=
    [soil_object initial_soil; foundation_object initial_foundation;
     load_object initial_load] in
  let heap2 :=
    [load_object initial_load; results_object results;
     foundation_object initial_foundation; soil_object initial_soil] in
  (nth_error heap1 0 = Some (soil_object initial_soil)
   /\ nth_error heap1 1 = Some (foundation_object initial_foundation)
   /\ nth_error heap1 2 = Some (load_object initial_load)
   /\ nth_error heap2 3 = Some (soil_object initial_soil)
   /\ nth_error heap2 2 = Some (foundation_object initial_foundation)
   /\ nth_error heap2 0 = Some (load_object initial_load))
  /\ @calculateBearingCapacity_call ReferenceHost.host 0%nat 1%nat 2%nat
       initial_waterTable initial_fos heap1
     = Some (3%nat, (heap1 ++ [results_object results])%list)
  /\ @calculateBearingCapacity_call ReferenceHost.host 3%nat 2%nat 0%nat
       initial_waterTable initial_fos heap2
     = Some (4%nat, (heap2 ++ [results_object results])%list)
  /\ (first <- @calculateBearingCapacity_call ReferenceHost.host 0%nat 1%nat 2%nat
                 initial_waterTable initial_fos ;;
      second <- @calculateBearingCapacity_call ReferenceHost.host 0%nat 1%nat 2%nat
                  initial_waterTable initial_fos ;;
      ret (first, second)) heap1
     = Some ((3%nat, 4%nat),
             (heap1 ++ [results_object results; results_object results])%list).
Proof.
  intros results heap1 heap2.
  split; [repeat split|].
  apply (@calculateBearingCapacity_deterministic ReferenceHost.host
           heap1 heap2 0%nat 1%nat 2%nat 3%nat 2%nat 0%nat initial_soil initial_foundation
           initial_load initial_waterTable initial_fos);
    reflexivity.
Defined.

(** ** C10: the range of the water-table correction *)

(** C10, as stated, fails: a water-table depth of NaN passes both
    comparisons as false, and the interpolation gives NaN, which is neither
    at least 0.5 nor at most 1.  Infinities can do the same: with a depth
    Df of -Infinity and a width B of Infinity, Df + B is NaN. *)
Lemma nan_depth_gives_nan_correction :
  let r := @calculateBearingCapacity ReferenceHost.host initial_soil
             initial_foundation initial_load (Some nan) initial_fos in
  let r' := @calculateBearingCapacity ReferenceHost.host initial_soil
              {| shape := Square; B := infinity; L := 2.0; Df := neg_infinity |}
              initial_load (Some 5) initial_fos in
  (is_nan (W_prime r) = true
   /\ (0.5 <=? W_prime r) = false /\ (W_prime r <=? 1) = false)
  /\ (is_nan (W_prime r') = true
      /\ (0.5 <=? W_prime r') = false /\ (W_prime r' <=? 1) = false).
Proof. vm_compute. repeat split. Qed.

(** C10, amended: for every input in which the water-table depth is absent,
    or is a finite number together with the foundation depth Df and width B
    (none of them NaN or an infinity), 0.5 <= W_prime <= 1, in binary64
    arithmetic as the engine computes it. *)
Theorem W_prime_bounded `{HostMath}
    (soil : SoilProperties) (foundation : FoundationProperties)
    (load : LoadingConditions) (water_table_depth : option float) (FOS : float) :
  match water_table_depth with
  | None => True
  | Some Dw =>
      is_finite Dw = true /\ is_finite (Df foundation) = true
      /\ is_finite (B foundation) = true
  end ->
  let r := calculateBearingCapacity soil foundation load water_table_depth FOS in
  (0.5 <=? W_prime r) = true /\ (W_prime r <=? 1) = true.
Proof.
  intros Hfin r.
  pose proof (W_prime_field soil foundation load water_table_depth FOS) as HW.
  cbv zeta in HW. fold r in HW. rewrite HW. clear HW.
  unfold water_table_correction.
  destruct water_table_depth as [Dw|]; cbn [snd]; [|split; reflexivity].
  destruct Hfin as (FDw & FDf & FB).
  destruct (Dw <=? Df foundation) eqn:Hle; [split; reflexivity|].
  destruct (Dw >=? Df foundation + B foundation) eqn:Hge; [split; reflexivity|].
  apply interpolation_bounds; assumption.
Qed.

Lemma W_prime_bounded_witness :
  let r := @calculateBearingCapacity ReferenceHost.host initial_soil
             initial_foundation initial_load (Some 2.5) initial_fos in
  W_prime r = 0.75 /\ (0.5 <=? W_prime r) = true /\ (W_prime r <=? 1) = true.
Proof.
  split; [reflexivity|].
  apply (@W_prime_bounded ReferenceHost.host initial_soil initial_foundation
           initial_load (Some 2.5) initial_fos).
  repeat split.
Defined.
